(** * bunr: change classification and attribution pipeline

    A shallow embedding of [src/utils/GitUtils.ts] and
    [src/utils/WorkspaceUtils.ts], followed by the properties of the
    natural-language specification that were checked against them.

    Conventions of the embedding.
    - A JavaScript string is a [string]: a sequence of code units in the
      range U+0000..U+00FF.
    - A value that may be [undefined] or [null] is an [option].
    - The shell, the file system, the glob library and the commit-message
      grammar parser are collaborators: their answers are fields of an
      environment record.
    - [console.warn] is a writer effect: every effectful function returns the
      warnings it emitted, in order.  [throw] is the [Thrown] completion. *)

From Stdlib Require Import String Ascii List Bool Arith NArith ZArith Lia.
From Stdlib Require Import Permutation Sorted.
From Stdlib Require DecimalString DecimalNat.
Import ListNotations.
Open Scope string_scope.
Open Scope list_scope.

Set Implicit Arguments.

(** String concatenation, kept apart from list append. *)
Infix "+++" := String.append (at level 60, right associativity).

(* ------------------------------------------------------------------ *)
(** ** JavaScript string primitives *)

Module JS.

Definition tabChar : ascii := "009"%char.
Definition pipeChar : ascii := "|"%char.
Definition tab : string := String tabChar "".

(** White space of [String.prototype.trim] among the code units below
    U+0100: TAB, LF, VT, FF, CR, SPACE and NBSP. *)
Definition isWhitespace (c : ascii) : bool :=
  let n := nat_of_ascii c in
  (((9 <=? n) && (n <=? 13)) || (n =? 32) || (n =? 160))%nat.

(** Line terminators below U+0100: LF and CR.  A regular expression's [.]
    (without the [s] flag) matches every code unit but these. *)
Definition isLineTerminator (c : ascii) : bool :=
  let n := nat_of_ascii c in ((n =? 10) || (n =? 13))%nat.

(** [\d] *)
Definition isDigit (c : ascii) : bool :=
  let n := nat_of_ascii c in ((48 <=? n) && (n <=? 57))%nat.

Definition isEmpty (s : string) : bool :=
  match s with EmptyString => true | String _ _ => false end.

Fixpoint trimStart (s : string) : string :=
  match s with
  | EmptyString => EmptyString
  | String c s' => if isWhitespace c then trimStart s' else s
  end.

Fixpoint trimEnd (s : string) : string :=
  match s with
  | EmptyString => EmptyString
  | String c s' =>
      let t := trimEnd s' in
      if isWhitespace c && isEmpty t then EmptyString else String c t
  end.

Definition trim (s : string) : string := trimEnd (trimStart s).

(** [s.split(sep)] for a separator of one code unit, which is what both
    call sites pass.  The result is never empty: [''.split(sep)] is
    [['']]. *)
Fixpoint split (sep : ascii) (s : string) : list string :=
  match s with
  | EmptyString => [EmptyString]
  | String c s' =>
      if Ascii.eqb c sep then EmptyString :: split sep s'
      else match split sep s' with
           | h :: t => String c h :: t
           | [] => [String c EmptyString]
           end
  end.

(** [s] without its first code unit, when that is [c]. *)
Definition stripChar (c : ascii) (s : string) : option string :=
  match s with
  | String d r => if Ascii.eqb d c then Some r else None
  | EmptyString => None
  end.

(** [s.startsWith(p)] *)
Definition startsWith (s p : string) : bool := String.prefix p s.

(** [s.includes(needle)] *)
Fixpoint includes (s needle : string) : bool :=
  String.prefix needle s
  || match s with
     | EmptyString => false
     | String _ s' => includes s' needle
     end.

(** Truthiness of a value that is a string or [undefined]/[null]. *)
Definition truthy (v : option string) : bool :=
  match v with
  | Some s => negb (isEmpty s)
  | None => false
  end.

(** [v || d] for such a value. *)
Definition orElse (v : option string) (d : string) : string :=
  match v with
  | Some s => if isEmpty s then d else s
  | None => d
  end.

(** [v || undefined] *)
Definition orUndefined (v : option string) : option string :=
  match v with
  | Some s => if isEmpty s then None else Some s
  | None => None
  end.

(** Template-literal rendering of a string or [undefined]. *)
Definition show (v : option string) : string :=
  match v with
  | Some s => s
  | None => "undefined"
  end.

Definition digitValue (c : ascii) : N := N.of_nat (nat_of_ascii c - 48).

Fixpoint parseDigits (acc : N) (s : string) : N :=
  match s with
  | EmptyString => acc
  | String c s' =>
      if isDigit c then parseDigits (10 * acc + digitValue c)%N s' else acc
  end.

(** [parseInt(s, 10)] on a string that starts with a decimal digit, the
    only kind the source passes (captures of [\d+]): the value of the
    leading run of digits.  The runtime holds the result in a double, which
    is exact up to 2^53; the embedding keeps the exact integer. *)
Definition parseInt10 (s : string) : N := parseDigits 0%N s.

End JS.

(* ------------------------------------------------------------------ *)
(** ** The runtime's [path] module, POSIX flavour ([path.sep] is ["/"]) *)

Module Path.

Definition sepChar : ascii := "/"%char.
Definition sep : string := "/".

(** One step of [normalizeString]: the stack of kept segments, most
    recent first. *)
Definition pushSegment (allowAboveRoot : bool) (stack : list string)
    (seg : string) : list string :=
  if JS.isEmpty seg || String.eqb seg "." then stack
  else if String.eqb seg ".." then
    match stack with
    | top :: rest =>
        if String.eqb top ".." then
          (if allowAboveRoot then seg :: stack else stack)
        else rest
    | [] => if allowAboveRoot then [seg] else []
    end
  else seg :: stack.

Definition normalizeString (p : string) (allowAboveRoot : bool) : string :=
  String.concat sep
    (rev (fold_left (pushSegment allowAboveRoot) (JS.split sepChar p) [])).

Fixpoint lastChar (s : string) : option ascii :=
  match s with
  | EmptyString => None
  | String c EmptyString => Some c
  | String _ s' => lastChar s'
  end.

Definition isSep (c : option ascii) : bool :=
  match c with Some c => Ascii.eqb c sepChar | None => false end.

(** [path.normalize(p)] *)
Definition normalize (p : string) : string :=
  match p with
  | EmptyString => "."
  | String c0 _ =>
      let isAbsolute := Ascii.eqb c0 sepChar in
      let trailingSeparator := isSep (lastChar p) in
      let body := normalizeString p (negb isAbsolute) in
      if JS.isEmpty body then
        (if isAbsolute then "/"
         else if trailingSeparator then "./" else ".")
      else
        let body' := if trailingSeparator then body +++ "/" else body in
        if isAbsolute then "/" +++ body' else body'
  end.

(** [path.join(a, b)] *)
Definition join (a b : string) : string :=
  match JS.isEmpty a, JS.isEmpty b with
  | true, true => "."
  | true, false => normalize b
  | false, true => normalize a
  | false, false => normalize (a +++ "/" +++ b)
  end.

(** [path.basename(p)]: the last non-empty segment. *)
Definition basename (p : string) : string :=
  match filter (fun s => negb (JS.isEmpty s)) (rev (JS.split sepChar p)) with
  | s :: _ => s
  | [] => EmptyString
  end.

End Path.

(* ------------------------------------------------------------------ *)
(** ** Completions and warnings *)

(** How a call ends: it returns a value or throws an error, rendered as the
    text that [`${error}`] interpolates. *)
Inductive Completion (A : Type) : Type :=
| Returned (a : A)
| Thrown (error : string).

Arguments Returned {A} a.
Arguments Thrown {A} error.

(** An effectful computation of [GitUtils]: its completion and the lines it
    passed to [console.warn]. *)
Definition Eff (A : Type) : Type := (Completion A * list string)%type.

Module EffM.

Definition ret {A} (a : A) : Eff A := (Returned a, []).

Definition throw {A} (e : string) : Eff A := (Thrown e, []).

Definition warn (msg : string) : Eff unit := (Returned tt, [msg]).

Definition bind {A B} (m : Eff A) (f : A -> Eff B) : Eff B :=
  match m with
  | (Returned a, w) => let (r, w') := f a in (r, w ++ w')
  | (Thrown e, w) => (Thrown e, w)
  end.

(** [try { m } catch (error) { handler error }] *)
Definition tryCatch {A} (m : Eff A) (handler : string -> Eff A) : Eff A :=
  match m with
  | (Returned a, w) => (Returned a, w)
  | (Thrown e, w) => let (r, w') := handler e in (r, w ++ w')
  end.

(** Awaiting a collaborator whose answer is already a completion. *)
Definition await {A} (c : Completion A) : Eff A := (c, []).

(** [for (const x of xs) { ... }] with an accumulator. *)
Fixpoint forEach {A S} (xs : list A) (body : S -> A -> Eff S) (s : S)
    : Eff S :=
  match xs with
  | [] => ret s
  | x :: xs' => bind (body s x) (forEach xs' body)
  end.

End EffM.

Declare Scope eff_scope.
Delimit Scope eff_scope with eff.
Notation "x <- m ;; k" := (EffM.bind m (fun x => k))
  (at level 61, m at next level, right associativity) : eff_scope.

Definition value {A} (m : Eff A) : Completion A := fst m.
Definition warnings {A} (m : Eff A) : list string := snd m.

(* ------------------------------------------------------------------ *)
(** ** Data model ([src/utils/types.ts]) *)

Inductive ReleaseType : Type := major | minor | patch.

(** [===] on release types. *)
Definition ReleaseType_eqb (a b : ReleaseType) : bool :=
  match a, b with
  | major, major | minor, minor | patch, patch => true
  | _, _ => false
  end.

(** A JavaScript [Date], kept as the text it was constructed from. *)
Inductive JsDate : Type := DateOf (text : string).

Record WorkspaceMember : Type := {
  wm_name : string;
  wm_path : string;
  wm_relativePath : string;
  wm_version : string;
  wm_publishable : bool;
  wm_private : bool
}.

Record CommitAuthor : Type := {
  author_name : string;
  author_email : string;
  author_date : JsDate
}.

Record ConventionalCommit : Type := {
  hash : string;
  shortHash : string;
  rawMessage : string;
  type : string;
  scope : option string;
  description : string;
  body : option string;
  breakingChange : option string;
  isBreaking : bool;
  releaseType : ReleaseType;
  author : CommitAuthor;
  changedFiles : list string
}.

Record SemVer : Type := {
  sv_major : N;
  sv_minor : N;
  sv_patch : N;
  sv_prerelease : string
}.

Record GitTag : Type := {
  tag_name : string;
  tag_hash : string;
  tag_date : JsDate;
  isVersionTag : bool;
  version : option SemVer
}.

Record PackageChanges : Type := {
  packageName : string;
  packagePath : string;
  affectingCommits : list ConventionalCommit;
  suggestedReleaseType : ReleaseType
}.

(** The argument type of [analyzePackageChanges]:
    [{ name: string; relativePath: string }]. *)
Record PackageRef : Type := {
  name : string;
  relativePath : string
}.

(** The fields of a [package.json] that the source reads.  [workspaces] is
    an array of patterns, an object with a [packages] array, or absent. *)
Inductive Workspaces : Type :=
| WsAbsent
| WsArray (patterns : list string)
| WsObject (packages : option (list string)).

Record PackageJson : Type := {
  pj_name : option string;
  pj_version : option string;
  (** truthiness of [publishConfig] *)
  pj_publishConfig : bool;
  (** truthiness of [private] *)
  pj_private : bool;
  pj_workspaces : Workspaces
}.

(** What [Bun.file(path).json()] resolves to: [null], or a value whose
    properties can be read. *)
Inductive Json : Type :=
| JNull
| JManifest (packageJson : PackageJson).

(** What [conventional-commits-parser] returns, as far as the source reads
    it. *)
Record CommitNote : Type := {
  title : string;
  text : string
}.

Record ParsedCommit : Type := {
  parsed_type : option string;
  parsed_scope : option string;
  parsed_subject : option string;
  parsed_body : option string;
  notes : option (list CommitNote)
}.

(* ------------------------------------------------------------------ *)
(** ** A JavaScript [Map] and [Set] with string keys

    Both iterate in insertion order; setting a key that is present keeps its
    position. *)

Module JsMap.

Definition t (V : Type) : Type := list (string * V).

Definition empty {V} : t V := [].

Fixpoint get {V} (k : string) (m : t V) : option V :=
  match m with
  | [] => None
  | (k', v) :: m' => if String.eqb k' k then Some v else get k m'
  end.

Fixpoint set {V} (k : string) (v : V) (m : t V) : t V :=
  match m with
  | [] => [(k, v)]
  | (k', v') :: m' =>
      if String.eqb k' k then (k', v) :: m' else (k', v') :: set k v m'
  end.

Definition values {V} (m : t V) : list V := map snd m.

Definition keys {V} (m : t V) : list string := map fst m.

End JsMap.

Module JsSet.

Definition t : Type := list string.

Definition empty : t := [].

Fixpoint has (k : string) (s : t) : bool :=
  match s with
  | [] => false
  | k' :: s' => String.eqb k' k || has k s'
  end.

Definition add (k : string) (s : t) : t :=
  if has k s then s else s ++ [k].

End JsSet.

(* ------------------------------------------------------------------ *)
(** ** [GitUtils] ([src/utils/GitUtils.ts]) *)

(** The collaborators of [GitUtils]: what each shell command answers in the
    repository at hand, and the commit-message grammar parser. *)
Record GitEnv : Type := {
  (** [git tag --sort=-creatordate --format=...], line by line *)
  gitTagLines : Completion (list string);
  (** [git rev-list --max-parents=0 HEAD], as text *)
  gitRootCommit : Completion string;
  (** [git log --format=... --reverse <rangeSpec>], line by line *)
  gitLogLines : string -> Completion (list string);
  (** [git diff-tree --no-commit-id --name-only -r --root <hash>] *)
  gitDiffTreeLines : string -> Completion (list string);
  (** [new CommitParser().parse(message)] *)
  commitParser : string -> ParsedCommit
}.

Module GitUtils.

Import EffM.
Local Open Scope eff_scope.

(** The leading run of [\d], and what follows it. *)
Fixpoint spanDigits (s : string) : string * string :=
  match s with
  | EmptyString => (EmptyString, EmptyString)
  | String c s' =>
      if JS.isDigit c then
        let (d, r) := spanDigits s' in (String c d, r)
      else (EmptyString, s)
  end.

Fixpoint hasLineTerminator (s : string) : bool :=
  match s with
  | EmptyString => false
  | String c s' => JS.isLineTerminator c || hasLineTerminator s'
  end.

(** [name.match(/^v?(\d+)\.(\d+)\.(\d+)(?:-(.+))?$/)]: the four capture
    groups on a match (the fourth is [undefined] when the suffix is
    absent), [None] for [null]. *)
Definition versionMatch (name : string)
    : option (string * string * string * option string) :=
  let afterV :=
    match JS.stripChar "v" name with
    | Some r => r
    | None => name
    end in
  let (g1, r1) := spanDigits afterV in
  if JS.isEmpty g1 then None else
  match JS.stripChar "." r1 with
  | None => None
  | Some r1' =>
      let (g2, r2) := spanDigits r1' in
      if JS.isEmpty g2 then None else
      match JS.stripChar "." r2 with
      | None => None
      | Some r2' =>
          let (g3, r3) := spanDigits r2' in
          if JS.isEmpty g3 then None else
          if JS.isEmpty r3 then Some (g1, g2, g3, None)
          else
            match JS.stripChar "-" r3 with
            | None => None
            | Some g4 =>
                if JS.isEmpty g4 || hasLineTerminator g4 then None
                else Some (g1, g2, g3, Some g4)
            end
      end
  end.

(** The body of the loop of [getAllTags] for one line: the tag it pushes,
    if any. *)
Definition tagOfLine (tag : string) : option GitTag :=
  if JS.isEmpty (JS.trim tag) then None
  else
    let fields := JS.split JS.tabChar tag in
    let hash := nth_error fields 0 in
    let dateStr := nth_error fields 1 in
    let name := nth_error fields 2 in
    match hash, dateStr, name with
    | Some hash, Some dateStr, Some name =>
        if JS.isEmpty hash || JS.isEmpty dateStr || JS.isEmpty name
        then None
        else
          let m := versionMatch name in
          Some {| tag_name := name;
                  tag_hash := hash;
                  tag_date := DateOf dateStr;
                  isVersionTag := match m with Some _ => true | None => false end;
                  version :=
                    match m with
                    | Some (g1, g2, g3, g4) =>
                        Some {| sv_major := JS.parseInt10 g1;
                                sv_minor := JS.parseInt10 g2;
                                sv_patch := JS.parseInt10 g3;
                                sv_prerelease := JS.orElse g4 "none" |}
                    | None => None
                    end |}
    | _, _, _ => None
    end.

Definition getAllTags (env : GitEnv) : Eff (list GitTag) :=
  tryCatch
    (lines <- await (gitTagLines env) ;;
     ret (fold_left
            (fun result tag =>
               match tagOfLine tag with
               | Some t => result ++ [t]
               | None => result
               end)
            lines []))
    (fun error =>
       _ <- warn ("Warning: Could not retrieve git tags: " +++ error) ;;
       ret []).

Definition getLatestVersionTag (env : GitEnv) : Eff (option GitTag) :=
  allTags <- getAllTags env ;;
  ret (find isVersionTag allTags).

Definition getChangedFilesForCommit (env : GitEnv) (commitHash : string)
    : Eff (list string) :=
  tryCatch
    (lines <- await (gitDiffTreeLines env commitHash) ;;
     let changedFiles :=
       fold_left (fun acc line => acc ++ [JS.trim line]) lines [] in
     ret (filter (fun f => negb (JS.isEmpty (JS.trim f))) changedFiles))
    (fun error =>
       _ <- warn ("Warning: Could not get changed files for commit "
                  +++ commitHash +++ ": " +++ error) ;;
       ret []).

Definition isBreakingNote (note : CommitNote) : bool :=
  String.eqb (title note) "BREAKING CHANGE".

(** [parsed.notes?.some((note) => note.title === "BREAKING CHANGE")],
    as a condition. *)
Definition someBreakingNote (parsed : ParsedCommit) : bool :=
  match notes parsed with
  | Some ns => existsb isBreakingNote ns
  | None => false
  end.

Definition typeIs (parsed : ParsedCommit) (t : string) : bool :=
  match parsed_type parsed with
  | Some s => String.eqb s t
  | None => false
  end.

Definition determineReleaseType (parsed : ParsedCommit) : ReleaseType :=
  if someBreakingNote parsed then major
  else if typeIs parsed "feat" then minor
  else if typeIs parsed "fix" || typeIs parsed "perf" then patch
  else patch.

(** [`${startRef}..${toRef}`], or [startRef] alone when both are the same
    string. *)
Definition rangeSpecOf (startRef toRef : string) : string :=
  if String.eqb startRef toRef then startRef
  else startRef +++ ".." +++ toRef.

(** The starting point of the range: [fromRef] when it is given, else the
    latest version tag's name, else the root commit. *)
Definition resolveStartRef (env : GitEnv) (fromRef : option string)
    : Eff string :=
  let fallback :=
    latestTag <- getLatestVersionTag env ;;
    match latestTag with
    | Some t => ret (tag_name t)
    | None =>
        rootCommit <- await (gitRootCommit env) ;;
        ret (JS.trim rootCommit)
    end in
  match fromRef with
  | Some startRef => if JS.isEmpty startRef then fallback else ret startRef
  | None => fallback
  end.

(** The lines of the log that the first loop of [getCommitsInRange] keeps:
    it pushes [result.trim()] when [!result.trim()] holds. *)
Definition collectBlocks (lines : list string) : list string :=
  fold_left
    (fun commitsResult result =>
       if JS.isEmpty (JS.trim result)
       then commitsResult ++ [JS.trim result]
       else commitsResult)
    lines [].

(** The body of the second loop for one block: the record it pushes, or
    [None] when the entry is skipped. *)
Definition commitOfBlock (env : GitEnv) (block : string)
    : Eff (option ConventionalCommit) :=
  match JS.split JS.pipeChar block with
  | hash :: shortHash :: authorName :: authorEmail :: authorDate
      :: subject :: rest =>
      let body := nth_error rest 0 in
      let fullMessage :=
        match body with
        | Some b => if JS.isEmpty b then subject
                    else subject +++ String "010" (String "010" b)
        | None => subject
        end in
      let parsed := commitParser env fullMessage in
      changedFiles <- getChangedFilesForCommit env hash ;;
      let releaseType := determineReleaseType parsed in
      let isBreaking := someBreakingNote parsed in
      let breakingChange :=
        match notes parsed with
        | Some ns => option_map text (find isBreakingNote ns)
        | None => None
        end in
      ret (Some {| hash := hash;
                   shortHash := shortHash;
                   rawMessage := fullMessage;
                   type := JS.orElse (parsed_type parsed) "unknown";
                   scope := JS.orUndefined (parsed_scope parsed);
                   description := JS.orElse (parsed_subject parsed) subject;
                   body := JS.orUndefined (parsed_body parsed);
                   breakingChange := breakingChange;
                   isBreaking := isBreaking;
                   releaseType := releaseType;
                   author := {| author_name := authorName;
                                author_email := authorEmail;
                                author_date := DateOf authorDate |};
                   changedFiles := changedFiles |})
  | _ => ret None
  end.

Definition getCommitsInRange (env : GitEnv) (fromRef : option string)
    (toRefArg : option string) : Eff (list ConventionalCommit) :=
  let toRef := match toRefArg with Some r => r | None => "HEAD" end in
  tryCatch
    (startRef <- resolveStartRef env fromRef ;;
     let rangeSpec := rangeSpecOf startRef toRef in
     lines <- await (gitLogLines env rangeSpec) ;;
     let commitsResult := collectBlocks lines in
     if (length commitsResult =? 0)%nat then ret []
     else
       forEach commitsResult
         (fun commits block =>
            c <- commitOfBlock env block ;;
            match c with
            | Some c => ret (commits ++ [c])
            | None => ret commits
            end)
         [])
    (fun error =>
       throw ("Failed to get commits in range " +++ JS.show fromRef
              +++ ".." +++ toRef +++ ": " +++ error)).

Definition isFileInPackage (filePath packagePath : string) : bool :=
  let normalizedFilePath := Path.normalize filePath in
  let normalizedPackagePath := Path.normalize packagePath in
  if String.eqb normalizedPackagePath "."
     || String.eqb normalizedPackagePath ""
  then
    negb (JS.includes normalizedFilePath Path.sep)
    || JS.startsWith normalizedFilePath "."
  else
    JS.startsWith normalizedFilePath (normalizedPackagePath +++ Path.sep)
    || String.eqb normalizedFilePath normalizedPackagePath.

(** The map that [analyzePackageChanges] starts from: one zero-state
    record per package name. *)
Definition initialChanges (workspacePackages : list PackageRef)
    : JsMap.t PackageChanges :=
  fold_left
    (fun m pkg =>
       JsMap.set (name pkg)
         {| packageName := name pkg;
            packagePath := relativePath pkg;
            affectingCommits := [];
            suggestedReleaseType := patch |}
         m)
    workspacePackages JsMap.empty.

(** The set of package names that one commit touches. *)
Definition affectedPackages (workspacePackages : list PackageRef)
    (commit : ConventionalCommit) : JsSet.t :=
  fold_left
    (fun affected changedFile =>
       fold_left
         (fun affected pkg =>
            if isFileInPackage changedFile (relativePath pkg)
            then JsSet.add (name pkg) affected
            else affected)
         workspacePackages affected)
    (changedFiles commit) JsSet.empty.

(** The update of one package's record by an affecting commit. *)
Definition recordCommit (commit : ConventionalCommit)
    (packageChanges : PackageChanges) : PackageChanges :=
  let pushed := affectingCommits packageChanges ++ [commit] in
  let raise :=
    ReleaseType_eqb (releaseType commit) major
    || (ReleaseType_eqb (releaseType commit) minor
        && ReleaseType_eqb (suggestedReleaseType packageChanges) patch) in
  {| packageName := packageName packageChanges;
     packagePath := packagePath packageChanges;
     affectingCommits := pushed;
     suggestedReleaseType :=
       if raise then releaseType commit
       else suggestedReleaseType packageChanges |}.

(** One iteration of the loop over the commits. *)
Definition processCommit (workspacePackages : list PackageRef)
    (packageChangesMap : JsMap.t PackageChanges)
    (commit : ConventionalCommit) : JsMap.t PackageChanges :=
  fold_left
    (fun m packageName =>
       match JsMap.get packageName m with
       | Some packageChanges =>
           JsMap.set packageName (recordCommit commit packageChanges) m
       | None => m
       end)
    (affectedPackages workspacePackages commit) packageChangesMap.

Definition analyzePackageChanges (commits : list ConventionalCommit)
    (workspacePackages : list PackageRef) : list PackageChanges :=
  let packageChangesMap :=
    fold_left (processCommit workspacePackages) commits
      (initialChanges workspacePackages) in
  filter (fun pkg => (0 <? length (affectingCommits pkg))%nat)
    (JsMap.values packageChangesMap).

End GitUtils.

(* ------------------------------------------------------------------ *)
(** ** [WorkspaceUtils] ([src/utils/WorkspaceUtils.ts]) *)

(** The collaborators of [WorkspaceUtils]. *)
Record FsEnv : Type := {
  (** [process.cwd()] *)
  cwd : string;
  (** [git rev-parse --show-toplevel], as text *)
  gitTopLevel : Completion string;
  (** [Bun.file(path).exists()] *)
  fileExists : string -> bool;
  (** [Bun.file(path).json()] *)
  fileJson : string -> Completion Json;
  (** [glob(pattern, { cwd, absolute: false })] *)
  glob : string -> string -> Completion (list string);
  (** [a.localeCompare(b)] *)
  localeCompare : string -> string -> Z
}.

(** The private fields of an instance. *)
Record WorkspaceUtilsState : Type := {
  rootPath : string;
  rootPackageJson : option PackageJson;
  workspaceMembers : option (list WorkspaceMember);
  isMonorepo : option bool
}.

(** A method of [WorkspaceUtils]: from the instance's fields to a
    completion, the fields afterwards and the lines printed. *)
Definition Method (A : Type) : Type :=
  WorkspaceUtilsState -> (Completion A * WorkspaceUtilsState * list string)%type.

Module MethodM.

Definition ret {A} (a : A) : Method A := fun st => (Returned a, st, []).

Definition throw {A} (e : string) : Method A := fun st => (Thrown e, st, []).

Definition print (line : string) : Method unit :=
  fun st => (Returned tt, st, [line]).

Definition this : Method WorkspaceUtilsState :=
  fun st => (Returned st, st, []).

Definition assign (f : WorkspaceUtilsState -> WorkspaceUtilsState)
    : Method unit :=
  fun st => (Returned tt, f st, []).

Definition await {A} (c : Completion A) : Method A := fun st => (c, st, []).

Definition bind {A B} (m : Method A) (f : A -> Method B) : Method B :=
  fun st =>
    match m st with
    | (Returned a, st', out) =>
        match f a st' with
        | (r, st'', out') => (r, st'', out ++ out')
        end
    | (Thrown e, st', out) => (Thrown e, st', out)
    end.

Definition tryCatch {A} (m : Method A) (handler : string -> Method A)
    : Method A :=
  fun st =>
    match m st with
    | (Returned a, st', out) => (Returned a, st', out)
    | (Thrown e, st', out) =>
        match handler e st' with
        | (r, st'', out') => (r, st'', out ++ out')
        end
    end.

Fixpoint forEach {A} (xs : list A) (body : A -> Method unit) : Method unit :=
  match xs with
  | [] => ret tt
  | x :: xs' => bind (body x) (fun _ => forEach xs' body)
  end.

End MethodM.

Declare Scope method_scope.
Delimit Scope method_scope with method.
Notation "x <- m ;; k" := (MethodM.bind m (fun x => k))
  (at level 61, m at next level, right associativity) : method_scope.
Notation "m ;;; k" := (MethodM.bind m (fun _ => k))
  (at level 61, right associativity) : method_scope.

Module WorkspaceUtils.

Import MethodM.
Local Open Scope method_scope.

(** What reading a property of [null] or iterating [undefined] throws; the
    wording is the runtime's. *)
Definition typeError : string := "TypeError".

(** [constructor()] *)
Definition constructor (env : FsEnv) : WorkspaceUtilsState :=
  {| rootPath := cwd env;
     rootPackageJson := None;
     workspaceMembers := None;
     isMonorepo := None |}.

Definition setRootPackageJson (v : option PackageJson) : Method unit :=
  assign (fun st =>
    {| rootPath := rootPath st;
       rootPackageJson := v;
       workspaceMembers := workspaceMembers st;
       isMonorepo := isMonorepo st |}).

Definition setWorkspaceMembers (v : list WorkspaceMember) : Method unit :=
  assign (fun st =>
    {| rootPath := rootPath st;
       rootPackageJson := rootPackageJson st;
       workspaceMembers := Some v;
       isMonorepo := isMonorepo st |}).

Definition setIsMonorepo (v : bool) : Method unit :=
  assign (fun st =>
    {| rootPath := rootPath st;
       rootPackageJson := rootPackageJson st;
       workspaceMembers := workspaceMembers st;
       isMonorepo := Some v |}).

(** The array behind [this.workspaceMembers] once it has been assigned. *)
Definition membersOf (st : WorkspaceUtilsState) : list WorkspaceMember :=
  match workspaceMembers st with
  | Some ms => ms
  | None => []
  end.

(** [Array.isArray(w) && w.length > 0] *)
Definition isNonEmptyArray (w : Workspaces) : bool :=
  match w with
  | WsArray patterns => (0 <? length patterns)%nat
  | _ => false
  end.

Definition getRootPackageJson (env : FsEnv) : Method Json :=
  st <- this ;;
  match rootPackageJson st with
  | Some packageJson => ret (JManifest packageJson)
  | None =>
      topLevel <- await (gitTopLevel env) ;;
      let packageJsonPath := Path.join topLevel "package.json" in
      (if fileExists env packageJsonPath then ret tt
       else
         print "---" ;;;
         print "No package.json found in the current directory. Please run bunr from the repository root." ;;;
         print "---") ;;;
      tryCatch
        (json <- await (fileJson env packageJsonPath) ;;
         setRootPackageJson
           (match json with JManifest pj => Some pj | JNull => None end) ;;;
         ret json)
        (fun error => throw ("Failed to parse package.json: " +++ error))
  end.

Definition getIsMonorepo (env : FsEnv) : Method bool :=
  st <- this ;;
  match isMonorepo st with
  | Some b => ret b
  | None =>
      tryCatch
        (rootPackageJson <- getRootPackageJson env ;;
         match rootPackageJson with
         | JManifest pj =>
             let b := isNonEmptyArray (pj_workspaces pj) in
             setIsMonorepo b ;;; ret b
         | JNull => throw typeError
         end)
        (fun _ => setIsMonorepo false ;;; ret false)
  end.

(** The comparison of [sort((a, b) => a.name.localeCompare(b.name))]; the
    sort is stable. *)
Fixpoint insertSorted (env : FsEnv) (x : WorkspaceMember)
    (sorted : list WorkspaceMember) : list WorkspaceMember :=
  match sorted with
  | [] => [x]
  | y :: rest =>
      if (localeCompare env (wm_name x) (wm_name y) <? 0)%Z
      then x :: y :: rest
      else y :: insertSorted env x rest
  end.

Definition sortByName (env : FsEnv) (members : list WorkspaceMember)
    : list WorkspaceMember :=
  fold_left (fun sorted x => insertSorted env x sorted) members [].

(** The body of the inner loop for one matching path. *)
Definition visitPath (env : FsEnv) (relativePath : string) : Method unit :=
  st <- this ;;
  let packagePath := Path.join (rootPath st) relativePath in
  let packageJsonPath := Path.join packagePath "package.json" in
  if negb (fileExists env packageJsonPath) then ret tt
  else
    tryCatch
      (json <- await (fileJson env packageJsonPath) ;;
       match json with
       | JNull => throw typeError
       | JManifest packageJson =>
           let workspaceMember :=
             {| wm_name :=
                  JS.orElse (pj_name packageJson)
                    (Path.basename relativePath);
                wm_path := packagePath;
                wm_relativePath := relativePath;
                wm_version := JS.orElse (pj_version packageJson) "0.0.0";
                wm_publishable := pj_publishConfig packageJson;
                wm_private := pj_private packageJson |} in
           st <- this ;;
           setWorkspaceMembers (membersOf st ++ [workspaceMember])
       end)
      (fun error =>
         print ("Warning: Could not parse package.json in "
                +++ relativePath +++ ": " +++ error)).

(** The body of the outer loop for one workspace pattern. *)
Definition visitPattern (env : FsEnv) (pattern : string) : Method unit :=
  tryCatch
    (st <- this ;;
     matchingPaths <- await (glob env pattern (rootPath st)) ;;
     forEach matchingPaths (visitPath env))
    (fun error =>
       print ("Warning: Could not process workspace pattern "
              +++ String "034" pattern +++ String "034" ": " +++ error)).

Definition getWorkspacePackages (env : FsEnv)
    : Method (list WorkspaceMember) :=
  st <- this ;;
  match workspaceMembers st with
  | Some members => ret members
  | None =>
      isMonorepo <- getIsMonorepo env ;;
      if negb isMonorepo then
        setWorkspaceMembers [] ;;; ret []
      else
        rootPackageJson <- getRootPackageJson env ;;
        workspacePatterns <-
          match rootPackageJson with
          | JNull => throw typeError
          | JManifest pj =>
              match pj_workspaces pj with
              | WsArray patterns => ret (Some patterns)
              | WsObject packages => ret packages
              | WsAbsent => ret None
              end
          end ;;
        setWorkspaceMembers [] ;;;
        match workspacePatterns with
        | None => throw typeError
        | Some patterns =>
            forEach patterns (visitPattern env) ;;;
            st <- this ;;
            setWorkspaceMembers (sortByName env (membersOf st)) ;;;
            st <- this ;;
            ret (membersOf st)
        end
  end.

Definition findPackageByName (env : FsEnv) (name : string)
    : Method (option WorkspaceMember) :=
  packages <- getWorkspacePackages env ;;
  ret (find (fun pkg => String.eqb (wm_name pkg) name) packages).

(** The two searches of [findPackageByPath] over the member list. *)
Definition searchByPath (packages : list WorkspaceMember)
    (relativePath : string) : option WorkspaceMember :=
  let exactMatch :=
    find (fun pkg => String.eqb (wm_relativePath pkg) relativePath)
      packages in
  match exactMatch with
  | Some pkg => Some pkg
  | None =>
      find
        (fun pkg =>
           JS.startsWith relativePath (wm_relativePath pkg +++ Path.sep)
           || String.eqb relativePath (wm_relativePath pkg))
        packages
  end.

Definition findPackageByPath (env : FsEnv) (relativePath : string)
    : Method (option WorkspaceMember) :=
  packages <- getWorkspacePackages env ;;
  ret (searchByPath packages relativePath).

End WorkspaceUtils.

(* ------------------------------------------------------------------ *)
(** ** Specification-level notions *)

(** A commit carries a breaking-change note: one of its notes is titled
    ["BREAKING CHANGE"]. *)
Definition HasBreakingNote (parsed : ParsedCommit) : Prop :=
  exists ns note,
    notes parsed = Some ns /\ In note ns /\ title note = "BREAKING CHANGE".

(** [q] lies below the directory [dir]: [dir], a separator, and more. *)
Definition Descendant (q dir : string) : Prop :=
  exists rest, q = dir +++ Path.sep +++ rest.

(** Severity order [patch < minor < major]. *)
Definition severity (r : ReleaseType) : nat :=
  match r with
  | patch => 0
  | minor => 1
  | major => 2
  end.

Definition maxRelease (a b : ReleaseType) : ReleaseType :=
  if (severity a <? severity b)%nat then b else a.

(** The most severe level of a list of commits, [patch] when it is empty. *)
Definition maxImpact (cs : list ConventionalCommit) : ReleaseType :=
  fold_left (fun acc c => maxRelease acc (releaseType c)) cs patch.

(** Version names, as the regular expression of [getAllTags] describes
    them. *)

Fixpoint allDigits (s : string) : bool :=
  match s with
  | EmptyString => true
  | String c s' => JS.isDigit c && allDigits s'
  end.

Definition Digits (g : string) : Prop := g <> "" /\ allDigits g = true.

Definition VersionShape (name g1 g2 g3 : string) (g4 : option string) : Prop :=
  exists v suffix,
    (v = "" \/ v = "v")
    /\ name = v +++ g1 +++ "." +++ g2 +++ "." +++ g3 +++ suffix
    /\ Digits g1 /\ Digits g2 /\ Digits g3
    /\ ((g4 = None /\ suffix = "")
        \/ (exists pre,
              g4 = Some pre /\ suffix = "-" +++ pre /\ pre <> ""
              /\ GitUtils.hasLineTerminator pre = false)).


Definition startsWithDigit (s : string) : bool :=
  match s with
  | String c _ => JS.isDigit c
  | EmptyString => false
  end.

Definition exampleTagLine : string :=
  "abc1234" +++ JS.tab +++ "2024-01-15T10:00:00+00:00" +++ JS.tab
  +++ "v2.3.1-beta".


Definition exampleTag : GitTag :=
  {| tag_name := "v2.3.1-beta";
     tag_hash := "abc1234";
     tag_date := DateOf "2024-01-15T10:00:00+00:00";
     isVersionTag := true;
     version := Some {| sv_major := 2; sv_minor := 3; sv_patch := 1;
                        sv_prerelease := "beta" |} |}.

(** Attribution of commits to packages. *)

(** Some changed file of [c] lies in a package named [k]. *)
Definition touches (pkgs : list PackageRef) (k : string)
    (c : ConventionalCommit) : bool :=
  existsb
    (fun f =>
       existsb
         (fun pkg =>
            GitUtils.isFileInPackage f (relativePath pkg)
            && String.eqb (name pkg) k)
         pkgs)
    (changedFiles c).

Definition Touches (pkgs : list PackageRef) (k : string)
    (c : ConventionalCommit) : Prop :=
  exists f pkg,
    In f (changedFiles c) /\ In pkg pkgs /\ name pkg = k
    /\ GitUtils.isFileInPackage f (relativePath pkg) = true.

(** The record under key [fst kv] once the commits [cs] are processed. *)
Definition finalRecord (pkgs : list PackageRef) (cs : list ConventionalCommit)
    (kv : string * PackageChanges) : string * PackageChanges :=
  (fst kv,
   fold_left
     (fun pc c =>
        if touches pkgs (fst kv) c then GitUtils.recordCommit c pc else pc)
     cs (snd kv)).

(** The zero state of a record under key [k]. *)
Definition ZeroRecord (kv : string * PackageChanges) : Prop :=
  packageName (snd kv) = fst kv
  /\ affectingCommits (snd kv) = []
  /\ suggestedReleaseType (snd kv) = patch.

Definition pkgA : PackageRef := {| name := "a"; relativePath := "packages/a" |}.
Definition pkgB : PackageRef := {| name := "b"; relativePath := "packages/b" |}.

Definition commitTouching (level : ReleaseType) (files : list string)
    : ConventionalCommit :=
  {| hash := "4f2a9c1d";
     shortHash := "4f2a9c1";
     rawMessage := "feat: add index";
     type := "feat";
     scope := None;
     description := "add index";
     body := None;
     breakingChange := None;
     isBreaking := false;
     releaseType := level;
     author := {| author_name := "dev";
                  author_email := "dev@example.com";
                  author_date := DateOf "2024-01-15T10:00:00+00:00" |};
     changedFiles := files |}.

(** Repositories and values used as concrete inputs. *)

Definition member (name relativePath : string) : WorkspaceMember :=
  {| wm_name := name;
     wm_path := Path.join "/repo" relativePath;
     wm_relativePath := relativePath;
     wm_version := "0.0.0";
     wm_publishable := false;
     wm_private := false |}.

Definition newline : string := String "010" "".

(** The same repository, with another answer to the tag listing. *)
Definition withTagLines (env : GitEnv) (answer : Completion (list string))
    : GitEnv :=
  {| gitTagLines := answer;
     gitRootCommit := gitRootCommit env;
     gitLogLines := gitLogLines env;
     gitDiffTreeLines := gitDiffTreeLines env;
     commitParser := commitParser env |}.

Definition featParser (message : string) : ParsedCommit :=
  {| parsed_type := Some "feat";
     parsed_scope := None;
     parsed_subject := Some "add index";
     parsed_body := None;
     notes := Some [] |}.

Definition wellFormedLogLine : string :=
  "4f2a9c1d0e|4f2a9c1|dev|dev@example.com|2024-01-15T10:00:00+00:00|feat: add index|".

(** A repository tagged [v1.0.0] with one commit after the tag. *)
Definition taggedRepo : GitEnv :=
  {| gitTagLines :=
       Returned ["abc1234" +++ JS.tab +++ "2024-01-15T10:00:00+00:00"
                 +++ JS.tab +++ "v1.0.0"];
     gitRootCommit := Returned ("9fceb02" +++ newline);
     gitLogLines := fun rangeSpec =>
       if String.eqb rangeSpec "v1.0.0..HEAD" then Returned [wellFormedLogLine]
       else Thrown "fatal: bad revision";
     gitDiffTreeLines := fun _ => Returned ["packages/a/index.ts"];
     commitParser := featParser |}.

Definition rootLogLine : string :=
  "9fceb02d0a|9fceb02|dev|dev@example.com|2024-01-01T09:00:00+00:00|feat: first commit|".

(** A repository without tags whose only commit is the root commit
    [9fceb02d0a]: the range [9fceb02d0a..HEAD] holds no commit. *)
Definition rootOnlyRepo : GitEnv :=
  {| gitTagLines := Returned [];
     gitRootCommit := Returned ("9fceb02d0a" +++ newline);
     gitLogLines := fun rangeSpec =>
       if String.eqb rangeSpec "9fceb02d0a..HEAD" then Returned []
       else if String.eqb rangeSpec "9fceb02d0a" || String.eqb rangeSpec "HEAD"
       then Returned [rootLogLine]
       else Thrown "fatal: bad revision";
     gitDiffTreeLines := fun _ => Returned ["README.md"];
     commitParser := featParser |}.

(** A repository whose tag listing fails. *)
Definition brokenTagsRepo : GitEnv :=
  withTagLines rootOnlyRepo (Thrown "fatal: not a git repository").

Definition expectedCommit : ConventionalCommit :=
  {| hash := "4f2a9c1d0e";
     shortHash := "4f2a9c1";
     rawMessage := "feat: add index";
     type := "feat";
     scope := None;
     description := "add index";
     body := None;
     breakingChange := None;
     isBreaking := false;
     releaseType := minor;
     author := {| author_name := "dev";
                  author_email := "dev@example.com";
                  author_date := DateOf "2024-01-15T10:00:00+00:00" |};
     changedFiles := ["packages/a/index.ts"] |}.

Definition tagWarning (error : string) : string :=
  "Warning: Could not retrieve git tags: " +++ error.

(** The caches of [WorkspaceUtils] and a logic for its methods. *)

(** The root manifest is read, and is [pj]. *)
Definition RootManifestIs (env : FsEnv) (pj : PackageJson) : Prop :=
  exists topLevel,
    gitTopLevel env = Returned topLevel
    /\ fileJson env (Path.join topLevel "package.json")
       = Returned (JManifest pj).

(** The root manifest declares a non-empty list of workspace patterns. *)
Definition DeclaresPatterns (env : FsEnv) : Prop :=
  exists pj patterns,
    RootManifestIs env pj
    /\ pj_workspaces pj = WsArray patterns /\ patterns <> [].

(** The caches of an instance agree with the repository. *)
Definition Consistent (env : FsEnv) (st : WorkspaceUtilsState) : Prop :=
  (forall pj, rootPackageJson st = Some pj -> RootManifestIs env pj)
  /\ (isMonorepo st = Some true -> DeclaresPatterns env)
  /\ (forall ms, workspaceMembers st = Some ms ->
                 ms = [] \/ DeclaresPatterns env).

(** The states an instance goes through: the constructor's, and the state
    after any call of a public method. *)
Inductive Reachable (env : FsEnv) : WorkspaceUtilsState -> Prop :=
| reach_constructor : Reachable env (WorkspaceUtils.constructor env)
| reach_getIsMonorepo st :
    Reachable env st ->
    Reachable env (snd (fst (WorkspaceUtils.getIsMonorepo env st)))
| reach_getRootPackageJson st :
    Reachable env st ->
    Reachable env (snd (fst (WorkspaceUtils.getRootPackageJson env st)))
| reach_getWorkspacePackages st :
    Reachable env st ->
    Reachable env (snd (fst (WorkspaceUtils.getWorkspacePackages env st)))
| reach_findPackageByName st name :
    Reachable env st ->
    Reachable env (snd (fst (WorkspaceUtils.findPackageByName env name st)))
| reach_findPackageByPath st relativePath :
    Reachable env st ->
    Reachable env
      (snd (fst (WorkspaceUtils.findPackageByPath env relativePath st))).

(** [m], run from [st], ends in a completion and a state that satisfy [Q]. *)
Definition ensures {A} (m : Method A) (st : WorkspaceUtilsState)
    (Q : Completion A -> WorkspaceUtilsState -> Prop) : Prop :=
  Q (fst (fst (m st))) (snd (fst (m st))).

(** A repository with one package: whatever manifest is read has no
    [workspaces]. *)
Definition singlePackageRepo : FsEnv :=
  {| cwd := "/repo";
     gitTopLevel := Returned ("/repo" +++ newline);
     fileExists := fun _ => true;
     fileJson := fun _ =>
       Returned (JManifest {| pj_name := Some "solo";
                              pj_version := Some "1.0.0";
                              pj_publishConfig := false;
                              pj_private := false;
                              pj_workspaces := WsAbsent |});
     glob := fun _ _ => Returned [];
     localeCompare := fun a b =>
       match String.compare a b with Lt => (-1)%Z | Eq => 0%Z | Gt => 1%Z end |}.

(* ------------------------------------------------------------------ *)
(* ------------------------------------------------------------------ *)
(** ** Further definitions: commands, reports, discovery, choices *)

(** Every code unit of [s] is white space. *)
Fixpoint allWhitespace (s : string) : bool :=
  match s with
  | EmptyString => true
  | String c s' => JS.isWhitespace c && allWhitespace s'
  end.

(** [s] does not begin with white space. *)
Definition startsClean (s : string) : bool :=
  match s with
  | EmptyString => true
  | String c _ => negb (JS.isWhitespace c)
  end.

(** The collaborators of the methods of [GitUtils] that only wrap one shell
    command. *)
Record GitCommandEnv : Type := {
  (** [process.cwd()] *)
  processCwd : string;
  (** [git rev-parse --show-toplevel] run in a directory: its standard
      output *)
  gitShowTopLevel : string -> Completion string;
  (** [git status --porcelain], as text *)
  gitStatusPorcelain : Completion string;
  (** [git tag <name>], or [git tag -a <name> -m <message>] when a message is
      passed *)
  gitTag : string -> option string -> Completion unit;
  (** [git branch --show-current], as text *)
  gitBranchShowCurrent : Completion string
}.

(** [GitUtils.isGitRepo(startDir = process.cwd())] *)
Definition isGitRepo (env : GitCommandEnv) (startDirArg : option string)
    : Eff bool :=
  let startDir :=
    match startDirArg with Some d => d | None => processCwd env end in
  EffM.tryCatch
    (EffM.bind (EffM.await (gitShowTopLevel env startDir))
       (fun stdout => EffM.ret (negb (JS.isEmpty (JS.trim stdout)))))
    (fun _ => EffM.ret false).

(** [GitUtils.hasUncommittedChanges()] *)
Definition hasUncommittedChanges (env : GitCommandEnv) : Eff bool :=
  EffM.tryCatch
    (EffM.bind (EffM.await (gitStatusPorcelain env))
       (fun result =>
          EffM.ret (0 <? String.length (JS.trim result))%nat))
    (fun error =>
       EffM.bind
         (EffM.warn ("Warning: Could not check git status: " +++ error))
         (fun _ => EffM.ret true)).

(** [GitUtils.createTag(tagName, message?)] *)
Definition createTag (env : GitCommandEnv) (tagName : string)
    (message : option string) : Eff unit :=
  EffM.tryCatch
    (if JS.truthy message
     then EffM.await (gitTag env tagName message)
     else EffM.await (gitTag env tagName None))
    (fun error =>
       EffM.throw ("Failed to create tag " +++ tagName +++ ": " +++ error)).

(** [GitUtils.getCurrentBranch()] *)
Definition getCurrentBranch (env : GitCommandEnv) : Eff string :=
  EffM.tryCatch
    (EffM.bind (EffM.await (gitBranchShowCurrent env))
       (fun result => EffM.ret (JS.trim result)))
    (fun error =>
       EffM.throw ("Failed to get current branch: " +++ error)).

(** [t] is the first version tag of [tags]. *)
Definition FirstVersionTag (t : GitTag) (tags : list GitTag) : Prop :=
  exists before after,
    tags = before ++ t :: after
    /\ isVersionTag t = true
    /\ (forall u, In u before -> isVersionTag u = false).

(** The prefix of every error that [getCommitsInRange] throws. *)
Definition rangeErrorPrefix (fromRef toRefArg : option string) : string :=
  "Failed to get commits in range " +++ JS.show fromRef +++ ".."
  +++ match toRefArg with Some r => r | None => "HEAD" end +++ ": ".

(** A repository with a failing status and branch query. *)
Definition brokenWorkTree : GitCommandEnv :=
  {| processCwd := "/repo";
     gitShowTopLevel := fun _ => Thrown "fatal: not a git repository";
     gitStatusPorcelain := Thrown "fatal: not a git repository";
     gitTag := fun _ _ => Thrown "fatal: not a git repository";
     gitBranchShowCurrent := Thrown "fatal: not a git repository" |}.

(** A clean work tree on branch [main]. *)
Definition cleanWorkTree : GitCommandEnv :=
  {| processCwd := "/repo";
     gitShowTopLevel := fun _ => Returned ("/repo" +++ newline);
     gitStatusPorcelain := Returned "";
     gitTag := fun _ _ => Returned tt;
     gitBranchShowCurrent := Returned ("main" +++ newline) |}.

(** A repository whose history cannot be read. *)
Definition unreadableHistory : GitEnv :=
  {| gitTagLines := Returned [];
     gitRootCommit := Returned ("9fceb02d0a" +++ newline);
     gitLogLines := fun _ => Thrown "fatal: bad revision";
     gitDiffTreeLines := fun _ => Thrown "fatal: bad object";
     commitParser := featParser |}.

(** The decimal notation of a natural number. *)
Definition decimal (n : nat) : string :=
  DecimalString.NilEmpty.string_of_uint (Nat.to_uint n).

(** The name of the version [a.b.c], with or without the leading ["v"] and
    the prerelease suffix. *)
Definition versionName (withV : bool) (a b c : nat) (pre : option string)
    : string :=
  (if withV then "v" else "")
  +++ decimal a +++ "." +++ decimal b +++ "." +++ decimal c
  +++ match pre with Some p => "-" +++ p | None => "" end.

(** A prerelease text that the regular expression accepts after the
    dash. *)
Definition PrereleaseOk (pre : option string) : Prop :=
  match pre with
  | Some p => p <> "" /\ GitUtils.hasLineTerminator p = false
  | None => True
  end.


(** The package names of a workspace list, each once, in the order of their
    first entry. *)
Definition firstNames (pkgs : list PackageRef) : list string :=
  fold_left (fun seen pkg => JsSet.add (name pkg) seen) pkgs [].

(** Some commit of [cs] touches a package named [k]. *)
Definition touched (pkgs : list PackageRef) (cs : list ConventionalCommit)
    (k : string) : bool :=
  existsb (touches pkgs k) cs.

(** Some changed file of [c] lies in some package. *)
Definition touchesAny (pkgs : list PackageRef) (c : ConventionalCommit)
    : bool :=
  existsb (fun pkg => touches pkgs (name pkg) c) pkgs.

(** What a record reports about its package, commit list aside. *)
Definition summary (r : PackageChanges) : string * string * ReleaseType :=
  (packageName r, packagePath r, suggestedReleaseType r).

(** [pkg] is the last entry of [pkgs] with its name. *)
Definition LastNamed (pkgs : list PackageRef) (pkg : PackageRef) : Prop :=
  exists before after,
    pkgs = before ++ pkg :: after
    /\ forall q, In q after -> name q <> name pkg.

(** Two workspace entries that share the name ["a"]. *)
Definition pkgAOld : PackageRef :=
  {| name := "a"; relativePath := "legacy/a" |}.

(** A [feat] commit and a breaking commit in [packages/a]. *)
Definition featInA : ConventionalCommit :=
  commitTouching minor ["packages/a/index.ts"].

Definition breakingInA : ConventionalCommit :=
  commitTouching major ["packages/a/api.ts"; "legacy/a/api.ts"].


(** Where [getWorkspacePackages] looks for the manifest of a candidate. *)
Definition manifestPath (env : FsEnv) (relativePath : string) : string :=
  Path.join (Path.join (cwd env) relativePath) "package.json".

(** The member that a candidate with manifest [pj] becomes. *)
Definition memberOf (env : FsEnv) (relativePath : string) (pj : PackageJson)
    : WorkspaceMember :=
  {| wm_name := JS.orElse (pj_name pj) (Path.basename relativePath);
     wm_path := Path.join (cwd env) relativePath;
     wm_relativePath := relativePath;
     wm_version := JS.orElse (pj_version pj) "0.0.0";
     wm_publishable := pj_publishConfig pj;
     wm_private := pj_private pj |}.

(** [m] is the member of one of [paths]: the manifest of that candidate
    exists and is read as an object. *)
Definition Found (env : FsEnv) (paths : list string) (m : WorkspaceMember)
    : Prop :=
  exists relativePath pj,
    In relativePath paths
    /\ fileExists env (manifestPath env relativePath) = true
    /\ fileJson env (manifestPath env relativePath) = Returned (JManifest pj)
    /\ m = memberOf env relativePath pj.

(** [m] is the member of a candidate that one of [patterns] expands to. *)
Definition FoundIn (env : FsEnv) (patterns : list string)
    (m : WorkspaceMember) : Prop :=
  exists pattern paths,
    In pattern patterns
    /\ glob env pattern (cwd env) = Returned paths
    /\ Found env paths m.

(** [m] is a member of the workspace: the root manifest declares a pattern
    that expands to a candidate of which [m] is the member. *)
Definition Discovered (env : FsEnv) (m : WorkspaceMember) : Prop :=
  exists pj0 patterns,
    RootManifestIs env pj0
    /\ pj_workspaces pj0 = WsArray patterns
    /\ FoundIn env patterns m.

(** Neighbours are in the order of [localeCompare] on their names. *)
Definition SortedByName (env : FsEnv) (ms : list WorkspaceMember) : Prop :=
  Sorted
    (fun a b => (localeCompare env (wm_name a) (wm_name b) <= 0)%Z) ms.

(** What holds of the caches besides [Consistent], whatever the member
    list. *)
Definition CachesExact (env : FsEnv) (st : WorkspaceUtilsState) : Prop :=
  Consistent env st
  /\ rootPath st = cwd env
  /\ (isMonorepo st = Some false -> ~ DeclaresPatterns env)
  /\ (isMonorepo st = Some true ->
      exists pj patterns,
        rootPackageJson st = Some pj
        /\ pj_workspaces pj = WsArray patterns /\ patterns <> []).

(** What [getRootPackageJson] answers and leaves behind. *)
Definition rootAnswer (env : FsEnv) (st : WorkspaceUtilsState) (r : Completion Json)
    (st' : WorkspaceUtilsState) : Prop :=
  rootPath st' = rootPath st
  /\ isMonorepo st' = isMonorepo st
  /\ workspaceMembers st' = workspaceMembers st
  /\ (forall pj, rootPackageJson st = Some pj ->
                 r = Returned (JManifest pj) /\ st' = st)
  /\ match r with
     | Returned (JManifest pj) =>
         rootPackageJson st' = Some pj /\ RootManifestIs env pj
     | _ => rootPackageJson st' = rootPackageJson st
            /\ ~ DeclaresPatterns env
     end.

(** The state inside the loops of [getWorkspacePackages]: the members
    pushed so far are those that satisfy [P]. *)
Definition Collecting (env : FsEnv) (P : WorkspaceMember -> Prop)
    (st : WorkspaceUtilsState) : Prop :=
  CachesExact env st
  /\ exists raw, workspaceMembers st = Some raw /\ forall m, In m raw <-> P m.

(** The state between calls: a cached member list is the members of the
    workspace, sorted. *)
Definition CachesSound (env : FsEnv) (st : WorkspaceUtilsState) : Prop :=
  CachesExact env st
  /\ forall ms,
       workspaceMembers st = Some ms ->
       exists raw, ms = WorkspaceUtils.sortByName env raw
                   /\ forall m, In m raw <-> Discovered env m.

(** A comparison on strings, as a [localeCompare]. *)
Definition compareStrings (a b : string) : Z :=
  match String.compare a b with Lt => (-1)%Z | Eq => 0%Z | Gt => 1%Z end.

(** A workspace with packages [b] and [a] under [packages/], a directory
    without manifest and a manifest that does not parse. *)
Definition twoPackageRepo : FsEnv :=
  {| cwd := "/repo";
     gitTopLevel := Returned "/repo";
     fileExists := fun path =>
       negb (String.eqb path "/repo/packages/empty/package.json");
     fileJson := fun path =>
       if String.eqb path "/repo/package.json" then
         Returned (JManifest {| pj_name := Some "root";
                                pj_version := Some "1.0.0";
                                pj_publishConfig := false;
                                pj_private := true;
                                pj_workspaces := WsArray ["packages/*"] |})
       else if String.eqb path "/repo/packages/b/package.json" then
         Returned (JManifest {| pj_name := Some "b";
                                pj_version := Some "0.2.0";
                                pj_publishConfig := true;
                                pj_private := false;
                                pj_workspaces := WsAbsent |})
       else if String.eqb path "/repo/packages/a/package.json" then
         Returned (JManifest {| pj_name := None;
                                pj_version := None;
                                pj_publishConfig := false;
                                pj_private := false;
                                pj_workspaces := WsAbsent |})
       else Thrown "SyntaxError: JSON Parse error";
     glob := fun pattern _ =>
       if String.eqb pattern "packages/*"
       then Returned ["packages/b"; "packages/broken"; "packages/empty";
                      "packages/a"]
       else Thrown "invalid pattern";
     localeCompare := compareStrings |}.

Definition memberA : WorkspaceMember :=
  {| wm_name := "a";
     wm_path := "/repo/packages/a";
     wm_relativePath := "packages/a";
     wm_version := "0.0.0";
     wm_publishable := false;
     wm_private := false |}.

Definition memberB : WorkspaceMember :=
  {| wm_name := "b";
     wm_path := "/repo/packages/b";
     wm_relativePath := "packages/b";
     wm_version := "0.2.0";
     wm_publishable := true;
     wm_private := false |}.

(** [m] is the first member of [ms] named [name]. *)
Definition FirstNamed (name : string) (m : WorkspaceMember)
    (ms : list WorkspaceMember) : Prop :=
  exists before after,
    ms = before ++ m :: after
    /\ wm_name m = name
    /\ (forall p, In p before -> wm_name p <> name).


(** * The choice filter ([getMatchingChoices])

    The values the filter inspects.  Whatever has a [typeof] other than
    ["object"] (strings, numbers, booleans, functions, ...) is kept by its
    [String(...)] rendering, the only thing the code reads of it.  An object
    (arrays included, with their indices as keys) is kept by its
    [Object.entries], in their order.  The embedding holds finite trees: on
    an object that reaches itself the source recurses until the stack
    overflows. *)
#[warnings="-register-all"] Inductive JsValue : Type :=
| VNull
| VUndefined
| VPrimitive (rendering : string)
| VObject (entries : list (string * JsValue)).

Module Choices.

(** [c.toLowerCase()] for a code unit below U+0100: the letters [A-Z],
    [U+00C0-U+00D6] and [U+00D8-U+00DE] move up by 32. *)
Definition toLowerChar (c : ascii) : ascii :=
  let n := nat_of_ascii c in
  if (((65 <=? n) && (n <=? 90))
      || ((192 <=? n) && (n <=? 214))
      || ((216 <=? n) && (n <=? 222)))%nat
  then ascii_of_nat (n + 32)
  else c.

Fixpoint toLowerCase (s : string) : string :=
  match s with
  | EmptyString => EmptyString
  | String c s' => String (toLowerChar c) (toLowerCase s')
  end.

Fixpoint recursiveCheck (searchLower : string) (current : JsValue)
    {struct current} : bool :=
  match current with
  | VNull | VUndefined => false
  | VPrimitive rendering => JS.includes (toLowerCase rendering) searchLower
  | VObject entries =>
      (fix loop (rest : list (string * JsValue)) : bool :=
         match rest with
         | [] => false
         | (key, value) :: rest' =>
             if JS.includes (toLowerCase key) searchLower then true
             else
               match value with
               | VNull | VObject _ =>
                   if recursiveCheck searchLower value then true
                   else loop rest'
               | VUndefined => loop rest'
               | VPrimitive rendering =>
                   if JS.includes (toLowerCase rendering) searchLower
                   then true
                   else loop rest'
               end
         end) entries
  end.

Definition matchesSearch (obj : JsValue) (search : string) : bool :=
  let searchLower := toLowerCase search in
  recursiveCheck searchLower obj.

Definition getMatchingChoices (dataset : list JsValue)
    (searchString : option string) : list JsValue :=
  if negb (JS.truthy searchString) then dataset
  else
    match searchString with
    | Some search => filter (fun entry => matchesSearch entry search) dataset
    | None => dataset
    end.

End Choices.

(** [needle] occurs in [s]. *)
Definition Occurs (needle s : string) : Prop :=
  exists before after, s = before +++ needle +++ after.

(** [v] mentions [needle]: at some depth, a key of [v] or the rendering of
    a value that is neither an object nor [null] nor [undefined] contains
    it once in lower case. *)
Inductive Mentions (needle : string) : JsValue -> Prop :=
| mentions_rendering rendering :
    Occurs needle (Choices.toLowerCase rendering) ->
    Mentions needle (VPrimitive rendering)
| mentions_key entries key value :
    In (key, value) entries ->
    Occurs needle (Choices.toLowerCase key) ->
    Mentions needle (VObject entries)
| mentions_value entries key value :
    In (key, value) entries ->
    Mentions needle value ->
    Mentions needle (VObject entries).

(** Induction on a value with the hypothesis for every value of an
    object. *)
Fixpoint JsValue_nested_ind (P : JsValue -> Prop)
    (Hnull : P VNull) (Hundefined : P VUndefined)
    (Hprimitive : forall rendering, P (VPrimitive rendering))
    (Hobject : forall entries,
        Forall (fun kv => P (snd kv)) entries -> P (VObject entries))
    (v : JsValue) {struct v} : P v :=
  match v with
  | VNull => Hnull
  | VUndefined => Hundefined
  | VPrimitive rendering => Hprimitive rendering
  | VObject entries =>
      Hobject entries
        ((fix all (l : list (string * JsValue))
            : Forall (fun kv => P (snd kv)) l :=
            match l with
            | [] => Forall_nil _
            | (key, value) :: l' =>
                Forall_cons (key, value)
                  (JsValue_nested_ind P Hnull Hundefined Hprimitive Hobject
                     value)
                  (all l')
            end) entries)
  end.

(** [v] with every key and every rendering in lower case. *)
Fixpoint lowerValue (v : JsValue) : JsValue :=
  match v with
  | VNull => VNull
  | VUndefined => VUndefined
  | VPrimitive rendering => VPrimitive (Choices.toLowerCase rendering)
  | VObject entries =>
      VObject
        (map (fun kv : string * JsValue =>
                let (key, value) := kv in
                (Choices.toLowerCase key, lowerValue value))
             entries)
  end.

Definition alphaChoice : JsValue :=
  VObject [("name", VPrimitive "Alpha"); ("id", VPrimitive "1")].

Definition nestedChoice : JsValue :=
  VObject [("name", VPrimitive "beta");
           ("meta", VObject [("Tags", VObject [("0", VPrimitive "ALPHABET")]);
                             ("owner", VNull)])].

Definition emptyChoice : JsValue := VObject [].


(* ------------------------------------------------------------------ *)
(** ** Strings *)

Section StringFacts.

Lemma isEmpty_true (s : string) : JS.isEmpty s = true <-> s = "".
Proof. destruct s; simpl; split; congruence. Qed.

Lemma isEmpty_false (s : string) : JS.isEmpty s = false <-> s <> "".
Proof. destruct s; simpl; split; congruence. Qed.

Lemma append_empty_r (s : string) : s +++ "" = s.
Proof. induction s; simpl; congruence. Qed.

Lemma append_assoc (a b c : string) : (a +++ b) +++ c = a +++ b +++ c.
Proof. induction a; simpl; congruence. Qed.

Lemma prefix_app (p r : string) : String.prefix p (p +++ r) = true.
Proof.
  induction p as [|c p IH]; simpl.
  - destruct r; reflexivity.
  - destruct (ascii_dec c c); [assumption | congruence].
Qed.

Lemma prefix_inv (p s : string) :
  String.prefix p s = true -> exists r, s = p +++ r.
Proof.
  revert s; induction p as [|c p IH]; intros s H.
  - exists s; reflexivity.
  - destruct s as [|d s]; simpl in H; [discriminate|].
    destruct (ascii_dec c d) as [->|]; [|discriminate].
    destruct (IH _ H) as [r ->]. exists r; reflexivity.
Qed.

Lemma startsWith_iff (s p : string) :
  JS.startsWith s p = true <-> exists r, s = p +++ r.
Proof.
  unfold JS.startsWith; split.
  - apply prefix_inv.
  - intros [r ->]; apply prefix_app.
Qed.

Lemma includes_prefix (s needle : string) :
  String.prefix needle s = true -> JS.includes s needle = true.
Proof.
  intros H.
  destruct s; cbn [JS.includes]; apply orb_true_iff; left; exact H.
Qed.

Lemma includes_app (a needle r : string) :
  JS.includes (a +++ needle +++ r) needle = true.
Proof.
  induction a as [|c a IH].
  - cbn [String.append]. apply includes_prefix, prefix_app.
  - cbn [String.append JS.includes]. rewrite IH. apply orb_true_r.
Qed.

Lemma startsWith_dir_includes_sep (s dir : string) :
  JS.startsWith s (dir +++ Path.sep) = true ->
  JS.includes s Path.sep = true.
Proof.
  intros H. apply startsWith_iff in H. destruct H as [r ->].
  rewrite append_assoc. apply includes_app.
Qed.

Lemma descendant_iff (q dir : string) :
  JS.startsWith q (dir +++ Path.sep) = true <-> Descendant q dir.
Proof.
  unfold Descendant. rewrite startsWith_iff.
  split; intros [r ->]; exists r;
    [apply append_assoc | symmetry; apply append_assoc].
Qed.

End StringFacts.

(* ------------------------------------------------------------------ *)
(** ** Lists *)

Section ListFacts.

Context {A : Type}.

(** [find] returns the first element that passes the test. *)
Lemma find_first (f : A -> bool) (l : list A) (x : A) :
  find f l = Some x <->
  exists l1 l2,
    l = l1 ++ x :: l2 /\ f x = true /\ (forall y, In y l1 -> f y = false).
Proof.
  split.
  - induction l as [|a l IH]; simpl; [discriminate|].
    destruct (f a) eqn:Fa; intros H.
    + injection H as ->. exists [], l. repeat split; auto.
      intros y [].
    + destruct (IH H) as (l1 & l2 & -> & Fx & Hl1).
      exists (a :: l1), l2. repeat split; auto.
      intros y [<-|Hy]; auto.
  - intros (l1 & l2 & -> & Fx & Hl1).
    induction l1 as [|a l1 IH]; simpl.
    + rewrite Fx; reflexivity.
    + rewrite (Hl1 a (or_introl eq_refl)).
      apply IH. intros y Hy; apply Hl1; right; exact Hy.
Qed.

Lemma find_none_iff (f : A -> bool) (l : list A) :
  find f l = None <-> forall y, In y l -> f y = false.
Proof.
  split.
  - apply find_none.
  - induction l as [|a l IH]; simpl; intros H; [reflexivity|].
    rewrite (H a (or_introl eq_refl)). apply IH.
    intros y Hy; apply H; right; exact Hy.
Qed.

Lemma find_some_ex (f : A -> bool) (l : list A) :
  (exists y, In y l /\ f y = true) -> exists x, find f l = Some x.
Proof.
  intros (y & Hy & Fy).
  destruct (find f l) as [x|] eqn:E; [exists x; reflexivity|].
  rewrite (find_none _ _ E _ Hy) in Fy; discriminate.
Qed.

End ListFacts.

(* ------------------------------------------------------------------ *)
(** ** Release-impact derivation *)

Lemma someBreakingNote_iff (parsed : ParsedCommit) :
  GitUtils.someBreakingNote parsed = true <-> HasBreakingNote parsed.
Proof.
  unfold GitUtils.someBreakingNote, HasBreakingNote.
  destruct (notes parsed) as [ns|]; split.
  - intros H. apply existsb_exists in H. destruct H as (note & Hin & Ht).
    exists ns, note. repeat split; auto. apply String.eqb_eq; exact Ht.
  - intros (ns' & note & Hns & Hin & Ht). injection Hns as <-.
    apply existsb_exists. exists note; split; auto.
    apply String.eqb_eq; exact Ht.
  - discriminate.
  - intros (ns' & note & Hns & _); discriminate.
Qed.

Lemma typeIs_iff (parsed : ParsedCommit) (t : string) :
  GitUtils.typeIs parsed t = true <-> parsed_type parsed = Some t.
Proof.
  unfold GitUtils.typeIs. destruct (parsed_type parsed) as [s|]; split.
  - intros H; apply String.eqb_eq in H; congruence.
  - intros H; injection H as ->; apply String.eqb_refl.
  - discriminate.
  - discriminate.
Qed.

(** C1.  The release-impact level of a parsed commit follows the priority
    order: a breaking-change note gives [major]; otherwise type ["feat"]
    gives [minor]; otherwise type ["fix"] or ["perf"] gives [patch];
    otherwise, any other type or none at all, [patch].  Every input has a
    level, which is one of the three. *)
Theorem determineReleaseType_priority (parsed : ParsedCommit) :
  (HasBreakingNote parsed -> GitUtils.determineReleaseType parsed = major)
  /\ (~ HasBreakingNote parsed -> parsed_type parsed = Some "feat" ->
      GitUtils.determineReleaseType parsed = minor)
  /\ (~ HasBreakingNote parsed ->
      parsed_type parsed = Some "fix" \/ parsed_type parsed = Some "perf" ->
      GitUtils.determineReleaseType parsed = patch)
  /\ (~ HasBreakingNote parsed -> parsed_type parsed <> Some "feat" ->
      GitUtils.determineReleaseType parsed = patch)
  /\ (exists level,
        GitUtils.determineReleaseType parsed = level
        /\ (level = major \/ level = minor \/ level = patch)).
Proof.
  unfold GitUtils.determineReleaseType.
  destruct (GitUtils.someBreakingNote parsed) eqn:B.
  - apply someBreakingNote_iff in B.
    repeat split; try tauto. exists major; auto.
  - assert (NB : ~ HasBreakingNote parsed).
    { intros H; apply someBreakingNote_iff in H; congruence. }
    destruct (GitUtils.typeIs parsed "feat") eqn:F.
    + apply typeIs_iff in F.
      repeat split; try tauto.
      * intros _ [H|H]; rewrite H in F; discriminate.
      * exists minor; auto.
    + assert (NF : parsed_type parsed <> Some "feat").
      { intros H; apply typeIs_iff in H; congruence. }
      assert (P : (if GitUtils.typeIs parsed "fix"
                      || GitUtils.typeIs parsed "perf"
                   then patch else patch) = patch)
        by (destruct (_ || _); reflexivity).
      rewrite P. repeat split; try tauto. exists patch; auto.
Qed.

(* ------------------------------------------------------------------ *)
(** ** Membership of a file in a package *)

Lemma isFileInPackage_root_eq (filePath packagePath : string) :
  packagePath = "." \/ packagePath = "" ->
  GitUtils.isFileInPackage filePath packagePath =
  negb (JS.includes (Path.normalize filePath) Path.sep)
  || JS.startsWith (Path.normalize filePath) ".".
Proof. intros [-> | ->]; reflexivity. Qed.

(** C7, as the code has it.  For a root member (relative path ["."] or
    empty) a changed file matches exactly when its normalized path contains
    no separator or begins with a dot.  Hence a file below the directory of
    a nested member is not attributed to the root member, unless its
    normalized path begins with a dot. *)
Theorem isFileInPackage_root_member (filePath packagePath : string) :
  packagePath = "." \/ packagePath = "" ->
  (GitUtils.isFileInPackage filePath packagePath = true <->
   JS.includes (Path.normalize filePath) Path.sep = false
   \/ JS.startsWith (Path.normalize filePath) "." = true)
  /\ (forall nested,
        JS.startsWith (Path.normalize filePath)
          (Path.normalize nested +++ Path.sep) = true ->
        JS.startsWith (Path.normalize filePath) "." = false ->
        GitUtils.isFileInPackage filePath packagePath = false).
Proof.
  intros Hroot. rewrite (isFileInPackage_root_eq filePath Hroot). split.
  - rewrite orb_true_iff, negb_true_iff. tauto.
  - intros nested Hin Hdot.
    rewrite (startsWith_dir_includes_sep _ _ Hin), Hdot. reflexivity.
Qed.

Lemma isFileInPackage_root_member_witness :
  (GitUtils.isFileInPackage "README.md" "." = true <->
   JS.includes (Path.normalize "README.md") Path.sep = false
   \/ JS.startsWith (Path.normalize "README.md") "." = true)
  /\ (forall nested,
        JS.startsWith (Path.normalize "README.md")
          (Path.normalize nested +++ Path.sep) = true ->
        JS.startsWith (Path.normalize "README.md") "." = false ->
        GitUtils.isFileInPackage "README.md" "." = false).
Proof.
  apply (@isFileInPackage_root_member "README.md" "."). left; reflexivity.
Defined.

(** C7, as the claim words it, fails: a file of a nested member that lives
    under a dot-directory contains a separator, is not a file at the
    repository root, and is attributed to the root member all the same. *)
Lemma root_member_takes_dot_directories :
  GitUtils.isFileInPackage ".tools/pkg/index.ts" ".tools/pkg" = true
  /\ JS.includes ".tools/pkg/index.ts" Path.sep = true
  /\ GitUtils.isFileInPackage ".tools/pkg/index.ts" "." = true
  /\ GitUtils.isFileInPackage ".tools/pkg/index.ts" "" = true.
Proof. vm_compute. repeat split. Qed.

(* ------------------------------------------------------------------ *)
(** ** Looking a member up by path *)

Lemma findPackageByPath_value (env : FsEnv) (q : string)
    (st : WorkspaceUtilsState) :
  fst (fst (WorkspaceUtils.findPackageByPath env q st)) =
  match fst (fst (WorkspaceUtils.getWorkspacePackages env st)) with
  | Returned packages => Returned (WorkspaceUtils.searchByPath packages q)
  | Thrown e => Thrown e
  end.
Proof.
  unfold WorkspaceUtils.findPackageByPath, MethodM.bind.
  destruct (WorkspaceUtils.getWorkspacePackages env st) as [[[ps|e] st'] out];
    reflexivity.
Qed.

(** C5.  [findPackageByPath] searches the member list that
    [getWorkspacePackages] returns: the first member whose relative path is
    the query wins; when there is none, the first member that has the query
    below its directory (its relative path, a separator, and more) is
    returned; when there is none either, the answer is [null].  With members
    [packages/a] and [packages/ab], in either order, the query
    [packages/a/src/x.ts] resolves to [packages/a]. *)
Theorem findPackageByPath_policy (env : FsEnv) (st : WorkspaceUtilsState)
    (q : string) :
  fst (fst (WorkspaceUtils.findPackageByPath env q st)) =
    match fst (fst (WorkspaceUtils.getWorkspacePackages env st)) with
    | Returned packages => Returned (WorkspaceUtils.searchByPath packages q)
    | Thrown e => Thrown e
    end
  /\ (forall packages,
        (exists pkg, In pkg packages /\ wm_relativePath pkg = q) ->
        exists before pkg after,
          packages = before ++ pkg :: after
          /\ wm_relativePath pkg = q
          /\ (forall p, In p before -> wm_relativePath p <> q)
          /\ WorkspaceUtils.searchByPath packages q = Some pkg)
  /\ (forall packages,
        (forall p, In p packages -> wm_relativePath p <> q) ->
        (exists pkg, In pkg packages /\ Descendant q (wm_relativePath pkg)) ->
        exists before pkg after,
          packages = before ++ pkg :: after
          /\ Descendant q (wm_relativePath pkg)
          /\ (forall p, In p before -> ~ Descendant q (wm_relativePath p))
          /\ WorkspaceUtils.searchByPath packages q = Some pkg)
  /\ (forall packages,
        (forall p, In p packages ->
           wm_relativePath p <> q /\ ~ Descendant q (wm_relativePath p)) ->
        WorkspaceUtils.searchByPath packages q = None)
  /\ WorkspaceUtils.searchByPath
       [member "a" "packages/a"; member "ab" "packages/ab"]
       "packages/a/src/x.ts" = Some (member "a" "packages/a")
  /\ WorkspaceUtils.searchByPath
       [member "ab" "packages/ab"; member "a" "packages/a"]
       "packages/a/src/x.ts" = Some (member "a" "packages/a").
Proof.
  split; [apply findPackageByPath_value|].
  unfold WorkspaceUtils.searchByPath.
  split; [|split; [|split; [|split; reflexivity]]].
  - intros packages (pkg0 & Hin & Hrel).
    destruct (find_some_ex
                (fun pkg => String.eqb (wm_relativePath pkg) q) packages)
      as [pkg Hf].
    { exists pkg0; split; auto. apply String.eqb_eq; exact Hrel. }
    rewrite Hf. apply find_first in Hf.
    destruct Hf as (l1 & l2 & -> & Hq & Hl1).
    exists l1, pkg, l2. repeat split; auto.
    + apply String.eqb_eq; exact Hq.
    + intros p Hp E. apply Hl1 in Hp.
      apply String.eqb_eq in E. congruence.
  - intros packages Hno (pkg0 & Hin & Hd).
    assert (E : find (fun pkg => String.eqb (wm_relativePath pkg) q)
                  packages = None).
    { apply find_none_iff. intros y Hy. apply String.eqb_neq, Hno, Hy. }
    rewrite E.
    destruct (find_some_ex
                (fun pkg =>
                   JS.startsWith q (wm_relativePath pkg +++ Path.sep)
                   || String.eqb q (wm_relativePath pkg)) packages)
      as [pkg Hf].
    { exists pkg0; split; auto.
      apply orb_true_iff; left. apply descendant_iff; exact Hd. }
    rewrite Hf. apply find_first in Hf.
    destruct Hf as (l1 & l2 & Hsplit & Hq & Hl1).
    exists l1, pkg, l2. repeat split; auto.
    + apply orb_true_iff in Hq. destruct Hq as [Hq|Hq].
      * apply descendant_iff; exact Hq.
      * apply String.eqb_eq in Hq. exfalso.
        apply (Hno pkg); [|congruence].
        rewrite Hsplit. apply in_or_app; right; left; reflexivity.
    + intros p Hp Hdp. apply Hl1 in Hp.
      apply orb_false_iff in Hp. destruct Hp as [Hp _].
      apply descendant_iff in Hdp. congruence.
  - intros packages Hno.
    assert (E : find (fun pkg => String.eqb (wm_relativePath pkg) q)
                  packages = None).
    { apply find_none_iff. intros y Hy. apply String.eqb_neq, Hno, Hy. }
    rewrite E. apply find_none_iff. intros y Hy.
    destruct (Hno y Hy) as [Hne Hnd].
    apply orb_false_iff; split.
    + destruct (JS.startsWith q (wm_relativePath y +++ Path.sep)) eqn:S;
        [|reflexivity].
      exfalso; apply Hnd, descendant_iff; exact S.
    + apply String.eqb_neq; congruence.
Qed.

(* ------------------------------------------------------------------ *)
(** ** Tag lines and version names *)

Lemma spanDigits_spec (s d r : string) :
  GitUtils.spanDigits s = (d, r) ->
  s = d +++ r /\ allDigits d = true /\ startsWithDigit r = false.
Proof.
  revert d r; induction s as [|c s IH]; simpl; intros d r H.
  - injection H as <- <-. auto.
  - destruct (JS.isDigit c) eqn:D.
    + destruct (GitUtils.spanDigits s) as [d' r'].
      injection H as <- <-. destruct (IH _ _ eq_refl) as (-> & Hd & Hr).
      simpl. rewrite D, Hd. auto.
    + injection H as <- <-. simpl. rewrite D. auto.
Qed.

Lemma spanDigits_app (d r : string) :
  allDigits d = true -> startsWithDigit r = false ->
  GitUtils.spanDigits (d +++ r) = (d, r).
Proof.
  intros Hd Hr. induction d as [|c d IH]; simpl in *.
  - destruct r as [|c r]; simpl in *; [reflexivity|]. rewrite Hr; reflexivity.
  - apply andb_true_iff in Hd. destruct Hd as [Hc Hd].
    rewrite Hc, (IH Hd). reflexivity.
Qed.

Lemma stripChar_spec (c : ascii) (s r : string) :
  JS.stripChar c s = Some r <-> s = String c r.
Proof.
  destruct s as [|d s]; simpl; split; try discriminate.
  - destruct (Ascii.eqb_spec d c); [|discriminate]. congruence.
  - intros H; injection H as -> ->. rewrite Ascii.eqb_refl; reflexivity.
Qed.

Lemma digit_not (c d : ascii) :
  JS.isDigit d = false -> JS.isDigit c = true -> Ascii.eqb c d = false.
Proof.
  intros Hd Hc. destruct (Ascii.eqb_spec c d); [congruence | reflexivity].
Qed.

Lemma digits_head (g rest : string) :
  Digits g -> exists c t, g +++ rest = String c t /\ JS.isDigit c = true.
Proof.
  intros [Hne Hd]. destruct g as [|c g]; [congruence|].
  simpl in Hd. apply andb_true_iff in Hd. destruct Hd as [Hc _].
  exists c, (g +++ rest). auto.
Qed.

Lemma stripV_digits (g rest : string) :
  Digits g -> JS.stripChar "v" (g +++ rest) = None.
Proof.
  intros H. destruct (digits_head rest H) as (c & t & -> & Dc).
  cbn [JS.stripChar]. rewrite (@digit_not c "v" eq_refl Dc). reflexivity.
Qed.

(** The matcher accepts exactly the names of the regular expression
    [^v?(\d+)\.(\d+)\.(\d+)(?:-(.+))?$], with its capture groups. *)
Theorem versionMatch_iff (name g1 g2 g3 : string) (g4 : option string) :
  GitUtils.versionMatch name = Some (g1, g2, g3, g4) <->
  VersionShape name g1 g2 g3 g4.
Proof.
  split.
  - unfold GitUtils.versionMatch. intros H.
    set (afterV := match JS.stripChar "v" name with
                   | Some r => r | None => name end) in H.
    assert (Hv : exists v, (v = "" \/ v = "v") /\ name = v +++ afterV).
    { subst afterV. destruct (JS.stripChar "v" name) as [r|] eqn:E.
      - apply stripChar_spec in E. exists "v". split; auto.
      - exists "". split; auto. }
    destruct Hv as (v & Hv & Hname).
    destruct (GitUtils.spanDigits afterV) as [d1 r1] eqn:S1.
    destruct (JS.isEmpty d1) eqn:E1; [discriminate|].
    destruct (JS.stripChar "." r1) as [r1'|] eqn:P1; [|discriminate].
    destruct (GitUtils.spanDigits r1') as [d2 r2] eqn:S2.
    destruct (JS.isEmpty d2) eqn:E2; [discriminate|].
    destruct (JS.stripChar "." r2) as [r2'|] eqn:P2; [|discriminate].
    destruct (GitUtils.spanDigits r2') as [d3 r3] eqn:S3.
    destruct (JS.isEmpty d3) eqn:E3; [discriminate|].
    apply spanDigits_spec in S1, S2, S3.
    destruct S1 as (A1 & D1 & _), S2 as (A2 & D2 & _), S3 as (A3 & D3 & _).
    apply stripChar_spec in P1, P2. apply isEmpty_false in E1, E2, E3.
    assert (Hsuf : exists suffix,
               (g1, g2, g3) = (d1, d2, d3)
               /\ r3 = suffix
               /\ ((g4 = None /\ suffix = "")
                   \/ (exists pre, g4 = Some pre /\ suffix = "-" +++ pre
                                   /\ pre <> ""
                                   /\ GitUtils.hasLineTerminator pre = false))).
    { destruct (JS.isEmpty r3) eqn:E4.
      - apply isEmpty_true in E4. injection H as <- <- <- <-.
        exists r3. auto.
      - destruct (JS.stripChar "-" r3) as [pre|] eqn:P3; [|discriminate].
        destruct (JS.isEmpty pre || GitUtils.hasLineTerminator pre) eqn:E5;
          [discriminate|].
        apply orb_false_iff in E5. destruct E5 as [E5 E6].
        apply isEmpty_false in E5. apply stripChar_spec in P3.
        injection H as <- <- <- <-. exists r3. split; auto. split; auto.
        right. exists pre. auto. }
    destruct Hsuf as (suffix & Hg & <- & Hsuffix).
    injection Hg as -> -> ->.
    exists v, r3. repeat split; auto.
    rewrite Hname, A1, P1, A2, P2, A3. reflexivity.
  - intros (v & suffix & Hv & Hname & H1 & H2 & H3 & Hsuffix).
    assert (Hs : startsWithDigit suffix = false).
    { destruct Hsuffix as [[_ ->] | (pre & _ & -> & _)]; reflexivity. }
    unfold GitUtils.versionMatch.
    assert (Hafter : match JS.stripChar "v" name with
                     | Some r => r | None => name end
                     = g1 +++ "." +++ g2 +++ "." +++ g3 +++ suffix).
    { destruct Hv as [-> | ->]; subst name.
      - change ("" +++ g1 +++ "." +++ g2 +++ "." +++ g3 +++ suffix)
          with (g1 +++ "." +++ g2 +++ "." +++ g3 +++ suffix).
        rewrite (@stripV_digits g1 _ H1). reflexivity.
      - reflexivity. }
    rewrite Hafter.
    destruct H1 as [N1 D1], H2 as [N2 D2], H3 as [N3 D3].
    apply isEmpty_false in N1, N2, N3.
    rewrite spanDigits_app by first [assumption | reflexivity].
    rewrite N1. cbn [String.append JS.stripChar]. rewrite Ascii.eqb_refl.
    rewrite spanDigits_app by first [assumption | reflexivity].
    rewrite N2. cbn [String.append JS.stripChar]. rewrite Ascii.eqb_refl.
    rewrite spanDigits_app by first [assumption | reflexivity].
    rewrite N3.
    destruct Hsuffix as [[-> ->] | (pre & -> & -> & Hpre & Hlt)].
    + reflexivity.
    + cbn [String.append JS.isEmpty JS.stripChar]. rewrite Ascii.eqb_refl.
      apply isEmpty_false in Hpre. rewrite Hpre, Hlt. reflexivity.
Qed.

Lemma split_not_nil (sep : ascii) (s : string) : JS.split sep s <> [].
Proof.
  destruct s as [|c s]; simpl; [discriminate|].
  destruct (Ascii.eqb c sep); [discriminate|].
  destruct (JS.split sep s); discriminate.
Qed.




Lemma tagOfLine_some (line : string) (t : GitTag) :
  GitUtils.tagOfLine line = Some t <->
  exists hash date name rest,
    JS.trim line <> ""
    /\ JS.split JS.tabChar line = hash :: date :: name :: rest
    /\ hash <> "" /\ date <> "" /\ name <> ""
    /\ t = {| tag_name := name;
              tag_hash := hash;
              tag_date := DateOf date;
              isVersionTag :=
                match GitUtils.versionMatch name with
                | Some _ => true
                | None => false
                end;
              version :=
                match GitUtils.versionMatch name with
                | Some (g1, g2, g3, g4) =>
                    Some {| sv_major := JS.parseInt10 g1;
                            sv_minor := JS.parseInt10 g2;
                            sv_patch := JS.parseInt10 g3;
                            sv_prerelease := JS.orElse g4 "none" |}
                | None => None
                end |}.
Proof.
  unfold GitUtils.tagOfLine. split.
  - destruct (JS.isEmpty (JS.trim line)) eqn:B; [discriminate|].
    apply isEmpty_false in B.
    destruct (JS.split JS.tabChar line) as [|hash [|date [|name rest]]];
      cbn [nth_error]; try discriminate.
    destruct (JS.isEmpty hash) eqn:Eh; [discriminate|].
    destruct (JS.isEmpty date) eqn:Ed; [discriminate|].
    destruct (JS.isEmpty name) eqn:En; [discriminate|].
    cbn [orb]. intros H. injection H as <-.
    apply isEmpty_false in Eh, Ed, En.
    exists hash, date, name, rest. repeat split; auto.
  - intros (hash & date & name & rest & B & -> & Eh & Ed & En & ->).
    apply isEmpty_false in B, Eh, Ed, En.
    rewrite B. cbn [nth_error]. rewrite Eh, Ed, En. reflexivity.
Qed.

Lemma tagOfLine_blank (line : string) :
  JS.trim line = "" -> GitUtils.tagOfLine line = None.
Proof.
  intros H. unfold GitUtils.tagOfLine. rewrite H. reflexivity.
Qed.






(* ------------------------------------------------------------------ *)
(** ** Attribution and aggregation *)

Section MapFacts.

Context {V : Type}.

Lemma get_in_keys (k : string) (m : JsMap.t V) :
  JsMap.get k m = None <-> ~ In k (JsMap.keys m).
Proof.
  induction m as [|[k' v] m IH]; simpl.
  - tauto.
  - destruct (String.eqb_spec k' k) as [->|Hne].
    + split; [discriminate | tauto].
    + rewrite IH. tauto.
Qed.

Lemma keys_set (k : string) (v : V) (m : JsMap.t V) :
  JsMap.keys (JsMap.set k v m) =
  if in_dec string_dec k (JsMap.keys m) then JsMap.keys m
  else JsMap.keys m ++ [k].
Proof.
  induction m as [|[k' v'] m IH]; simpl.
  - reflexivity.
  - destruct (String.eqb_spec k' k) as [->|Hne]; simpl.
    + destruct (string_dec k k); [|congruence].
      destruct (in_dec string_dec k (JsMap.keys m)); reflexivity.
    + rewrite IH. destruct (string_dec k' k); [congruence|].
      destruct (in_dec string_dec k (JsMap.keys m)); reflexivity.
Qed.

Lemma keys_set_NoDup (k : string) (v : V) (m : JsMap.t V) :
  NoDup (JsMap.keys m) -> NoDup (JsMap.keys (JsMap.set k v m)).
Proof.
  intros H. rewrite keys_set.
  destruct (in_dec string_dec k (JsMap.keys m)) as [|Hn]; [exact H|].
  apply NoDup_app; [exact H | repeat constructor; intros [] | ].
  intros x Hx [<-|[]]. exact (Hn Hx).
Qed.

Lemma in_keys_set (k k' : string) (v : V) (m : JsMap.t V) :
  In k' (JsMap.keys (JsMap.set k v m)) <-> k' = k \/ In k' (JsMap.keys m).
Proof.
  rewrite keys_set.
  destruct (in_dec string_dec k (JsMap.keys m)) as [Hi|Hn].
  - split; [tauto|]. intros [->|H]; assumption.
  - rewrite in_app_iff. simpl. intuition congruence.
Qed.

(** Every value of [set k v m] is [v] or a value of [m], under its key. *)
Lemma in_set (k : string) (v : V) (m : JsMap.t V) (kv : string * V) :
  In kv (JsMap.set k v m) -> kv = (k, v) \/ In kv m.
Proof.
  induction m as [|[k' v'] m IH]; simpl.
  - intros [<-|[]]; auto.
  - destruct (String.eqb_spec k' k) as [->|Hne]; simpl.
    + intros [<-|H]; auto.
    + intros [<-|H]; auto. destruct (IH H); auto.
Qed.

(** Updating the value under a key that is there at most once touches
    that entry alone. *)
Lemma update_as_map (f : V -> V) (k : string) (m : JsMap.t V) :
  NoDup (JsMap.keys m) ->
  match JsMap.get k m with
  | Some v => JsMap.set k (f v) m
  | None => m
  end
  = map (fun kv => (fst kv, if String.eqb (fst kv) k then f (snd kv)
                            else snd kv)) m.
Proof.
  induction m as [|[k' v'] m IH]; simpl; intros Hnd; [reflexivity|].
  inversion Hnd as [|? ? Hnotin Hnd']; subst.
  destruct (String.eqb_spec k' k) as [->|Hne].
  - simpl. f_equal.
    apply get_in_keys in Hnotin. specialize (IH Hnd').
    rewrite Hnotin in IH. exact IH.
  - specialize (IH Hnd').
    destruct (JsMap.get k m) as [v|] eqn:G.
    + simpl. destruct (String.eqb_spec k' k); [congruence|].
      f_equal. exact IH.
    + f_equal. exact IH.
Qed.

Lemma keys_map_values (g : string * V -> V) (m : JsMap.t V) :
  JsMap.keys (map (fun kv => (fst kv, g kv)) m) = JsMap.keys m.
Proof.
  unfold JsMap.keys. rewrite map_map. reflexivity.
Qed.

End MapFacts.

Section SetFacts.

Lemma has_In (k : string) (s : JsSet.t) :
  JsSet.has k s = true <-> In k s.
Proof.
  induction s as [|k' s IH]; simpl.
  - split; [discriminate | tauto].
  - rewrite orb_true_iff, IH, String.eqb_eq. tauto.
Qed.

Lemma In_add (k k' : string) (s : JsSet.t) :
  In k' (JsSet.add k s) <-> k' = k \/ In k' s.
Proof.
  unfold JsSet.add. destruct (JsSet.has k s) eqn:H.
  - apply has_In in H. split; [tauto|]. intros [->|]; assumption.
  - rewrite in_app_iff. simpl. intuition congruence.
Qed.

Lemma NoDup_add (k : string) (s : JsSet.t) :
  NoDup s -> NoDup (JsSet.add k s).
Proof.
  intros Hnd. unfold JsSet.add. destruct (JsSet.has k s) eqn:H;
    [exact Hnd|].
  apply NoDup_app; [exact Hnd | repeat constructor; intros [] |].
  intros x Hx [<-|[]]. apply has_In in Hx. congruence.
Qed.

End SetFacts.

Section Aggregation.

Variable pkgs : list PackageRef.

Lemma touches_iff (k : string) (c : ConventionalCommit) :
  touches pkgs k c = true <-> Touches pkgs k c.
Proof.
  unfold touches, Touches. rewrite existsb_exists. split.
  - intros (f & Hf & H). apply existsb_exists in H.
    destruct H as (pkg & Hp & H). apply andb_true_iff in H.
    destruct H as [Hin Hn]. apply String.eqb_eq in Hn.
    exists f, pkg. auto.
  - intros (f & pkg & Hf & Hp & Hn & Hin). exists f. split; [exact Hf|].
    apply existsb_exists. exists pkg. split; [exact Hp|].
    rewrite Hin. apply String.eqb_eq in Hn. exact Hn.
Qed.

Lemma add_matching (p : PackageRef -> bool) (l : list PackageRef)
    (s0 : JsSet.t) :
  let s := fold_left
             (fun affected pkg =>
                if p pkg then JsSet.add (name pkg) affected else affected)
             l s0 in
  (NoDup s0 -> NoDup s)
  /\ (forall k, In k s <->
                In k s0
                \/ exists pkg, In pkg l /\ p pkg = true /\ name pkg = k).
Proof.
  revert s0; induction l as [|pkg l IH]; intros s0; simpl.
  - split; [auto|]. intros k. split; [auto|].
    intros [H|(pkg & [] & _)]; exact H.
  - destruct (IH (if p pkg then JsSet.add (name pkg) s0 else s0))
      as [Hnd Hin].
    split.
    + intros H. apply Hnd. destruct (p pkg); [apply NoDup_add|]; exact H.
    + intros k. rewrite Hin. destruct (p pkg) eqn:P.
      * rewrite In_add. split.
        -- intros [[->|H]|(q & Hq & Pq & Nq)]; eauto 6.
        -- intros [H|(q & [<-|Hq] & Pq & Nq)]; eauto 6.
      * split.
        -- intros [H|(q & Hq & Pq & Nq)]; eauto 6.
        -- intros [H|(q & [<-|Hq] & Pq & Nq)]; eauto 6. congruence.
Qed.

Lemma affected_files (files : list string) (s0 : JsSet.t) :
  let s := fold_left
             (fun affected changedFile =>
                fold_left
                  (fun affected pkg =>
                     if GitUtils.isFileInPackage changedFile
                          (relativePath pkg)
                     then JsSet.add (name pkg) affected
                     else affected)
                  pkgs affected)
             files s0 in
  (NoDup s0 -> NoDup s)
  /\ (forall k, In k s <->
                In k s0
                \/ exists f pkg,
                     In f files /\ In pkg pkgs /\ name pkg = k
                     /\ GitUtils.isFileInPackage f (relativePath pkg)
                        = true).
Proof.
  revert s0; induction files as [|f files IH]; intros s0; simpl.
  - split; [auto|]. intros k. split; [auto|].
    intros [H|(f & pkg & [] & _)]; exact H.
  - destruct (add_matching
                (fun pkg => GitUtils.isFileInPackage f (relativePath pkg))
                pkgs s0) as [Hnd0 Hin0].
    match goal with
    | |- context [fold_left _ files ?s1] =>
        destruct (IH s1) as [Hnd Hin]
    end.
    split; [auto|].
    intros k. rewrite Hin, Hin0. split.
    + intros [[H|(pkg & Hp & Pp & Np)]|(g & pkg & Hg & Hp & Np & Pp)];
        eauto 10.
    + intros [H|(g & pkg & [<-|Hg] & Hp & Np & Pp)]; eauto 10.
Qed.

Lemma affectedPackages_NoDup (c : ConventionalCommit) :
  NoDup (GitUtils.affectedPackages pkgs c).
Proof.
  apply (affected_files (changedFiles c) JsSet.empty). constructor.
Qed.

Lemma affectedPackages_In (c : ConventionalCommit) (k : string) :
  In k (GitUtils.affectedPackages pkgs c) <-> Touches pkgs k c.
Proof.
  unfold GitUtils.affectedPackages, Touches.
  rewrite (proj2 (affected_files (changedFiles c) JsSet.empty) k).
  simpl. tauto.
Qed.

Lemma affectedPackages_has (c : ConventionalCommit) (k : string) :
  JsSet.has k (GitUtils.affectedPackages pkgs c) = touches pkgs k c.
Proof.
  apply eq_true_iff_eq.
  rewrite has_In, affectedPackages_In, touches_iff. tauto.
Qed.

End Aggregation.

Section Folding.

Context {V : Type}.

Lemma map_entries_id (m : JsMap.t V) :
  map (fun kv => (fst kv, snd kv)) m = m.
Proof.
  induction m as [|[k v] m IH]; simpl; [|rewrite IH]; reflexivity.
Qed.

(** Updating the values under a duplicate-free list of keys, one key after
    the other, updates every entry whose key is in the list once. *)
Lemma updates_as_map (f : V -> V) (ks : list string) (m : JsMap.t V) :
  NoDup ks -> NoDup (JsMap.keys m) ->
  fold_left
    (fun m k =>
       match JsMap.get k m with
       | Some v => JsMap.set k (f v) m
       | None => m
       end)
    ks m
  = map (fun kv => (fst kv, if JsSet.has (fst kv) ks then f (snd kv)
                            else snd kv)) m.
Proof.
  revert m; induction ks as [|k ks IH]; intros m Hks Hm; simpl.
  - symmetry; apply map_entries_id.
  - inversion Hks as [|? ? Hk Hks']; subst.
    rewrite update_as_map by exact Hm.
    rewrite IH; [|exact Hks'|rewrite keys_map_values; exact Hm].
    rewrite map_map. apply map_ext. intros [k' v]; simpl.
    rewrite (String.eqb_sym k k').
    destruct (String.eqb_spec k' k) as [->|Hne]; simpl; [|reflexivity].
    destruct (JsSet.has k ks) eqn:H; [|reflexivity].
    apply has_In in H. contradiction.
Qed.

End Folding.

Section Records.

Variable pkgs : list PackageRef.

Lemma processCommit_as_map (m : JsMap.t PackageChanges)
    (c : ConventionalCommit) :
  NoDup (JsMap.keys m) ->
  GitUtils.processCommit pkgs m c
  = map (fun kv =>
           (fst kv, if touches pkgs (fst kv) c
                    then GitUtils.recordCommit c (snd kv) else snd kv)) m.
Proof.
  intros Hm. unfold GitUtils.processCommit.
  rewrite updates_as_map
    by first [apply affectedPackages_NoDup | exact Hm].
  apply map_ext. intros kv. rewrite affectedPackages_has. reflexivity.
Qed.

Lemma commits_as_map (cs : list ConventionalCommit)
    (m : JsMap.t PackageChanges) :
  NoDup (JsMap.keys m) ->
  fold_left (GitUtils.processCommit pkgs) cs m
  = map (finalRecord pkgs cs) m.
Proof.
  revert m; induction cs as [|c cs IH]; intros m Hm; simpl.
  - unfold finalRecord; simpl. symmetry; apply map_entries_id.
  - rewrite processCommit_as_map by exact Hm.
    rewrite IH by (rewrite keys_map_values; exact Hm).
    rewrite map_map. apply map_ext. intros kv. reflexivity.
Qed.

(** What the loop leaves in one record. *)
Lemma record_after (k : string) (cs : list ConventionalCommit)
    (pc0 : PackageChanges) :
  let pc := fold_left
              (fun pc c =>
                 if touches pkgs k c then GitUtils.recordCommit c pc
                 else pc)
              cs pc0 in
  packageName pc = packageName pc0
  /\ packagePath pc = packagePath pc0
  /\ affectingCommits pc
     = affectingCommits pc0 ++ filter (touches pkgs k) cs
  /\ suggestedReleaseType pc
     = fold_left (fun acc c => maxRelease acc (releaseType c))
         (filter (touches pkgs k) cs) (suggestedReleaseType pc0).
Proof.
  revert pc0; induction cs as [|c cs IH]; intros pc0; simpl.
  - rewrite app_nil_r. auto.
  - destruct (touches pkgs k c) eqn:T.
    + destruct (IH (GitUtils.recordCommit c pc0)) as (Hn & Hp & Ha & Hs).
      rewrite Hn, Hp, Ha, Hs. simpl. rewrite <- app_assoc. simpl.
      repeat split.
      f_equal.
      destruct (releaseType c), (suggestedReleaseType pc0); reflexivity.
    + apply IH.
Qed.

Lemma initial_from (l : list PackageRef) (m0 : JsMap.t PackageChanges) :
  let m := fold_left
             (fun m pkg =>
                JsMap.set (name pkg)
                  {| packageName := name pkg;
                     packagePath := relativePath pkg;
                     affectingCommits := [];
                     suggestedReleaseType := patch |} m)
             l m0 in
  (NoDup (JsMap.keys m0) -> NoDup (JsMap.keys m))
  /\ ((forall kv, In kv m0 -> ZeroRecord kv) ->
      forall kv, In kv m -> ZeroRecord kv)
  /\ (forall k, In k (JsMap.keys m) <->
                In k (JsMap.keys m0)
                \/ exists pkg, In pkg l /\ name pkg = k).
Proof.
  revert m0; induction l as [|pkg l IH]; intros m0; simpl.
  - split; [auto|split; [auto|]]. intros k; split; [auto|].
    intros [H0|(pkg & [] & _)]; exact H0.
  - match goal with
    | |- context [fold_left _ l ?m1] =>
        destruct (IH m1) as (Hnd & Hz & Hk)
    end.
    split; [|split].
    + intros H. apply Hnd, keys_set_NoDup, H.
    + intros H0. apply Hz. intros kv Hkv.
      apply in_set in Hkv. destruct Hkv as [->|Hkv]; [|auto].
      repeat split.
    + intros k. rewrite Hk, in_keys_set. split.
      * intros [[->|H0]|(q & Hq & Nq)]; eauto 6.
      * intros [H0|(q & [<-|Hq] & Nq)]; eauto 6.
Qed.

Lemma initialChanges_spec :
  NoDup (JsMap.keys (GitUtils.initialChanges pkgs))
  /\ (forall kv, In kv (GitUtils.initialChanges pkgs) -> ZeroRecord kv)
  /\ (forall k, In k (JsMap.keys (GitUtils.initialChanges pkgs)) <->
                exists pkg, In pkg pkgs /\ name pkg = k).
Proof.
  destruct (initial_from pkgs JsMap.empty) as (Hnd & Hz & Hk).
  split; [|split].
  - apply Hnd. constructor.
  - apply Hz. intros kv [].
  - intros k. unfold GitUtils.initialChanges. rewrite Hk. simpl. tauto.
Qed.

(** The result of [analyzePackageChanges], entry by entry. *)
Lemma analyze_In (cs : list ConventionalCommit) (r : PackageChanges) :
  In r (GitUtils.analyzePackageChanges cs pkgs) <->
  exists kv,
    In kv (GitUtils.initialChanges pkgs)
    /\ r = snd (finalRecord pkgs cs kv)
    /\ affectingCommits r <> [].
Proof.
  unfold GitUtils.analyzePackageChanges, JsMap.values.
  rewrite commits_as_map by apply initialChanges_spec.
  rewrite filter_In, in_map_iff. split.
  - intros ((kv' & <- & Hkv') & Hlen).
    apply in_map_iff in Hkv'. destruct Hkv' as (kv & <- & Hkv).
    exists kv. repeat split; auto.
    intros E. rewrite E in Hlen. discriminate.
  - intros (kv & Hkv & -> & Hne). split.
    + exists (finalRecord pkgs cs kv). split; [reflexivity|].
      apply in_map; exact Hkv.
    + destruct (affectingCommits (snd (finalRecord pkgs cs kv)));
        [congruence | reflexivity].
Qed.

Lemma final_record_spec (cs : list ConventionalCommit)
    (kv : string * PackageChanges) :
  In kv (GitUtils.initialChanges pkgs) ->
  let r := snd (finalRecord pkgs cs kv) in
  packageName r = fst kv
  /\ affectingCommits r = filter (touches pkgs (fst kv)) cs
  /\ suggestedReleaseType r = maxImpact (affectingCommits r).
Proof.
  intros Hkv. destruct (proj1 (proj2 initialChanges_spec) kv Hkv)
    as (Zn & Za & Zs).
  destruct (record_after (fst kv) cs (snd kv)) as (Hn & _ & Ha & Hs).
  unfold finalRecord; cbn [snd fst].
  rewrite Hn, Ha, Hs, Zn, Za, Zs. repeat split.
Qed.

End Records.

Section Severity.

Lemma maxRelease_severity (a b : ReleaseType) :
  severity (maxRelease a b) = Nat.max (severity a) (severity b).
Proof. destruct a, b; reflexivity. Qed.

Lemma severity_inj (a b : ReleaseType) : severity a = severity b -> a = b.
Proof. destruct a, b; simpl; congruence. Qed.

Lemma recordCommit_level (c : ConventionalCommit) (pc : PackageChanges) :
  suggestedReleaseType (GitUtils.recordCommit c pc)
  = maxRelease (suggestedReleaseType pc) (releaseType c).
Proof.
  simpl. destruct (releaseType c), (suggestedReleaseType pc); reflexivity.
Qed.

Lemma fold_max_bounds (cs : list ConventionalCommit) (acc : ReleaseType) :
  let m := fold_left (fun acc c => maxRelease acc (releaseType c)) cs acc in
  severity acc <= severity m
  /\ (forall c, In c cs -> severity (releaseType c) <= severity m)
  /\ (m = acc \/ exists c, In c cs /\ releaseType c = m).
Proof.
  revert acc; induction cs as [|c cs IH]; intros acc; simpl.
  - repeat split; auto. intros c [].
  - destruct (IH (maxRelease acc (releaseType c))) as (Hacc & Hall & Hatt).
    rewrite maxRelease_severity in Hacc.
    split; [lia|split].
    + intros d [<-|Hd]; [lia | auto].
    + destruct Hatt as [E|(d & Hd & E)].
      * rewrite E. unfold maxRelease.
        destruct (severity acc <? severity (releaseType c))%nat; eauto.
      * right. eauto.
Qed.

Lemma maxImpact_upper (cs : list ConventionalCommit)
    (c : ConventionalCommit) :
  In c cs -> severity (releaseType c) <= severity (maxImpact cs).
Proof. apply (fold_max_bounds cs patch). Qed.

Lemma maxImpact_attained (cs : list ConventionalCommit) :
  cs <> [] -> exists c, In c cs /\ releaseType c = maxImpact cs.
Proof.
  intros Hne. destruct (fold_max_bounds cs patch) as (_ & Hall & [E|H]).
  - destruct cs as [|c cs]; [congruence|].
    exists c. split; [left; reflexivity|].
    apply severity_inj. specialize (Hall c (or_introl eq_refl)).
    fold (maxImpact (c :: cs)) in E, Hall. rewrite E in *. simpl in *. lia.
  - exact H.
Qed.

End Severity.

Lemma filter_keeps_distinct_images {X Y : Type} (image : X -> Y)
    (keep : X -> bool) :
  forall xs, NoDup (map image xs) -> NoDup (map image (filter keep xs)).
Proof.
  intros xs Hxs. induction xs as [|x xs IH]; simpl; [constructor|].
  apply NoDup_cons_iff in Hxs. destruct Hxs as [Hx Hrest].
  destruct (keep x); simpl; [|exact (IH Hrest)].
  apply NoDup_cons; [|exact (IH Hrest)].
  intros Hin. apply Hx. apply in_map_iff in Hin.
  destruct Hin as (y & Hy & Hf). apply filter_In in Hf.
  apply in_map_iff. exists y. tauto.
Qed.

(** C4.  In every record that [analyzePackageChanges] returns, the
    suggested release type is the maximum, for [patch < minor < major], of
    the release types of the record's affecting commits: it bounds each of
    them and is the level of one of them.  Processing one more commit leaves
    every reported package reported, with a level that is no lower.  No
    record with an empty commit list is returned, and a package is reported
    exactly when some commit touches it. *)
Theorem analyzePackageChanges_max_impact (commits : list ConventionalCommit)
    (pkgs : list PackageRef) :
  (forall r,
      In r (GitUtils.analyzePackageChanges commits pkgs) ->
      suggestedReleaseType r = maxImpact (affectingCommits r)
      /\ (forall c, In c (affectingCommits r) ->
                    severity (releaseType c)
                    <= severity (suggestedReleaseType r))
      /\ (exists c, In c (affectingCommits r)
                    /\ releaseType c = suggestedReleaseType r))
  /\ (forall c r,
        In r (GitUtils.analyzePackageChanges commits pkgs) ->
        exists r',
          In r' (GitUtils.analyzePackageChanges (commits ++ [c]) pkgs)
          /\ packageName r' = packageName r
          /\ (r' = r \/ r' = GitUtils.recordCommit c r)
          /\ severity (suggestedReleaseType r)
             <= severity (suggestedReleaseType r'))
  /\ (forall r,
        In r (GitUtils.analyzePackageChanges commits pkgs) ->
        affectingCommits r <> [])
  /\ (forall k,
        (exists r, In r (GitUtils.analyzePackageChanges commits pkgs)
                   /\ packageName r = k)
        <-> (exists pkg, In pkg pkgs /\ name pkg = k)
            /\ (exists c, In c commits /\ Touches pkgs k c)).
Proof.
  split; [|split; [|split]].
  - intros r Hr. apply analyze_In in Hr.
    destruct Hr as (kv & Hkv & -> & Hne).
    destruct (@final_record_spec pkgs commits kv Hkv) as (_ & _ & Hs).
    split; [exact Hs|]. rewrite Hs. split.
    + intros c Hc. apply maxImpact_upper; exact Hc.
    + apply maxImpact_attained; exact Hne.
  - intros c r Hr. apply analyze_In in Hr.
    destruct Hr as (kv & Hkv & -> & Hne).
    exists (snd (finalRecord pkgs (commits ++ [c]) kv)).
    assert (Hstep : snd (finalRecord pkgs (commits ++ [c]) kv)
                  = if touches pkgs (fst kv) c
                    then GitUtils.recordCommit c
                           (snd (finalRecord pkgs commits kv))
                    else snd (finalRecord pkgs commits kv)).
    { unfold finalRecord; cbn [snd fst]. rewrite fold_left_app. reflexivity. }
    split; [|split; [|split]].
    + apply analyze_In. exists kv. repeat split; auto.
      rewrite Hstep. destruct (touches pkgs (fst kv) c); [|exact Hne].
      simpl. intros E. apply app_eq_nil in E. destruct E; discriminate.
    + rewrite Hstep. destruct (touches pkgs (fst kv) c); reflexivity.
    + rewrite Hstep. destruct (touches pkgs (fst kv) c); auto.
    + rewrite Hstep. destruct (touches pkgs (fst kv) c); [|lia].
      rewrite recordCommit_level, maxRelease_severity. lia.
  - intros r Hr. apply analyze_In in Hr.
    destruct Hr as (kv & _ & _ & Hne). exact Hne.
  - intros k. split.
    + intros (r & Hr & Hk). apply analyze_In in Hr.
      destruct Hr as (kv & Hkv & -> & Hne).
      destruct (@final_record_spec pkgs commits kv Hkv) as (Hn & Ha & _).
      rewrite Hn in Hk. subst k. split.
      * apply (proj2 (proj2 (initialChanges_spec pkgs))).
        apply in_map; exact Hkv.
      * rewrite Ha in Hne.
        destruct (filter (touches pkgs (fst kv)) commits) as [|c l] eqn:F;
          [congruence|].
        assert (Hc : In c (filter (touches pkgs (fst kv)) commits))
          by (rewrite F; left; reflexivity).
        apply filter_In in Hc. destruct Hc as [Hc Ht].
        exists c. split; [exact Hc|]. apply touches_iff; exact Ht.
    + intros (Hpkg & c & Hc & Ht).
      apply (proj2 (proj2 (initialChanges_spec pkgs))) in Hpkg.
      apply in_map_iff in Hpkg. destruct Hpkg as (kv & <- & Hkv).
      destruct (@final_record_spec pkgs commits kv Hkv) as (Hn & Ha & _).
      exists (snd (finalRecord pkgs commits kv)). split; [|exact Hn].
      apply analyze_In. exists kv. repeat split; auto.
      rewrite Ha. intros E.
      assert (Hin : In c (filter (touches pkgs (fst kv)) commits)).
      { apply filter_In. split; [exact Hc|]. apply touches_iff; exact Ht. }
      rewrite E in Hin. exact Hin.
Qed.

(** C9.  The set of package names that a commit affects has no duplicates,
    and holds exactly the names of the packages that one of its changed files
    lies in.  The affecting commits of a returned record are the input
    commits that touch the package, each as often as it occurs in the
    input and in the input's order: a commit with several files in one
    package is appended once. *)
Theorem analyzePackageChanges_attributes_once
    (commits : list ConventionalCommit) (pkgs : list PackageRef) :
  (forall c, NoDup (GitUtils.affectedPackages pkgs c))
  /\ (forall c k, In k (GitUtils.affectedPackages pkgs c) <-> Touches pkgs k c)
  /\ (forall r,
        In r (GitUtils.analyzePackageChanges commits pkgs) ->
        affectingCommits r = filter (touches pkgs (packageName r)) commits)
  /\ (forall r,
        In r (GitUtils.analyzePackageChanges commits pkgs) ->
        NoDup commits -> NoDup (affectingCommits r))
  /\ NoDup (map packageName (GitUtils.analyzePackageChanges commits pkgs))
  /\ (forall level,
        let c := commitTouching level
                   ["packages/a/index.ts"; "packages/a/src/x.ts";
                    "packages/b/test.ts"] in
        GitUtils.affectedPackages [pkgA; pkgB] c = ["a"; "b"]
        /\ map affectingCommits
             (GitUtils.analyzePackageChanges [c] [pkgA; pkgB])
           = [[c]; [c]]).
Proof.
  split; [|split; [|split; [|split; [|split]]]].
  - intros c. apply affectedPackages_NoDup.
  - intros c k. apply affectedPackages_In.
  - intros r Hr. apply analyze_In in Hr.
    destruct Hr as (kv & Hkv & -> & _).
    destruct (@final_record_spec pkgs commits kv Hkv) as (Hn & Ha & _).
    rewrite Hn. exact Ha.
  - intros r Hr Hnd. apply analyze_In in Hr.
    destruct Hr as (kv & Hkv & -> & _).
    destruct (@final_record_spec pkgs commits kv Hkv) as (_ & Ha & _).
    rewrite Ha. apply NoDup_filter; exact Hnd.
  - unfold GitUtils.analyzePackageChanges, JsMap.values.
    rewrite commits_as_map by apply initialChanges_spec.
    apply filter_keeps_distinct_images.
    rewrite !map_map.
    rewrite (map_ext_in _ fst).
    + apply (initialChanges_spec pkgs).
    + intros kv Hkv. apply (@final_record_spec pkgs commits kv Hkv).
  - intros level. destruct level; vm_compute; split; reflexivity.
Qed.

(* ------------------------------------------------------------------ *)
(** ** Commit ranges *)

Lemma collectBlocks_from (lines acc : list string) :
  Forall (fun b => b = "") acc ->
  Forall (fun b => b = "")
    (fold_left
       (fun commitsResult result =>
          if JS.isEmpty (JS.trim result)
          then commitsResult ++ [JS.trim result]
          else commitsResult)
       lines acc).
Proof.
  revert acc; induction lines as [|l lines IH]; intros acc H; simpl.
  - exact H.
  - apply IH. destruct (JS.isEmpty (JS.trim l)) eqn:E; [|exact H].
    apply Forall_app. split; [exact H|].
    constructor; [|constructor]. apply isEmpty_true; exact E.
Qed.

Lemma collectBlocks_empty_strings (lines : list string) :
  Forall (fun b => b = "") (GitUtils.collectBlocks lines).
Proof. apply collectBlocks_from. constructor. Qed.

Lemma forEach_empty_blocks (env : GitEnv) (blocks : list string)
    (commits : list ConventionalCommit) :
  Forall (fun b => b = "") blocks ->
  EffM.forEach blocks
    (fun commits block =>
       EffM.bind (GitUtils.commitOfBlock env block)
         (fun c => match c with
                   | Some c => EffM.ret (commits ++ [c])
                   | None => EffM.ret commits
                   end))
    commits
  = (Returned commits, []).
Proof.
  induction 1 as [|b blocks -> _ IH]; simpl; [reflexivity|].
  rewrite IH. reflexivity.
Qed.

(** Whatever the log holds, a call that returns returns no record. *)
Lemma getCommitsInRange_returns_nothing (env : GitEnv)
    (fromRef toRef : option string) (commits : list ConventionalCommit) :
  value (GitUtils.getCommitsInRange env fromRef toRef) = Returned commits ->
  commits = [].
Proof.
  unfold GitUtils.getCommitsInRange, value, EffM.tryCatch, EffM.bind.
  destruct (GitUtils.resolveStartRef env fromRef) as [[startRef|e] w];
    [|simpl; discriminate].
  unfold EffM.await.
  destruct (gitLogLines env _) as [lines|e]; [|simpl; discriminate].
  destruct (length (GitUtils.collectBlocks lines) =? 0)%nat.
  - simpl. congruence.
  - pose proof (@forEach_empty_blocks env _ []
                  (collectBlocks_empty_strings lines)) as F.
    unfold EffM.bind in F. rewrite F. simpl. congruence.
Qed.

(** C2, at a failing input.  The log of [taggedRepo] for [v1.0.0..HEAD]
    holds one entry with seven pipe-separated fields, from which the loop
    body would assemble [expectedCommit]; but the first loop keeps blank lines
    only, so the entry never reaches the loop body and the call returns
    no record.  The same holds of every repository: a call that returns
    returns the empty list. *)
Theorem getCommitsInRange_drops_well_formed_entry :
  length (JS.split JS.pipeChar wellFormedLogLine) = 7
  /\ gitLogLines taggedRepo "v1.0.0..HEAD" = Returned [wellFormedLogLine]
  /\ GitUtils.commitOfBlock taggedRepo wellFormedLogLine
     = (Returned (Some expectedCommit), [])
  /\ GitUtils.collectBlocks [wellFormedLogLine] = []
  /\ GitUtils.getCommitsInRange taggedRepo None None = (Returned [], [])
  /\ GitUtils.getCommitsInRange taggedRepo (Some "v1.0.0") (Some "HEAD")
     = (Returned [], [])
  /\ (forall env fromRef toRef commits,
        value (GitUtils.getCommitsInRange env fromRef toRef)
        = Returned commits ->
        commits = []).
Proof.
  repeat split; try (vm_compute; reflexivity).
  intros env fromRef toRef commits H.
  exact (getCommitsInRange_returns_nothing env fromRef toRef H).
Qed.

Lemma rangeSpecOf_exclusive (startRef toRef : string) :
  startRef <> toRef ->
  GitUtils.rangeSpecOf startRef toRef = startRef +++ ".." +++ toRef.
Proof.
  intros H. unfold GitUtils.rangeSpecOf.
  destruct (String.eqb_spec startRef toRef); [contradiction | reflexivity].
Qed.

(** C3, at a failing input.  In [rootOnlyRepo], which has no tag and whose
    only commit is the root commit, the start of the range is the root
    commit's hash, which is not the text ["HEAD"]; the range handed to the log
    is [9fceb02d0a..HEAD], which leaves the root commit out, and the call
    returns no record.  In general the range is the two-dot form whenever
    the start and the end are different texts. *)
Theorem getCommitsInRange_root_commit_excluded :
  GitUtils.getLatestVersionTag rootOnlyRepo = (Returned None, [])
  /\ GitUtils.resolveStartRef rootOnlyRepo None = (Returned "9fceb02d0a", [])
  /\ GitUtils.rangeSpecOf "9fceb02d0a" "HEAD" = "9fceb02d0a..HEAD"
  /\ gitLogLines rootOnlyRepo "9fceb02d0a..HEAD" = Returned []
  /\ GitUtils.getCommitsInRange rootOnlyRepo None None = (Returned [], [])
  /\ (forall startRef toRef,
        startRef <> toRef ->
        GitUtils.rangeSpecOf startRef toRef = startRef +++ ".." +++ toRef).
Proof.
  repeat split; try (vm_compute; reflexivity).
  intros startRef toRef H. exact (rangeSpecOf_exclusive H).
Qed.

Lemma getAllTags_thrown (env : GitEnv) (error : string) :
  gitTagLines env = Thrown error ->
  GitUtils.getAllTags env = (Returned [], [tagWarning error]).
Proof.
  intros H. unfold GitUtils.getAllTags, EffM.tryCatch, EffM.bind, EffM.await.
  rewrite H. reflexivity.
Qed.

(** C10.  When the tag listing fails, [getAllTags] returns the empty list
    and warns once, [getLatestVersionTag] returns [null], and
    [getCommitsInRange] without a [fromRef] completes as it does in the same
    repository with an empty tag listing, after that one warning. *)
Theorem getAllTags_failure_is_no_tags (env : GitEnv) (error : string) :
  gitTagLines env = Thrown error ->
  GitUtils.getAllTags env = (Returned [], [tagWarning error])
  /\ GitUtils.getLatestVersionTag env = (Returned None, [tagWarning error])
  /\ (forall toRef,
        value (GitUtils.getCommitsInRange env None toRef)
        = value (GitUtils.getCommitsInRange
                   (withTagLines env (Returned [])) None toRef)
        /\ warnings (GitUtils.getCommitsInRange env None toRef)
           = tagWarning error
             :: warnings (GitUtils.getCommitsInRange
                            (withTagLines env (Returned [])) None toRef)).
Proof.
  intros H. pose proof (getAllTags_thrown env H) as Htags.
  split; [exact Htags|].
  assert (Hlatest : GitUtils.getLatestVersionTag env
                    = (Returned None, [tagWarning error])).
  { unfold GitUtils.getLatestVersionTag. rewrite Htags. reflexivity. }
  split; [exact Hlatest|].
  intros toRef.
  unfold GitUtils.getCommitsInRange, GitUtils.resolveStartRef.
  rewrite Hlatest.
  unfold GitUtils.getLatestVersionTag, GitUtils.getAllTags.
  cbn [withTagLines gitTagLines gitRootCommit gitLogLines].
  unfold value, warnings, EffM.tryCatch, EffM.bind, EffM.await, EffM.ret.
  cbn [fold_left find app].
  destruct (gitRootCommit env) as [root|e]; [|split; reflexivity].
  destruct (gitLogLines env _) as [lines|e]; [|split; reflexivity].
  destruct (length (GitUtils.collectBlocks lines) =? 0)%nat;
    [split; reflexivity|].
  change (GitUtils.commitOfBlock (withTagLines env (Returned [])))
    with (GitUtils.commitOfBlock env).
  destruct (EffM.forEach _ _ _) as [[commits|e] w]; split; reflexivity.
Qed.

Lemma getAllTags_failure_is_no_tags_witness :
  GitUtils.getAllTags brokenTagsRepo
  = (Returned [], [tagWarning "fatal: not a git repository"])
  /\ GitUtils.getLatestVersionTag brokenTagsRepo
     = (Returned None, [tagWarning "fatal: not a git repository"])
  /\ (forall toRef,
        value (GitUtils.getCommitsInRange brokenTagsRepo None toRef)
        = value (GitUtils.getCommitsInRange
                   (withTagLines brokenTagsRepo (Returned [])) None toRef)
        /\ warnings (GitUtils.getCommitsInRange brokenTagsRepo None toRef)
           = tagWarning "fatal: not a git repository"
             :: warnings (GitUtils.getCommitsInRange
                            (withTagLines brokenTagsRepo (Returned []))
                            None toRef)).
Proof.
  apply (@getAllTags_failure_is_no_tags brokenTagsRepo
           "fatal: not a git repository").
  reflexivity.
Defined.

(* ------------------------------------------------------------------ *)
(** ** Workspace discovery *)

Section Rules.

Context {A B : Type}.

Lemma ensures_weaken (m : Method A) st (Q Q' : Completion A -> _ -> Prop) :
  ensures m st Q -> (forall r st', Q r st' -> Q' r st') -> ensures m st Q'.
Proof. unfold ensures; auto. Qed.

Lemma ensures_ret (a : A) st (Q : Completion A -> _ -> Prop) :
  Q (Returned a) st -> ensures (MethodM.ret a) st Q.
Proof. exact (fun H => H). Qed.

Lemma ensures_throw (e : string) st (Q : Completion A -> _ -> Prop) :
  Q (Thrown e) st -> ensures (MethodM.throw e) st Q.
Proof. exact (fun H => H). Qed.

Lemma ensures_await (c : Completion A) st (Q : Completion A -> _ -> Prop) :
  Q c st -> ensures (MethodM.await c) st Q.
Proof. exact (fun H => H). Qed.

Lemma ensures_bind (m : Method A) (f : A -> Method B) st
    (Q : Completion B -> _ -> Prop) :
  ensures m st
    (fun r st' =>
       match r with
       | Returned a => ensures (f a) st' Q
       | Thrown e => Q (Thrown e) st'
       end) ->
  ensures (MethodM.bind m f) st Q.
Proof.
  unfold ensures, MethodM.bind.
  destruct (m st) as [[[a|e] st'] out]; simpl; [|auto].
  destruct (f a st') as [[r st''] out']; auto.
Qed.

Lemma ensures_tryCatch (m : Method A) (h : string -> Method A) st
    (Q : Completion A -> _ -> Prop) :
  ensures m st
    (fun r st' =>
       match r with
       | Returned a => Q (Returned a) st'
       | Thrown e => ensures (h e) st' Q
       end) ->
  ensures (MethodM.tryCatch m h) st Q.
Proof.
  unfold ensures, MethodM.tryCatch.
  destruct (m st) as [[[a|e] st'] out]; simpl; [auto|].
  destruct (h e st') as [[r st''] out']; auto.
Qed.

End Rules.

Lemma ensures_this st (Q : Completion WorkspaceUtilsState -> _ -> Prop) :
  Q (Returned st) st -> ensures MethodM.this st Q.
Proof. exact (fun H => H). Qed.

Lemma ensures_assign f st (Q : Completion unit -> _ -> Prop) :
  Q (Returned tt) (f st) -> ensures (MethodM.assign f) st Q.
Proof. exact (fun H => H). Qed.

Lemma ensures_print line st (Q : Completion unit -> _ -> Prop) :
  Q (Returned tt) st -> ensures (MethodM.print line) st Q.
Proof. exact (fun H => H). Qed.

(** A loop whose body keeps [I] and never throws keeps [I] and does not
    throw. *)
Lemma ensures_forEach {A} (I : WorkspaceUtilsState -> Prop) (xs : list A)
    (body : A -> Method unit) st :
  I st ->
  (forall x st, I st ->
     ensures (body x) st (fun r st' => r = Returned tt /\ I st')) ->
  ensures (MethodM.forEach xs body) st (fun r st' => r = Returned tt /\ I st').
Proof.
  intros Hst Hbody. revert st Hst.
  induction xs as [|x xs IH]; intros st Hst; simpl.
  - apply ensures_ret. auto.
  - apply ensures_bind. eapply ensures_weaken; [apply Hbody, Hst|].
    intros r st' [-> Hst']. apply IH, Hst'.
Qed.

Section Caches.

Variable env : FsEnv.

Lemma Consistent_constructor : Consistent env (WorkspaceUtils.constructor env).
Proof. repeat split; simpl; intros; discriminate. Qed.

Lemma Consistent_setRootPackageJson st v :
  Consistent env st ->
  (forall pj, v = Some pj -> RootManifestIs env pj) ->
  Consistent env
    {| rootPath := rootPath st;
       rootPackageJson := v;
       workspaceMembers := workspaceMembers st;
       isMonorepo := isMonorepo st |}.
Proof. intros (H1 & H2 & H3) Hv. repeat split; simpl; auto. Qed.

Lemma Consistent_setIsMonorepo st b :
  Consistent env st ->
  (b = true -> DeclaresPatterns env) ->
  Consistent env
    {| rootPath := rootPath st;
       rootPackageJson := rootPackageJson st;
       workspaceMembers := workspaceMembers st;
       isMonorepo := Some b |}.
Proof.
  intros (H1 & H2 & H3) Hb. repeat split; simpl; auto.
  intros E. apply Hb. congruence.
Qed.

Lemma Consistent_setWorkspaceMembers st ms :
  Consistent env st ->
  ms = [] \/ DeclaresPatterns env ->
  Consistent env
    {| rootPath := rootPath st;
       rootPackageJson := rootPackageJson st;
       workspaceMembers := Some ms;
       isMonorepo := isMonorepo st |}.
Proof.
  intros (H1 & H2 & H3) Hms. repeat split; simpl; auto.
  intros ms' E. injection E as <-. exact Hms.
Qed.

Lemma isNonEmptyArray_true (w : Workspaces) :
  WorkspaceUtils.isNonEmptyArray w = true ->
  exists patterns, w = WsArray patterns /\ patterns <> [].
Proof.
  destruct w as [|patterns|packages]; simpl; try discriminate.
  intros H. exists patterns. split; [reflexivity|].
  intros ->. discriminate.
Qed.

Lemma getRootPackageJson_spec st :
  Consistent env st ->
  ensures (WorkspaceUtils.getRootPackageJson env) st
    (fun r st' =>
       Consistent env st'
       /\ isMonorepo st' = isMonorepo st
       /\ workspaceMembers st' = workspaceMembers st
       /\ (forall pj, r = Returned (JManifest pj) -> RootManifestIs env pj)).
Proof.
  intros Hst. unfold WorkspaceUtils.getRootPackageJson.
  apply ensures_bind, ensures_this.
  destruct (rootPackageJson st) as [pj|] eqn:Hroot.
  - apply ensures_ret. split; [exact Hst|]. do 2 (split; [reflexivity|]).
    intros pj' E. injection E as <-. apply Hst, Hroot.
  - apply ensures_bind, ensures_await.
    destruct (gitTopLevel env) as [topLevel|e] eqn:Htop.
    2:{ split; [exact Hst|]. do 2 (split; [reflexivity|]). discriminate. }
    apply ensures_bind.
    apply (@ensures_weaken _ _ _
             (fun r st' => r = Returned tt /\ st' = st)).
    { destruct (fileExists env _); unfold ensures; simpl; auto. }
    intros r st' [-> ->].
    apply ensures_tryCatch, ensures_bind, ensures_await.
    destruct (fileJson env _) as [json|e] eqn:Hjson.
    + apply ensures_bind, ensures_assign, ensures_ret.
      split; [|do 2 (split; [reflexivity|])].
      * apply Consistent_setRootPackageJson; [exact Hst|].
        intros pj E. destruct json as [|pj']; [discriminate|].
        injection E as <-. exists topLevel. auto.
      * intros pj E. injection E as ->. exists topLevel. auto.
    + apply ensures_throw.
      split; [exact Hst|]. do 2 (split; [reflexivity|]). discriminate.
Qed.

Lemma getIsMonorepo_spec st :
  Consistent env st ->
  ensures (WorkspaceUtils.getIsMonorepo env) st
    (fun r st' =>
       Consistent env st'
       /\ workspaceMembers st' = workspaceMembers st
       /\ exists b, r = Returned b /\ (b = true -> DeclaresPatterns env)).
Proof.
  intros Hst. unfold WorkspaceUtils.getIsMonorepo.
  apply ensures_bind, ensures_this.
  destruct (isMonorepo st) as [b|] eqn:Hmono.
  - apply ensures_ret. split; [exact Hst|]. split; [reflexivity|].
    exists b. split; [reflexivity|]. intros ->. apply Hst, Hmono.
  - assert (Hcatch : forall st',
               Consistent env st' ->
               workspaceMembers st' = workspaceMembers st ->
               ensures
                 (MethodM.bind (WorkspaceUtils.setIsMonorepo false)
                    (fun _ => MethodM.ret false)) st'
                 (fun r st'' =>
                    Consistent env st''
                    /\ workspaceMembers st'' = workspaceMembers st
                    /\ exists b, r = Returned b
                                 /\ (b = true -> DeclaresPatterns env))).
    { intros st' Hc Hw. apply ensures_bind, ensures_assign, ensures_ret.
      split; [|split; [exact Hw|]].
      - apply Consistent_setIsMonorepo; [exact Hc | discriminate].
      - exists false. split; [reflexivity | discriminate]. }
    apply ensures_tryCatch, ensures_bind.
    eapply ensures_weaken; [apply getRootPackageJson_spec, Hst|].
    intros r st' (Hc & _ & Hw & Hr).
    destruct r as [[|pj]|e].
    + apply ensures_throw. apply Hcatch; assumption.
    + assert (Hb : WorkspaceUtils.isNonEmptyArray (pj_workspaces pj) = true
                   -> DeclaresPatterns env).
      { intros Hb. apply isNonEmptyArray_true in Hb.
        destruct Hb as (patterns & Hw' & Hne).
        exists pj, patterns. auto. }
      apply ensures_bind, ensures_assign, ensures_ret.
      split; [|split; [exact Hw|]].
      * apply Consistent_setIsMonorepo; assumption.
      * eexists. split; [reflexivity | exact Hb].
    + apply Hcatch; assumption.
Qed.

Lemma visitPath_spec relativePath st :
  DeclaresPatterns env -> Consistent env st ->
  ensures (WorkspaceUtils.visitPath env relativePath) st
    (fun r st' => r = Returned tt /\ Consistent env st').
Proof.
  intros D Hst. unfold WorkspaceUtils.visitPath.
  apply ensures_bind, ensures_this.
  destruct (fileExists env _); cbn [negb]; [|apply ensures_ret; auto].
  apply ensures_tryCatch, ensures_bind, ensures_await.
  destruct (fileJson env _) as [[|pj]|e].
  - apply ensures_throw, ensures_print. auto.
  - apply ensures_bind, ensures_this, ensures_assign.
    split; [reflexivity|].
    apply Consistent_setWorkspaceMembers; auto.
  - apply ensures_print. auto.
Qed.

Lemma visitPattern_spec pattern st :
  DeclaresPatterns env -> Consistent env st ->
  ensures (WorkspaceUtils.visitPattern env pattern) st
    (fun r st' => r = Returned tt /\ Consistent env st').
Proof.
  intros D Hst. unfold WorkspaceUtils.visitPattern.
  apply ensures_tryCatch, ensures_bind, ensures_this.
  apply ensures_bind, ensures_await.
  destruct (glob env pattern (rootPath st)) as [paths|e].
  - eapply ensures_weaken.
    + apply (@ensures_forEach _ (Consistent env)); [exact Hst|].
      intros x st0 H0. apply visitPath_spec; assumption.
    + intros r st' [-> H']. auto.
  - apply ensures_print. auto.
Qed.

Lemma getWorkspacePackages_spec st :
  Consistent env st ->
  ensures (WorkspaceUtils.getWorkspacePackages env) st
    (fun r st' =>
       Consistent env st'
       /\ (~ DeclaresPatterns env -> r = Returned [])).
Proof.
  intros Hst. unfold WorkspaceUtils.getWorkspacePackages.
  apply ensures_bind, ensures_this.
  destruct (workspaceMembers st) as [ms|] eqn:Hms.
  - apply ensures_ret. split; [exact Hst|].
    intros ND. destruct Hst as (_ & _ & H3).
    destruct (H3 ms Hms) as [-> | D]; [reflexivity | contradiction].
  - apply ensures_bind.
    eapply ensures_weaken; [apply getIsMonorepo_spec, Hst|].
    intros r st1 (H1 & _ & b & -> & Hb).
    destruct b; cbn [negb].
    + specialize (Hb eq_refl).
      apply ensures_bind.
      eapply ensures_weaken; [apply getRootPackageJson_spec, H1|].
      intros r st2 (H2 & _ & _ & _).
      assert (Hrest : forall workspacePatterns,
                 ensures
                   (MethodM.bind (WorkspaceUtils.setWorkspaceMembers [])
                      (fun _ =>
                         match workspacePatterns with
                         | None => MethodM.throw WorkspaceUtils.typeError
                         | Some patterns =>
                             MethodM.bind
                               (MethodM.forEach patterns
                                  (WorkspaceUtils.visitPattern env))
                               (fun _ =>
                                  MethodM.bind MethodM.this
                                    (fun st =>
                                       MethodM.bind
                                         (WorkspaceUtils.setWorkspaceMembers
                                            (WorkspaceUtils.sortByName env
                                               (WorkspaceUtils.membersOf st)))
                                         (fun _ =>
                                            MethodM.bind MethodM.this
                                              (fun st =>
                                                 MethodM.ret
                                                   (WorkspaceUtils.membersOf
                                                      st)))))
                         end)) st2
                   (fun r st' =>
                      Consistent env st'
                      /\ (~ DeclaresPatterns env -> r = Returned []))).
      { intros workspacePatterns.
        apply ensures_bind, ensures_assign.
        assert (H3 : Consistent env
                       {| rootPath := rootPath st2;
                          rootPackageJson := rootPackageJson st2;
                          workspaceMembers := Some [];
                          isMonorepo := isMonorepo st2 |})
          by (apply Consistent_setWorkspaceMembers; auto).
        destruct workspacePatterns as [patterns|].
        - apply ensures_bind. eapply ensures_weaken.
          + apply (@ensures_forEach _ (Consistent env)); [exact H3|].
            intros x st0 H0. apply visitPattern_spec; assumption.
          + intros r' st3 [-> H4].
            apply ensures_bind, ensures_this, ensures_bind, ensures_assign.
            apply ensures_bind, ensures_this, ensures_ret.
            split; [|contradiction].
            apply Consistent_setWorkspaceMembers; auto.
        - apply ensures_throw. split; [exact H3 | contradiction]. }
      destruct r as [[|pj]|e].
      * apply ensures_bind, ensures_throw. split; [exact H2|contradiction].
      * apply ensures_bind.
        destruct (pj_workspaces pj) as [|patterns|packages];
          apply ensures_ret;
          [ exact (Hrest None)
          | exact (Hrest (Some patterns))
          | exact (Hrest packages) ].
      * split; [exact H2 | contradiction].
    + apply ensures_bind, ensures_assign, ensures_ret.
      split; [|reflexivity].
      apply Consistent_setWorkspaceMembers; auto.
Qed.

End Caches.

Section Lookups.

Variable env : FsEnv.

Lemma findPackageByName_spec name st :
  Consistent env st ->
  ensures (WorkspaceUtils.findPackageByName env name) st
    (fun r st' =>
       Consistent env st'
       /\ (~ DeclaresPatterns env -> r = Returned None)).
Proof.
  intros Hst. unfold WorkspaceUtils.findPackageByName.
  apply ensures_bind.
  eapply ensures_weaken; [apply getWorkspacePackages_spec, Hst|].
  intros r st' [Hc Hr]. destruct r as [packages|e].
  - apply ensures_ret. split; [exact Hc|].
    intros ND. specialize (Hr ND). injection Hr as ->. reflexivity.
  - split; [exact Hc|]. intros ND. specialize (Hr ND). discriminate.
Qed.

Lemma findPackageByPath_spec relativePath st :
  Consistent env st ->
  ensures (WorkspaceUtils.findPackageByPath env relativePath) st
    (fun r st' =>
       Consistent env st'
       /\ (~ DeclaresPatterns env -> r = Returned None)).
Proof.
  intros Hst. unfold WorkspaceUtils.findPackageByPath.
  apply ensures_bind.
  eapply ensures_weaken; [apply getWorkspacePackages_spec, Hst|].
  intros r st' [Hc Hr]. destruct r as [packages|e].
  - apply ensures_ret. split; [exact Hc|].
    intros ND. specialize (Hr ND). injection Hr as ->. reflexivity.
  - split; [exact Hc|]. intros ND. specialize (Hr ND). discriminate.
Qed.

Lemma Reachable_Consistent st : Reachable env st -> Consistent env st.
Proof.
  induction 1 as [|st _ IH|st _ IH|st _ IH|st name _ IH|st path _ IH].
  - apply Consistent_constructor.
  - apply (getIsMonorepo_spec IH).
  - apply (getRootPackageJson_spec IH).
  - apply (getWorkspacePackages_spec IH).
  - apply (findPackageByName_spec name IH).
  - apply (findPackageByPath_spec path IH).
Qed.

End Lookups.

Lemma singlePackageRepo_declares_nothing : ~ DeclaresPatterns singlePackageRepo.
Proof.
  intros (pj & patterns & (topLevel & Htop & Hjson) & Hw & _).
  simpl in Hjson. injection Hjson as <-. discriminate.
Qed.

(** C8.  In every state an instance can reach, when the root manifest
    cannot be read or declares no non-empty array of workspace patterns,
    [getWorkspacePackages] returns the empty list, and [findPackageByName]
    and [findPackageByPath] return [null] for every argument. *)
Theorem getWorkspacePackages_single_package (env : FsEnv)
    (st : WorkspaceUtilsState) :
  Reachable env st ->
  ~ DeclaresPatterns env ->
  fst (fst (WorkspaceUtils.getWorkspacePackages env st)) = Returned []
  /\ (forall name,
        fst (fst (WorkspaceUtils.findPackageByName env name st))
        = Returned None)
  /\ (forall relativePath,
        fst (fst (WorkspaceUtils.findPackageByPath env relativePath st))
        = Returned None).
Proof.
  intros Hr ND. apply Reachable_Consistent in Hr.
  split; [|split].
  - apply (getWorkspacePackages_spec Hr), ND.
  - intros name. apply (findPackageByName_spec name Hr), ND.
  - intros path. apply (findPackageByPath_spec path Hr), ND.
Qed.

Lemma getWorkspacePackages_single_package_witness :
  fst (fst (WorkspaceUtils.getWorkspacePackages singlePackageRepo
              (WorkspaceUtils.constructor singlePackageRepo)))
  = Returned []
  /\ (forall name,
        fst (fst (WorkspaceUtils.findPackageByName singlePackageRepo name
                    (WorkspaceUtils.constructor singlePackageRepo)))
        = Returned None)
  /\ (forall relativePath,
        fst (fst (WorkspaceUtils.findPackageByPath singlePackageRepo
                    relativePath
                    (WorkspaceUtils.constructor singlePackageRepo)))
        = Returned None).
Proof.
  apply (@getWorkspacePackages_single_package singlePackageRepo
           (WorkspaceUtils.constructor singlePackageRepo)).
  - apply reach_constructor.
  - exact singlePackageRepo_declares_nothing.
Defined.

(* ------------------------------------------------------------------ *)
(** * Further properties of the code *)

Section TrimFacts.

Lemma trimEnd_empty_iff (s : string) :
  JS.trimEnd s = "" <-> allWhitespace s = true.
Proof.
  induction s as [|c s IH]; simpl.
  - tauto.
  - destruct (JS.isWhitespace c); simpl.
    + destruct (JS.trimEnd s) eqn:E; simpl.
      * split; [intros _; apply IH; reflexivity | reflexivity].
      * split; [discriminate|]. intros H. apply IH in H. discriminate.
    + split; discriminate.
Qed.

Lemma allWhitespace_trimStart (s : string) :
  allWhitespace (JS.trimStart s) = allWhitespace s.
Proof.
  induction s as [|c s IH]; simpl; [reflexivity|].
  destruct (JS.isWhitespace c) eqn:W; simpl; [exact IH|].
  rewrite W. reflexivity.
Qed.

Lemma trim_empty_iff (s : string) :
  JS.trim s = "" <-> allWhitespace s = true.
Proof.
  unfold JS.trim. rewrite trimEnd_empty_iff, allWhitespace_trimStart. tauto.
Qed.

Lemma trimEnd_idempotent (s : string) :
  JS.trimEnd (JS.trimEnd s) = JS.trimEnd s.
Proof.
  induction s as [|c s IH]; simpl; [reflexivity|].
  destruct (JS.isWhitespace c && JS.isEmpty (JS.trimEnd s)) eqn:E;
    [reflexivity|].
  simpl. rewrite IH, E. reflexivity.
Qed.

Lemma trimStart_clean (s : string) : startsClean (JS.trimStart s) = true.
Proof.
  induction s as [|c s IH]; simpl; [reflexivity|].
  destruct (JS.isWhitespace c) eqn:W; [exact IH|].
  simpl. rewrite W. reflexivity.
Qed.

Lemma trimStart_of_clean (s : string) :
  startsClean s = true -> JS.trimStart s = s.
Proof.
  destruct s as [|c s]; simpl; [reflexivity|].
  destruct (JS.isWhitespace c); [discriminate | reflexivity].
Qed.

Lemma trimEnd_clean (s : string) :
  startsClean s = true -> startsClean (JS.trimEnd s) = true.
Proof.
  destruct s as [|c s]; simpl; [reflexivity|].
  destruct (JS.isWhitespace c) eqn:W; [discriminate|]. simpl.
  rewrite W. reflexivity.
Qed.

Lemma trim_idempotent (s : string) : JS.trim (JS.trim s) = JS.trim s.
Proof.
  unfold JS.trim.
  rewrite (trimStart_of_clean (JS.trimEnd (JS.trimStart s))).
  - apply trimEnd_idempotent.
  - apply trimEnd_clean, trimStart_clean.
Qed.

End TrimFacts.

Section TagsAndFiles.

Variable env : GitEnv.

Lemma getAllTags_returns :
  exists tags w, GitUtils.getAllTags env = (Returned tags, w).
Proof.
  unfold GitUtils.getAllTags, EffM.tryCatch, EffM.bind, EffM.await, EffM.ret.
  destruct (gitTagLines env) as [lines|e]; simpl; eauto.
Qed.

Lemma map_as_pushes {A B : Type} (f : A -> B) (l : list A) (acc : list B) :
  fold_left (fun acc a => acc ++ [f a]) l acc = acc ++ map f l.
Proof.
  revert acc; induction l as [|a l IH]; intros acc; simpl.
  - symmetry; apply app_nil_r.
  - rewrite IH, <- app_assoc. reflexivity.
Qed.

Lemma getChangedFilesForCommit_returned (commitHash : string)
    (lines : list string) :
  gitDiffTreeLines env commitHash = Returned lines ->
  GitUtils.getChangedFilesForCommit env commitHash
  = (Returned (filter (fun f => negb (JS.isEmpty f)) (map JS.trim lines)), []).
Proof.
  intros H.
  unfold GitUtils.getChangedFilesForCommit, EffM.tryCatch, EffM.bind,
    EffM.await, EffM.ret.
  rewrite H, map_as_pushes. simpl. do 2 f_equal.
  apply filter_ext_in. intros f Hf. apply in_map_iff in Hf.
  destruct Hf as (line & <- & _). rewrite trim_idempotent. reflexivity.
Qed.

End TagsAndFiles.

(** X1.  [getLatestVersionTag] never throws and warns exactly as
    [getAllTags] does; it returns the first tag of the listing that is a
    version tag, and [null] exactly when the listing holds none. *)
Theorem getLatestVersionTag_first_version_tag (env : GitEnv) :
  exists tags,
    value (GitUtils.getAllTags env) = Returned tags
    /\ warnings (GitUtils.getLatestVersionTag env)
       = warnings (GitUtils.getAllTags env)
    /\ (forall t,
          value (GitUtils.getLatestVersionTag env) = Returned (Some t)
          <-> FirstVersionTag t tags)
    /\ (value (GitUtils.getLatestVersionTag env) = Returned None
        <-> forall u, In u tags -> isVersionTag u = false).
Proof.
  destruct (getAllTags_returns env) as (tags & w & E).
  exists tags. unfold GitUtils.getLatestVersionTag, value, warnings.
  rewrite E. cbn [EffM.bind EffM.ret fst snd]. rewrite app_nil_r.
  split; [reflexivity|]. split; [reflexivity|]. split.
  - intros t. unfold FirstVersionTag. rewrite <- find_first.
    split; [intros H; injection H; auto | intros ->; reflexivity].
  - rewrite <- find_none_iff.
    split; [intros H; injection H; auto | intros ->; reflexivity].
Qed.

(** X2.  [getChangedFilesForCommit] never throws.  When the diff succeeds
    it returns the trimmed lines that are not blank, in order, so every
    returned path is non-empty and carries no surrounding white space; when
    the diff fails it returns no path and warns once, naming the commit. *)
Theorem getChangedFilesForCommit_trimmed_paths (env : GitEnv)
    (commitHash : string) :
  (forall lines,
      gitDiffTreeLines env commitHash = Returned lines ->
      GitUtils.getChangedFilesForCommit env commitHash
      = (Returned (filter (fun f => negb (JS.isEmpty f)) (map JS.trim lines)),
         []))
  /\ (forall error,
        gitDiffTreeLines env commitHash = Thrown error ->
        GitUtils.getChangedFilesForCommit env commitHash
        = (Returned [],
           ["Warning: Could not get changed files for commit "
            +++ commitHash +++ ": " +++ error]))
  /\ (exists files,
        value (GitUtils.getChangedFilesForCommit env commitHash)
        = Returned files
        /\ forall f, In f files -> f <> "" /\ JS.trim f = f).
Proof.
  split; [|split].
  - intros lines H. apply getChangedFilesForCommit_returned; exact H.
  - intros error H.
    unfold GitUtils.getChangedFilesForCommit, EffM.tryCatch, EffM.bind,
      EffM.await, EffM.ret, EffM.warn.
    rewrite H. reflexivity.
  - destruct (gitDiffTreeLines env commitHash) as [lines|error] eqn:H.
    + rewrite (getChangedFilesForCommit_returned env commitHash H).
      eexists. split; [reflexivity|].
      intros f Hf. apply filter_In in Hf. destruct Hf as [Hf Hne].
      apply in_map_iff in Hf. destruct Hf as (line & <- & _). split.
      * apply isEmpty_false. apply negb_true_iff. exact Hne.
      * apply trim_idempotent.
    + unfold GitUtils.getChangedFilesForCommit, EffM.tryCatch, EffM.bind,
        EffM.await, EffM.ret, EffM.warn.
      rewrite H. exists []. split; [reflexivity|]. intros f [].
Qed.

Lemma getLatestVersionTag_returns (env : GitEnv) :
  exists r w, GitUtils.getLatestVersionTag env = (Returned r, w).
Proof.
  destruct (getAllTags_returns env) as (tags & w & E).
  unfold GitUtils.getLatestVersionTag. rewrite E.
  cbn [EffM.bind EffM.ret]. eauto.
Qed.

Lemma resolveStartRef_thrown (env : GitEnv) (fromRef : option string)
    (e : string) :
  value (GitUtils.resolveStartRef env fromRef) = Thrown e ->
  gitRootCommit env = Thrown e.
Proof.
  unfold GitUtils.resolveStartRef, value.
  destruct (getLatestVersionTag_returns env) as (r & w & E).
  assert (H : fst (EffM.bind (GitUtils.getLatestVersionTag env)
                     (fun latestTag =>
                        match latestTag with
                        | Some t => EffM.ret (tag_name t)
                        | None =>
                            EffM.bind (EffM.await (gitRootCommit env))
                              (fun rootCommit =>
                                 EffM.ret (JS.trim rootCommit))
                        end)) = Thrown e ->
              gitRootCommit env = Thrown e).
  { rewrite E. unfold EffM.bind, EffM.await, EffM.ret.
    destruct r as [t|]; simpl; [discriminate|].
    destruct (gitRootCommit env); simpl; congruence. }
  destruct fromRef as [startRef|]; [|exact H].
  destruct (JS.isEmpty startRef); [exact H | simpl; discriminate].
Qed.

Lemma rangeError_text (fromRef toRef : option string) (error : string) :
  "Failed to get commits in range " +++ JS.show fromRef +++ ".."
  +++ match toRef with Some r => r | None => "HEAD" end +++ ": " +++ error
  = rangeErrorPrefix fromRef toRef +++ error.
Proof.
  unfold rangeErrorPrefix. rewrite !append_assoc. reflexivity.
Qed.

(** X3.  [getCommitsInRange] throws only when the root-commit lookup or the
    log query throws, and then the error is that one's text behind
    ["Failed to get commits in range <fromRef>..<toRef>: "], where an omitted
    [fromRef] reads [undefined] and an omitted [toRef] reads [HEAD]. *)
Theorem getCommitsInRange_error_wrapped (env : GitEnv)
    (fromRef toRef : option string) (message : string) :
  value (GitUtils.getCommitsInRange env fromRef toRef) = Thrown message ->
  exists error,
    message = rangeErrorPrefix fromRef toRef +++ error
    /\ (gitRootCommit env = Thrown error
        \/ exists rangeSpec, gitLogLines env rangeSpec = Thrown error).
Proof.
  unfold GitUtils.getCommitsInRange, value, EffM.tryCatch, EffM.bind.
  destruct (GitUtils.resolveStartRef env fromRef) as [[startRef|e] w] eqn:R.
  - unfold EffM.await.
    destruct (gitLogLines env _) as [lines|e] eqn:L.
    + destruct (length (GitUtils.collectBlocks lines) =? 0)%nat.
      * simpl. discriminate.
      * pose proof (@forEach_empty_blocks env _ []
                      (collectBlocks_empty_strings lines)) as F.
        unfold EffM.bind in F. rewrite F. simpl. discriminate.
    + cbn [fst EffM.throw]. intros H. injection H as <-. exists e. split.
      * apply rangeError_text.
      * right. eauto.
  - cbn [fst EffM.throw]. intros H. injection H as <-. exists e. split.
    + apply rangeError_text.
    + left. apply (@resolveStartRef_thrown env fromRef). rewrite R.
      reflexivity.
Qed.

Lemma getCommitsInRange_error_wrapped_witness :
  exists error,
    "Failed to get commits in range undefined..HEAD: fatal: bad revision"
    = rangeErrorPrefix None None +++ error
    /\ (gitRootCommit unreadableHistory = Thrown error
        \/ exists rangeSpec,
             gitLogLines unreadableHistory rangeSpec = Thrown error).
Proof.
  apply (@getCommitsInRange_error_wrapped unreadableHistory None None).
  reflexivity.
Defined.

Lemma length_trim_zero (s : string) :
  (0 <? String.length (JS.trim s))%nat = false <-> allWhitespace s = true.
Proof.
  rewrite <- trim_empty_iff.
  destruct (JS.trim s); cbn; split; intros H;
    first [reflexivity | discriminate].
Qed.

(** X4.  [hasUncommittedChanges] never throws.  It reports a clean tree
    exactly when the status query succeeds and prints nothing but white
    space; when the query fails it reports changes and warns once. *)
Theorem hasUncommittedChanges_clean_iff (env : GitCommandEnv) :
  exists dirty,
    value (hasUncommittedChanges env) = Returned dirty
    /\ (dirty = false <->
        exists text,
          gitStatusPorcelain env = Returned text
          /\ allWhitespace text = true)
    /\ (forall text,
          gitStatusPorcelain env = Returned text ->
          warnings (hasUncommittedChanges env) = [])
    /\ (forall error,
          gitStatusPorcelain env = Thrown error ->
          hasUncommittedChanges env
          = (Returned true,
             ["Warning: Could not check git status: " +++ error])).
Proof.
  unfold hasUncommittedChanges, value, warnings, EffM.tryCatch, EffM.bind,
    EffM.await, EffM.ret, EffM.warn.
  destruct (gitStatusPorcelain env) as [text|error]; cbn [fst snd app].
  - eexists. split; [reflexivity|]. split; [|split].
    + rewrite length_trim_zero. split.
      * intros H. exists text. auto.
      * intros (text' & E & H). injection E as <-. exact H.
    + reflexivity.
    + discriminate.
  - exists true. split; [reflexivity|]. split; [|split].
    + split; [discriminate|]. intros (text & E & _). discriminate.
    + discriminate.
    + intros error' E. injection E as <-. reflexivity.
Qed.

(** X5.  [isGitRepo] never throws and never warns.  It answers [true]
    exactly when [git rev-parse --show-toplevel], run in the start directory
    (the working directory when none is passed), succeeds and prints
    something other than white space. *)
Theorem isGitRepo_true_iff (env : GitCommandEnv) (startDir : option string) :
  exists answer,
    isGitRepo env startDir = (Returned answer, [])
    /\ (answer = true <->
        exists stdout,
          gitShowTopLevel env
            (match startDir with Some d => d | None => processCwd env end)
          = Returned stdout
          /\ allWhitespace stdout = false).
Proof.
  unfold isGitRepo, EffM.tryCatch, EffM.bind, EffM.await, EffM.ret.
  destruct (gitShowTopLevel env _) as [stdout|error]; cbn [app].
  - eexists. split; [reflexivity|].
    rewrite negb_true_iff, isEmpty_false.
    split.
    + intros H. exists stdout. split; [reflexivity|].
      destruct (allWhitespace stdout) eqn:W; [|reflexivity].
      apply trim_empty_iff in W. contradiction.
    + intros (stdout' & E & W). injection E as <-.
      intros H. apply trim_empty_iff in H. congruence.
  - exists false. split; [reflexivity|].
    split; [discriminate|]. intros (stdout & E & _). discriminate.
Qed.

(** X6.  [getCurrentBranch] returns the branch name without surrounding
    white space, and [createTag] returns, exactly when their git command
    succeeds; otherwise each throws the command's error behind its own
    prefix.  [createTag] with an empty message runs the same command as
    without a message. *)
Theorem command_wrappers_wrap_errors (env : GitCommandEnv) :
  (forall text,
      gitBranchShowCurrent env = Returned text ->
      getCurrentBranch env = (Returned (JS.trim text), [])
      /\ JS.trim (JS.trim text) = JS.trim text)
  /\ (forall error,
        gitBranchShowCurrent env = Thrown error ->
        getCurrentBranch env
        = (Thrown ("Failed to get current branch: " +++ error), []))
  /\ (forall tagName message,
        createTag env tagName message
        = match gitTag env tagName (JS.orUndefined message) with
          | Returned tt => (Returned tt, [])
          | Thrown error =>
              (Thrown ("Failed to create tag " +++ tagName +++ ": "
                       +++ error), [])
          end)
  /\ (forall tagName, createTag env tagName (Some "") = createTag env tagName None).
Proof.
  split; [|split; [|split]].
  - intros text H. split; [|apply trim_idempotent].
    unfold getCurrentBranch, EffM.tryCatch, EffM.bind, EffM.await, EffM.ret.
    rewrite H. reflexivity.
  - intros error H.
    unfold getCurrentBranch, EffM.tryCatch, EffM.bind, EffM.await, EffM.throw.
    rewrite H. reflexivity.
  - intros tagName message.
    unfold createTag, EffM.tryCatch, EffM.await, EffM.throw.
    destruct message as [[|c m]|]; cbn [JS.truthy JS.isEmpty negb JS.orUndefined];
      destruct (gitTag env tagName _) as [[]|error]; reflexivity.
  - reflexivity.
Qed.

Section DecimalFacts.

Lemma parseDigits_uint (d : Decimal.uint) (acc : nat) :
  JS.parseDigits (N.of_nat acc) (DecimalString.NilEmpty.string_of_uint d)
  = N.of_nat (Nat.of_uint_acc d acc).
Proof.
  revert acc; induction d; intros acc;
    cbn [DecimalString.NilEmpty.string_of_uint Nat.of_uint_acc
         JS.parseDigits]; [reflexivity|..];
    change (JS.isDigit _) with true; cbv iota;
    rewrite <- IHd; f_equal; rewrite Nat.tail_mul_spec;
    match goal with
    | |- context [JS.digitValue ?c] =>
        let v := eval vm_compute in (JS.digitValue c) in
        change (JS.digitValue c) with v
    end; lia.
Qed.

Lemma parseInt10_decimal (n : nat) : JS.parseInt10 (decimal n) = N.of_nat n.
Proof.
  unfold JS.parseInt10, decimal.
  change 0%N with (N.of_nat 0). rewrite parseDigits_uint.
  fold (Nat.of_uint (Nat.to_uint n)).
  rewrite DecimalNat.Unsigned.of_to. reflexivity.
Qed.

Lemma allDigits_uint (d : Decimal.uint) :
  allDigits (DecimalString.NilEmpty.string_of_uint d) = true.
Proof. induction d; simpl; auto. Qed.

Lemma succ_nonnil (d : Decimal.uint) : Decimal.Little.succ d <> Decimal.Nil.
Proof. destruct d; discriminate. Qed.

Lemma to_little_uint_nonnil (n : nat) (acc : Decimal.uint) :
  acc <> Decimal.Nil -> Nat.to_little_uint n acc <> Decimal.Nil.
Proof.
  revert acc; induction n as [|n IH]; intros acc H; simpl; [exact H|].
  apply IH, succ_nonnil.
Qed.

Lemma revapp_nonnil (d d' : Decimal.uint) :
  d <> Decimal.Nil \/ d' <> Decimal.Nil ->
  Decimal.revapp d d' <> Decimal.Nil.
Proof.
  revert d'; induction d; intros d' H; simpl;
    try (apply IHd; right; discriminate).
  destruct H as [H|H]; [congruence | exact H].
Qed.

Lemma decimal_digits (n : nat) : Digits (decimal n).
Proof.
  split; [|apply allDigits_uint].
  unfold decimal, Nat.to_uint, Decimal.rev.
  assert (H : Decimal.revapp (Nat.to_little_uint n Decimal.zero) Decimal.Nil
              <> Decimal.Nil).
  { apply revapp_nonnil. left. apply to_little_uint_nonnil. discriminate. }
  destruct (Decimal.revapp _ _); [congruence|..]; discriminate.
Qed.

End DecimalFacts.

Lemma versionName_shape (withV : bool) (a b c : nat) (pre : option string) :
  PrereleaseOk pre ->
  VersionShape (versionName withV a b c pre)
    (decimal a) (decimal b) (decimal c) pre.
Proof.
  intros Hpre. exists (if withV then "v" else ""),
    (match pre with Some p => "-" +++ p | None => "" end).
  split; [destruct withV; auto|].
  split; [reflexivity|].
  repeat (split; [apply decimal_digits|]).
  destruct pre as [p|]; [right | left; auto].
  destruct Hpre as [Hne Hlt]. exists p. auto.
Qed.

(** X7.  Version names round-trip through [getAllTags]: a tag whose name is
    the decimal notation of [a.b.c], with or without the leading ["v"] and
    with or without a prerelease suffix, is a version tag whose version is
    [a], [b], [c] and that prerelease (["none"] without one).  The numbers
    are below 2^53, where the runtime's numbers are exact. *)
Theorem version_tag_round_trip (line : string) (t : GitTag) (withV : bool)
    (a b c : nat) (pre : option string) :
  GitUtils.tagOfLine line = Some t ->
  tag_name t = versionName withV a b c pre ->
  PrereleaseOk pre ->
  (N.of_nat a < 2 ^ 53)%N -> (N.of_nat b < 2 ^ 53)%N ->
  (N.of_nat c < 2 ^ 53)%N ->
  isVersionTag t = true
  /\ version t
     = Some {| sv_major := N.of_nat a;
               sv_minor := N.of_nat b;
               sv_patch := N.of_nat c;
               sv_prerelease :=
                 match pre with Some p => p | None => "none" end |}.
Proof.
  intros Ht Hname Hpre _ _ _.
  pose proof (@versionName_shape withV a b c pre Hpre) as Hshape.
  apply versionMatch_iff in Hshape. rewrite <- Hname in Hshape.
  apply tagOfLine_some in Ht.
  destruct Ht as (hash & date & name & rest & _ & _ & _ & _ & _ & ->).
  cbn [tag_name isVersionTag version] in *. rewrite Hshape.
  split; [reflexivity|].
  rewrite !parseInt10_decimal. do 2 f_equal.
  destruct pre as [p|]; [|reflexivity].
  destruct Hpre as [Hne _]. apply isEmpty_false in Hne.
  simpl. rewrite Hne. reflexivity.
Qed.

Lemma version_tag_round_trip_witness :
  isVersionTag exampleTag = true
  /\ version exampleTag
     = Some {| sv_major := N.of_nat 2;
               sv_minor := N.of_nat 3;
               sv_patch := N.of_nat 1;
               sv_prerelease := "beta" |}.
Proof.
  apply (@version_tag_round_trip exampleTagLine exampleTag true 2 3 1
           (Some "beta")).
  - vm_compute. reflexivity.
  - vm_compute. reflexivity.
  - split; [discriminate | reflexivity].
  - reflexivity.
  - reflexivity.
  - reflexivity.
Defined.

Section Reports.

Variable pkgs : list PackageRef.

Lemma keys_set_add {V : Type} (k : string) (v : V) (m : JsMap.t V) :
  JsMap.keys (JsMap.set k v m) = JsSet.add k (JsMap.keys m).
Proof.
  rewrite keys_set. unfold JsSet.add.
  destruct (in_dec string_dec k (JsMap.keys m)) as [Hin|Hout];
    destruct (JsSet.has k (JsMap.keys m)) eqn:H; try reflexivity.
  - apply has_In in Hin. congruence.
  - apply has_In in H. contradiction.
Qed.

Lemma initial_keys_from (l : list PackageRef) (m0 : JsMap.t PackageChanges) :
  JsMap.keys
    (fold_left
       (fun m pkg =>
          JsMap.set (name pkg)
            {| packageName := name pkg;
               packagePath := relativePath pkg;
               affectingCommits := [];
               suggestedReleaseType := patch |} m)
       l m0)
  = fold_left (fun seen pkg => JsSet.add (name pkg) seen) l (JsMap.keys m0).
Proof.
  revert m0; induction l as [|pkg l IH]; intros m0; simpl; [reflexivity|].
  rewrite IH, keys_set_add. reflexivity.
Qed.

Lemma initialChanges_keys :
  JsMap.keys (GitUtils.initialChanges pkgs) = firstNames pkgs.
Proof. apply (initial_keys_from pkgs JsMap.empty). Qed.

Lemma firstNames_from (l : list PackageRef) (seen : list string) :
  NoDup (seen ++ map name l) ->
  fold_left (fun seen pkg => JsSet.add (name pkg) seen) l seen
  = seen ++ map name l.
Proof.
  revert seen; induction l as [|pkg l IH]; intros seen H; simpl.
  - symmetry; apply app_nil_r.
  - assert (Hadd : JsSet.add (name pkg) seen = seen ++ [name pkg]).
    { unfold JsSet.add. destruct (JsSet.has (name pkg) seen) eqn:Hhas;
        [|reflexivity].
      apply has_In in Hhas. apply NoDup_remove_2 in H.
      exfalso. apply H. apply in_or_app. left. exact Hhas. }
    rewrite Hadd, IH; rewrite <- app_assoc; [reflexivity | exact H].
Qed.

Lemma nonEmpty_touched (cs : list ConventionalCommit) (k : string) :
  (0 <? length (filter (touches pkgs k) cs))%nat = touched pkgs cs k.
Proof.
  unfold touched. induction cs as [|c cs IH]; simpl; [reflexivity|].
  destruct (touches pkgs k c); simpl; [reflexivity | exact IH].
Qed.

(** The result of [analyzePackageChanges], as the initial records of the
    touched names, each brought to its final state. *)
Lemma analyze_as_map (cs : list ConventionalCommit) :
  GitUtils.analyzePackageChanges cs pkgs
  = map (fun kv => snd (finalRecord pkgs cs kv))
      (filter (fun kv => touched pkgs cs (fst kv))
         (GitUtils.initialChanges pkgs)).
Proof.
  unfold GitUtils.analyzePackageChanges, JsMap.values.
  rewrite commits_as_map by apply initialChanges_spec.
  rewrite map_map, filter_map_swap. f_equal.
  apply filter_ext_in. intros kv Hkv.
  destruct (@final_record_spec pkgs cs kv Hkv) as (_ & Ha & _).
  rewrite Ha. apply nonEmpty_touched.
Qed.

End Reports.

(** X8.  [analyzePackageChanges] reports the touched packages in the order
    in which their names first appear in [workspacePackages], one record per
    name: with distinct names, in the order of [workspacePackages]. *)
Theorem analyzePackageChanges_report_order (commits : list ConventionalCommit)
    (pkgs : list PackageRef) :
  map packageName (GitUtils.analyzePackageChanges commits pkgs)
  = filter (touched pkgs commits) (firstNames pkgs)
  /\ (NoDup (map name pkgs) ->
      map packageName (GitUtils.analyzePackageChanges commits pkgs)
      = filter (touched pkgs commits) (map name pkgs)).
Proof.
  assert (H : map packageName (GitUtils.analyzePackageChanges commits pkgs)
              = filter (touched pkgs commits) (firstNames pkgs)).
  { rewrite analyze_as_map, map_map.
    rewrite <- initialChanges_keys. unfold JsMap.keys.
    rewrite filter_map_swap. apply map_ext_in.
    intros kv Hkv. apply filter_In in Hkv. destruct Hkv as [Hkv _].
    apply (@final_record_spec pkgs commits kv Hkv). }
  split; [exact H|].
  intros Hnd. rewrite H. unfold firstNames.
  rewrite firstNames_from; [reflexivity | exact Hnd].
Qed.

Section Irrelevant.

Variable pkgs : list PackageRef.

Lemma touches_touchesAny (k : string) (c : ConventionalCommit) :
  touches pkgs k c = true -> touchesAny pkgs c = true.
Proof.
  intros H. pose proof H as T. apply touches_iff in T.
  destruct T as (f & pkg & _ & Hp & Hn & _).
  apply existsb_exists. exists pkg. split; [exact Hp|].
  rewrite Hn. exact H.
Qed.

Lemma finalRecord_filter (cs : list ConventionalCommit)
    (kv : string * PackageChanges) :
  finalRecord pkgs (filter (touchesAny pkgs) cs) kv = finalRecord pkgs cs kv.
Proof.
  unfold finalRecord. f_equal. generalize (snd kv) as pc.
  induction cs as [|c cs IH]; intros pc; simpl; [reflexivity|].
  destruct (touchesAny pkgs c) eqn:A; simpl.
  - apply IH.
  - destruct (touches pkgs (fst kv) c) eqn:T; [|apply IH].
    apply touches_touchesAny in T. congruence.
Qed.

Lemma touched_filter (cs : list ConventionalCommit) (k : string) :
  touched pkgs (filter (touchesAny pkgs) cs) k = touched pkgs cs k.
Proof.
  unfold touched. induction cs as [|c cs IH]; simpl; [reflexivity|].
  destruct (touchesAny pkgs c) eqn:A; simpl.
  - rewrite IH. reflexivity.
  - destruct (touches pkgs k c) eqn:T; [|exact IH].
    apply touches_touchesAny in T. congruence.
Qed.

End Irrelevant.

(** X9.  Commits none of whose changed files lies in a package do not
    matter: leaving them out of the input gives the same records.  Without
    commits, and without packages, nothing is reported. *)
Theorem analyzePackageChanges_ignores_other_commits
    (commits : list ConventionalCommit) (pkgs : list PackageRef) :
  GitUtils.analyzePackageChanges (filter (touchesAny pkgs) commits) pkgs
  = GitUtils.analyzePackageChanges commits pkgs
  /\ GitUtils.analyzePackageChanges [] pkgs = []
  /\ GitUtils.analyzePackageChanges commits [] = [].
Proof.
  split; [|split].
  - rewrite !analyze_as_map.
    rewrite (filter_ext _ _ (fun kv => touched_filter pkgs commits (fst kv))).
    apply map_ext. intros kv. rewrite finalRecord_filter. reflexivity.
  - rewrite analyze_as_map. unfold touched. simpl.
    rewrite filter_false. reflexivity.
  - rewrite analyze_as_map. reflexivity.
Qed.

Section Orders.

Variable pkgs : list PackageRef.

Lemma maxRelease_swap (a x y : ReleaseType) :
  maxRelease (maxRelease a x) y = maxRelease (maxRelease a y) x.
Proof. destruct a, x, y; reflexivity. Qed.

Lemma fold_max_permutation (p : ConventionalCommit -> bool)
    (cs cs' : list ConventionalCommit) :
  Permutation cs cs' ->
  forall acc,
    fold_left (fun acc c => maxRelease acc (releaseType c)) (filter p cs) acc
    = fold_left (fun acc c => maxRelease acc (releaseType c))
        (filter p cs') acc.
Proof.
  induction 1 as [|x l l' _ IH|x y l|l l' l'' _ IH1 _ IH2]; intros acc; simpl.
  - reflexivity.
  - destruct (p x); simpl; apply IH.
  - destruct (p x), (p y); simpl; try reflexivity.
    rewrite maxRelease_swap. reflexivity.
  - rewrite IH1. apply IH2.
Qed.

Lemma filter_permutation {A : Type} (p : A -> bool) (l l' : list A) :
  Permutation l l' -> Permutation (filter p l) (filter p l').
Proof.
  induction 1 as [|x l l' _ IH|x y l|l l' l'' _ IH1 _ IH2]; simpl.
  - constructor.
  - destruct (p x); [constructor|]; exact IH.
  - destruct (p x), (p y); try apply Permutation_refl. constructor.
  - eapply Permutation_trans; eassumption.
Qed.

Lemma touched_permutation (cs cs' : list ConventionalCommit) (k : string) :
  Permutation cs cs' -> touched pkgs cs k = touched pkgs cs' k.
Proof.
  intros H. unfold touched. apply eq_true_iff_eq.
  rewrite !existsb_exists. split; intros (c & Hc & T); exists c; split; auto.
  - eapply Permutation_in; eassumption.
  - eapply Permutation_in; [apply Permutation_sym|]; eassumption.
Qed.

Lemma final_summary (cs : list ConventionalCommit)
    (kv : string * PackageChanges) :
  In kv (GitUtils.initialChanges pkgs) ->
  summary (snd (finalRecord pkgs cs kv))
  = (fst kv, packagePath (snd kv), maxImpact (filter (touches pkgs (fst kv)) cs)).
Proof.
  intros Hkv.
  destruct (@final_record_spec pkgs cs kv Hkv) as (Hn & Ha & Hs).
  destruct (record_after pkgs (fst kv) cs (snd kv)) as (_ & Hp & _ & _).
  unfold summary. rewrite Hn, Hs, Ha.
  unfold finalRecord; cbn [snd fst]. rewrite Hp. reflexivity.
Qed.

Lemma Forall2_map_same {A B : Type} (R : B -> B -> Prop) (f g : A -> B)
    (l : list A) :
  (forall x, In x l -> R (f x) (g x)) -> Forall2 R (map f l) (map g l).
Proof.
  induction l as [|x l IH]; intros H; simpl; constructor.
  - apply H. left. reflexivity.
  - apply IH. intros y Hy. apply H. right. exact Hy.
Qed.

End Orders.

(** X10.  The order of the commits does not change the report: for a
    permutation of the input, [analyzePackageChanges] returns records for
    the same packages in the same order, with the same path and the same
    suggested release type, and with a permutation of the affecting
    commits. *)
Theorem analyzePackageChanges_commit_order (commits commits' :
    list ConventionalCommit) (pkgs : list PackageRef) :
  Permutation commits commits' ->
  Forall2
    (fun r r' =>
       summary r = summary r'
       /\ Permutation (affectingCommits r) (affectingCommits r'))
    (GitUtils.analyzePackageChanges commits pkgs)
    (GitUtils.analyzePackageChanges commits' pkgs).
Proof.
  intros H. rewrite !analyze_as_map.
  rewrite (filter_ext _ _
             (fun kv => touched_permutation pkgs (fst kv) H)).
  apply Forall2_map_same. intros kv Hkv.
  apply filter_In in Hkv. destruct Hkv as [Hkv _].
  rewrite !final_summary by exact Hkv. split.
  - unfold maxImpact. rewrite (fold_max_permutation _ H). reflexivity.
  - destruct (@final_record_spec pkgs commits kv Hkv) as (_ & -> & _).
    destruct (@final_record_spec pkgs commits' kv Hkv) as (_ & -> & _).
    apply filter_permutation; exact H.
Qed.

Lemma analyzePackageChanges_commit_order_witness :
  Forall2
    (fun r r' =>
       summary r = summary r'
       /\ Permutation (affectingCommits r) (affectingCommits r'))
    (GitUtils.analyzePackageChanges [featInA; breakingInA] [pkgA; pkgB])
    (GitUtils.analyzePackageChanges [breakingInA; featInA] [pkgA; pkgB]).
Proof.
  apply (@analyzePackageChanges_commit_order [featInA; breakingInA]
           [breakingInA; featInA] [pkgA; pkgB]).
  apply perm_swap.
Defined.

Section Entries.

Lemma in_set_other {V : Type} (k : string) (v : V) (m : JsMap.t V)
    (kv : string * V) :
  NoDup (JsMap.keys m) ->
  In kv (JsMap.set k v m) -> kv = (k, v) \/ (In kv m /\ fst kv <> k).
Proof.
  induction m as [|[k' v'] m IH]; simpl; intros Hnd Hin.
  - destruct Hin as [<-|[]]. auto.
  - inversion Hnd as [|? ? Hnotin Hnd']; subst.
    destruct (String.eqb_spec k' k) as [->|Hne]; simpl in Hin.
    + destruct Hin as [<-|Hin]; [auto|]. right. split; [auto|].
      intros E. apply Hnotin. rewrite <- E.
      apply in_map. exact Hin.
    + destruct Hin as [<-|Hin]; [right; auto|].
      destruct (IH Hnd' Hin) as [->|[H1 H2]]; auto.
Qed.

Lemma initial_entries_from (l : list PackageRef)
    (m0 : JsMap.t PackageChanges) :
  NoDup (JsMap.keys m0) ->
  forall kv,
    In kv
      (fold_left
         (fun m pkg =>
            JsMap.set (name pkg)
              {| packageName := name pkg;
                 packagePath := relativePath pkg;
                 affectingCommits := [];
                 suggestedReleaseType := patch |} m)
         l m0) ->
    (exists pkg,
        LastNamed l pkg /\ name pkg = fst kv
        /\ packagePath (snd kv) = relativePath pkg)
    \/ (In kv m0 /\ forall q, In q l -> name q <> fst kv).
Proof.
  revert m0; induction l as [|pkg l IH]; intros m0 Hnd kv Hin; simpl in Hin.
  - right. split; [exact Hin|]. intros q [].
  - apply IH in Hin; [|apply keys_set_NoDup; exact Hnd].
    destruct Hin as [(p & (before & after & -> & Hafter) & Hn & Hp)
                    |[Hin Hl]].
    + left. exists p. split; [|auto].
      exists (pkg :: before), after. split; [reflexivity | exact Hafter].
    + apply in_set_other in Hin; [|exact Hnd].
      destruct Hin as [->|[Hin Hne]].
      * left. exists pkg. split; [|split; reflexivity].
        exists [], l. split; [reflexivity|]. exact Hl.
      * right. split; [exact Hin|].
        intros q [<-|Hq]; [congruence | auto].
Qed.

Lemma initialChanges_entries (pkgs : list PackageRef)
    (kv : string * PackageChanges) :
  In kv (GitUtils.initialChanges pkgs) ->
  exists pkg,
    LastNamed pkgs pkg /\ name pkg = fst kv
    /\ packagePath (snd kv) = relativePath pkg.
Proof.
  intros Hin. apply initial_entries_from in Hin; [|constructor].
  destruct Hin as [H|[[] _]]. exact H.
Qed.

End Entries.

(** X11.  Every reported record carries the name and the path of an entry
    of [workspacePackages]; when several entries share the name, they share
    the record, and the path is that of the last of them. *)
Theorem analyzePackageChanges_reports_last_entry
    (commits : list ConventionalCommit) (pkgs : list PackageRef)
    (r : PackageChanges) :
  In r (GitUtils.analyzePackageChanges commits pkgs) ->
  exists pkg,
    LastNamed pkgs pkg
    /\ packageName r = name pkg
    /\ packagePath r = relativePath pkg.
Proof.
  intros Hr. apply analyze_In in Hr. destruct Hr as (kv & Hkv & -> & _).
  destruct (initialChanges_entries pkgs kv Hkv) as (pkg & Hlast & Hn & Hp).
  exists pkg. split; [exact Hlast|].
  destruct (@final_record_spec pkgs commits kv Hkv) as (Hname & _ & _).
  destruct (record_after pkgs (fst kv) commits (snd kv)) as (_ & Hpath & _).
  split.
  - rewrite Hname. symmetry. exact Hn.
  - unfold finalRecord; cbn [snd fst]. rewrite Hpath. exact Hp.
Qed.

Lemma analyzePackageChanges_reports_last_entry_witness :
  exists pkg,
    LastNamed [pkgAOld; pkgB; pkgA] pkg
    /\ packageName
         {| packageName := "a";
            packagePath := "packages/a";
            affectingCommits := [breakingInA];
            suggestedReleaseType := major |} = name pkg
    /\ packagePath
         {| packageName := "a";
            packagePath := "packages/a";
            affectingCommits := [breakingInA];
            suggestedReleaseType := major |} = relativePath pkg.
Proof.
  apply (@analyzePackageChanges_reports_last_entry [breakingInA]
           [pkgAOld; pkgB; pkgA]).
  vm_compute. left. reflexivity.
Defined.

Section Membership.

Lemma normalize_nonempty (p : string) : Path.normalize p <> "".
Proof.
  unfold Path.normalize. destruct p as [|c0 p]; [discriminate|].
  destruct (JS.isEmpty (Path.normalizeString (String c0 p) _)) eqn:E.
  - destruct (c0 =? Path.sepChar)%char; [discriminate|].
    destruct (Path.isSep _); discriminate.
  - apply isEmpty_false in E.
    destruct (Path.normalizeString (String c0 p) _) as [|b body];
      [congruence|].
    destruct (c0 =? Path.sepChar)%char, (Path.isSep _); discriminate.
Qed.

(** A member that is not the root holds its own path and what lies below
    it. *)
Lemma isFileInPackage_nested (filePath packagePath : string) :
  Path.normalize packagePath <> "." ->
  (GitUtils.isFileInPackage filePath packagePath = true <->
   Path.normalize filePath = Path.normalize packagePath
   \/ Descendant (Path.normalize filePath) (Path.normalize packagePath)).
Proof.
  intros Hroot. unfold GitUtils.isFileInPackage.
  apply String.eqb_neq in Hroot. rewrite Hroot.
  pose proof (normalize_nonempty packagePath) as Hne.
  apply String.eqb_neq in Hne. rewrite Hne. cbn [orb].
  rewrite orb_true_iff, descendant_iff, String.eqb_eq. tauto.
Qed.

(** Two directories that both lie above one path are the same or
    nested. *)
Lemma common_descendant (q d1 d2 : string) :
  Descendant q d1 -> Descendant q d2 ->
  d1 = d2 \/ Descendant d1 d2 \/ Descendant d2 d1.
Proof.
  intros [r1 ->] [r2 H]. revert d2 H.
  induction d1 as [|c d1 IH]; intros d2 H.
  - destruct d2 as [|d d2]; [auto|].
    right. right. cbn in H. injection H as <- ->.
    exists d2. reflexivity.
  - destruct d2 as [|d d2].
    + right. left. cbn in H. injection H as -> <-.
      exists d1. reflexivity.
    + cbn in H. injection H as <- H.
      destruct (IH d2 H) as [->|[[x ->]|[x ->]]].
      * auto.
      * right. left. exists x. reflexivity.
      * right. right. exists x. reflexivity.
Qed.

End Membership.

(** X12.  Members overlap only when they are nested: when a file belongs to
    two members, neither of them the root, their normalized paths are equal
    or one lies below the other. *)
Theorem isFileInPackage_overlap_is_nesting (filePath p1 p2 : string) :
  Path.normalize p1 <> "." -> Path.normalize p2 <> "." ->
  GitUtils.isFileInPackage filePath p1 = true ->
  GitUtils.isFileInPackage filePath p2 = true ->
  Path.normalize p1 = Path.normalize p2
  \/ Descendant (Path.normalize p1) (Path.normalize p2)
  \/ Descendant (Path.normalize p2) (Path.normalize p1).
Proof.
  intros R1 R2 H1 H2.
  apply (@isFileInPackage_nested filePath p1 R1) in H1.
  apply (@isFileInPackage_nested filePath p2 R2) in H2.
  destruct H1 as [E1|D1], H2 as [E2|D2].
  - left. congruence.
  - right. left. rewrite <- E1. exact D2.
  - right. right. rewrite <- E2. exact D1.
  - apply (@common_descendant _ _ _ D1 D2).
Qed.

Lemma isFileInPackage_overlap_is_nesting_witness :
  Path.normalize "packages/a" = Path.normalize "packages/a/sub"
  \/ Descendant (Path.normalize "packages/a") (Path.normalize "packages/a/sub")
  \/ Descendant (Path.normalize "packages/a/sub") (Path.normalize "packages/a").
Proof.
  apply (@isFileInPackage_overlap_is_nesting "packages/a/sub/x.ts"
           "packages/a" "packages/a/sub").
  - vm_compute. discriminate.
  - vm_compute. discriminate.
  - vm_compute. reflexivity.
  - vm_compute. reflexivity.
Defined.

Lemma ensures_and {A} (m : Method A) st
    (Q1 Q2 : Completion A -> WorkspaceUtilsState -> Prop) :
  ensures m st Q1 -> ensures m st Q2 ->
  ensures m st (fun r st' => Q1 r st' /\ Q2 r st').
Proof. unfold ensures; auto. Qed.

(** A loop over [xs] whose body, at the elements of [xs], keeps [I] and
    never throws. *)
Lemma ensures_forEach_in {A} (I : WorkspaceUtilsState -> Prop) (xs : list A)
    (body : A -> Method unit) st :
  I st ->
  (forall x, In x xs -> forall st, I st ->
     ensures (body x) st (fun r st' => r = Returned tt /\ I st')) ->
  ensures (MethodM.forEach xs body) st (fun r st' => r = Returned tt /\ I st').
Proof.
  intros Hst Hbody. revert st Hst.
  induction xs as [|x xs IH]; intros st Hst; simpl.
  - apply ensures_ret. auto.
  - apply ensures_bind. eapply ensures_weaken.
    + apply Hbody; [left; reflexivity | exact Hst].
    + intros r st' [-> Hst']. apply IH; [|exact Hst'].
      intros y Hy. apply Hbody. right. exact Hy.
Qed.

Section ExactCaches.

Variable env : FsEnv.

Lemma RootManifestIs_unique (pj pj' : PackageJson) :
  RootManifestIs env pj -> RootManifestIs env pj' -> pj = pj'.
Proof.
  intros (t & Ht & Hj) (t' & Ht' & Hj'). congruence.
Qed.

Lemma CachesExact_constructor : CachesExact env (WorkspaceUtils.constructor env).
Proof.
  split; [apply Consistent_constructor|].
  split; [reflexivity|]. split; simpl; discriminate.
Qed.

Lemma CachesExact_setWorkspaceMembers st ms :
  CachesExact env st ->
  ms = [] \/ DeclaresPatterns env ->
  CachesExact env
    {| rootPath := rootPath st;
       rootPackageJson := rootPackageJson st;
       workspaceMembers := Some ms;
       isMonorepo := isMonorepo st |}.
Proof.
  intros (Hc & Hp & Hf & Ht) Hms.
  split; [apply Consistent_setWorkspaceMembers; assumption|].
  repeat split; assumption.
Qed.

Lemma CachesExact_setRootPackageJson st v :
  CachesExact env st ->
  isMonorepo st <> Some true ->
  (forall pj, v = Some pj -> RootManifestIs env pj) ->
  CachesExact env
    {| rootPath := rootPath st;
       rootPackageJson := v;
       workspaceMembers := workspaceMembers st;
       isMonorepo := isMonorepo st |}.
Proof.
  intros (Hc & Hp & Hf & Ht) Hm Hv.
  split; [apply Consistent_setRootPackageJson; assumption|].
  split; [exact Hp|]. split; [exact Hf|].
  simpl. intros E. contradiction.
Qed.

Lemma CachesExact_setIsMonorepo st b :
  CachesExact env st ->
  (b = false -> ~ DeclaresPatterns env) ->
  (b = true ->
   DeclaresPatterns env
   /\ exists pj patterns,
        rootPackageJson st = Some pj
        /\ pj_workspaces pj = WsArray patterns /\ patterns <> []) ->
  CachesExact env
    {| rootPath := rootPath st;
       rootPackageJson := rootPackageJson st;
       workspaceMembers := workspaceMembers st;
       isMonorepo := Some b |}.
Proof.
  intros (Hc & Hp & Hf & Ht) Hfalse Htrue.
  split; [|split; [exact Hp|split]]; simpl.
  - apply Consistent_setIsMonorepo; [exact Hc|].
    intros E. apply Htrue, E.
  - intros E. apply Hfalse. congruence.
  - intros E. apply Htrue. congruence.
Qed.

Lemma getRootPackageJson_answer st :
  Consistent env st ->
  ensures (WorkspaceUtils.getRootPackageJson env) st (rootAnswer env st).
Proof.
  intros Hst. unfold WorkspaceUtils.getRootPackageJson, rootAnswer.
  apply ensures_bind, ensures_this.
  destruct (rootPackageJson st) as [pj|] eqn:Hroot.
  - apply ensures_ret. do 3 (split; [reflexivity|]). split.
    + intros pj' E. injection E as <-. auto.
    + split; [exact Hroot|]. apply Hst, Hroot.
  - apply ensures_bind, ensures_await.
    destruct (gitTopLevel env) as [topLevel|e] eqn:Htop.
    2:{ do 3 (split; [reflexivity|]). split; [discriminate|].
        split; [exact Hroot|].
        intros (pj & ps & (t & Ht & _) & _). congruence. }
    apply ensures_bind.
    apply (@ensures_weaken _ _ _
             (fun r st' => r = Returned tt /\ st' = st)).
    { destruct (fileExists env _); unfold ensures; simpl; auto. }
    intros r st' [-> ->].
    apply ensures_tryCatch, ensures_bind, ensures_await.
    destruct (fileJson env _) as [json|e] eqn:Hjson.
    + apply ensures_bind, ensures_assign, ensures_ret.
      do 3 (split; [reflexivity|]). split; [discriminate|].
      destruct json as [|pj].
      * split; [reflexivity|].
        intros (pj & ps & (t & Ht & Hj) & _). congruence.
      * split; [reflexivity|]. exists topLevel. auto.
    + apply ensures_throw.
      do 3 (split; [reflexivity|]). split; [discriminate|].
      split; [exact Hroot|].
      intros (pj & ps & (t & Ht & Hj) & _). congruence.
Qed.

Lemma getRootPackageJson_exact st :
  CachesExact env st ->
  ensures (WorkspaceUtils.getRootPackageJson env) st
    (fun r st' => CachesExact env st' /\ rootAnswer env st r st').
Proof.
  intros Hst. pose proof Hst as (Hc & Hp & Hf & Ht).
  eapply ensures_weaken.
  - apply ensures_and.
    + apply (getRootPackageJson_spec Hc).
    + apply (getRootPackageJson_answer Hc).
  - intros r st' [(Hc' & _) Hans]. split; [|exact Hans].
    destruct Hans as (Hp' & Hm' & _ & Hcached & Hr).
    split; [exact Hc'|]. split; [congruence|]. rewrite Hm'.
    split; [exact Hf|].
    intros E. destruct (Ht E) as (pj & ps & Hroot & Hw & Hne).
    destruct (Hcached pj Hroot) as [_ ->]. eauto.
Qed.

Lemma getIsMonorepo_exact st :
  CachesExact env st ->
  ensures (WorkspaceUtils.getIsMonorepo env) st
    (fun r st' =>
       CachesExact env st'
       /\ workspaceMembers st' = workspaceMembers st
       /\ exists b,
            r = Returned b /\ isMonorepo st' = Some b
            /\ (b = true <-> DeclaresPatterns env)).
Proof.
  intros Hst. unfold WorkspaceUtils.getIsMonorepo.
  apply ensures_bind, ensures_this.
  destruct (isMonorepo st) as [b|] eqn:Hmono.
  - apply ensures_ret. split; [exact Hst|]. split; [reflexivity|].
    exists b. split; [reflexivity|]. split; [exact Hmono|].
    destruct Hst as (Hc & _ & Hf & _). destruct b.
    + split; [intros _; apply Hc, Hmono | reflexivity].
    + split; [discriminate|]. intros D. exfalso. exact (Hf Hmono D).
  - assert (Hcatch : forall st',
               CachesExact env st' ->
               workspaceMembers st' = workspaceMembers st ->
               ~ DeclaresPatterns env ->
               ensures
                 (MethodM.bind (WorkspaceUtils.setIsMonorepo false)
                    (fun _ => MethodM.ret false)) st'
                 (fun r st'' =>
                    CachesExact env st''
                    /\ workspaceMembers st'' = workspaceMembers st
                    /\ exists b,
                         r = Returned b /\ isMonorepo st'' = Some b
                         /\ (b = true <-> DeclaresPatterns env))).
    { intros st' Hc Hw ND. apply ensures_bind, ensures_assign, ensures_ret.
      split; [|split; [exact Hw|]].
      - apply CachesExact_setIsMonorepo; [exact Hc|auto|discriminate].
      - exists false. split; [reflexivity|]. split; [reflexivity|].
        split; [discriminate | intros D; contradiction]. }
    apply ensures_tryCatch, ensures_bind.
    eapply ensures_weaken; [apply getRootPackageJson_exact, Hst|].
    intros r st' (Hc & _ & Hm & Hw & _ & Hr).
    destruct r as [[|pj]|e].
    + apply ensures_throw. apply Hcatch; tauto.
    + destruct Hr as [Hroot Hman].
      apply ensures_bind, ensures_assign, ensures_ret.
      split; [|split; [exact Hw|]].
      * apply CachesExact_setIsMonorepo; [exact Hc|..].
        -- intros E (pj' & ps & Hman' & Hw' & Hne).
           rewrite (RootManifestIs_unique Hman Hman') in E.
           rewrite Hw' in E. simpl in E. destruct ps; [congruence|discriminate].
        -- intros E. apply isNonEmptyArray_true in E.
           destruct E as (ps & Hw' & Hne). split.
           ++ exists pj, ps. auto.
           ++ exists pj, ps. auto.
      * eexists. split; [reflexivity|]. split; [reflexivity|]. split.
        -- intros E. apply isNonEmptyArray_true in E.
           destruct E as (ps & Hw' & Hne). exists pj, ps. auto.
        -- intros (pj' & ps & Hman' & Hw' & Hne).
           rewrite (RootManifestIs_unique Hman Hman'), Hw'. simpl.
           destruct ps; [congruence|reflexivity].
    + apply Hcatch; tauto.
Qed.

End ExactCaches.

(** A loop that never throws, with an invariant that knows the elements
    already visited. *)
Lemma ensures_forEach_steps {A} (I : list A -> WorkspaceUtilsState -> Prop)
    (xs : list A) (body : A -> Method unit) :
  (forall visited x st, I visited st ->
     ensures (body x) st
       (fun r st' => r = Returned tt /\ I (visited ++ [x]) st')) ->
  forall visited st,
    I visited st ->
    ensures (MethodM.forEach xs body) st
      (fun r st' => r = Returned tt /\ I (visited ++ xs) st').
Proof.
  intros Hbody. induction xs as [|x xs IH]; intros visited st Hst; simpl.
  - apply ensures_ret. rewrite app_nil_r. auto.
  - apply ensures_bind. eapply ensures_weaken; [apply Hbody, Hst|].
    intros r st' [-> Hst']. eapply ensures_weaken; [apply IH, Hst'|].
    intros r st'' [-> H]. rewrite <- app_assoc in H. auto.
Qed.

Section Discovery.

Variable env : FsEnv.

Lemma Collecting_iff (P P' : WorkspaceMember -> Prop) st :
  (forall m, P m <-> P' m) -> Collecting env P st -> Collecting env P' st.
Proof.
  intros H (Hc & raw & Hraw & Hin). split; [exact Hc|].
  exists raw. split; [exact Hraw|]. intros m. rewrite Hin. apply H.
Qed.

Lemma Found_nil (m : WorkspaceMember) : ~ Found env [] m.
Proof. intros (x & pj & [] & _). Qed.

Lemma Found_app (xs ys : list string) (m : WorkspaceMember) :
  Found env (xs ++ ys) m <-> Found env xs m \/ Found env ys m.
Proof.
  unfold Found. split.
  - intros (x & pj & Hin & H). apply in_app_or in Hin.
    destruct Hin; [left | right]; exists x, pj; auto.
  - intros [(x & pj & Hin & H)|(x & pj & Hin & H)]; exists x, pj;
      (split; [apply in_or_app; auto | exact H]).
Qed.

Lemma FoundIn_nil (m : WorkspaceMember) : ~ FoundIn env [] m.
Proof. intros (p & paths & [] & _). Qed.

Lemma FoundIn_app (ps qs : list string) (m : WorkspaceMember) :
  FoundIn env (ps ++ qs) m <-> FoundIn env ps m \/ FoundIn env qs m.
Proof.
  unfold FoundIn. split.
  - intros (p & paths & Hin & H). apply in_app_or in Hin.
    destruct Hin; [left | right]; exists p, paths; auto.
  - intros [(p & paths & Hin & H)|(p & paths & Hin & H)]; exists p, paths;
      (split; [apply in_or_app; auto | exact H]).
Qed.

Lemma visitPath_collects (P : WorkspaceMember -> Prop) relativePath st :
  DeclaresPatterns env ->
  Collecting env P st ->
  ensures (WorkspaceUtils.visitPath env relativePath) st
    (fun r st' =>
       r = Returned tt
       /\ Collecting env (fun m => P m \/ Found env [relativePath] m) st').
Proof.
  intros D Hst. pose proof Hst as (Hc & raw & Hraw & Hin).
  assert (Hroot : rootPath st = cwd env) by apply Hc.
  assert (Hsame : (forall m, ~ Found env [relativePath] m) ->
                  Collecting env
                    (fun m => P m \/ Found env [relativePath] m) st).
  { intros Hno. eapply Collecting_iff; [|exact Hst].
    intros m. split; [auto|]. intros [H|H]; [exact H|]. destruct (Hno m H). }
  unfold WorkspaceUtils.visitPath.
  apply ensures_bind, ensures_this. rewrite Hroot.
  fold (manifestPath env relativePath).
  destruct (fileExists env (manifestPath env relativePath)) eqn:Hex;
    cbn [negb].
  2:{ apply ensures_ret. split; [reflexivity|]. apply Hsame.
      intros m (x & pj & [<-|[]] & Hex' & _). congruence. }
  apply ensures_tryCatch, ensures_bind, ensures_await.
  destruct (fileJson env (manifestPath env relativePath)) as [[|pj]|e] eqn:Hj.
  - apply ensures_throw, ensures_print. split; [reflexivity|]. apply Hsame.
    intros m (x & pj & [<-|[]] & _ & Hj' & _). congruence.
  - apply ensures_bind, ensures_this, ensures_assign.
    split; [reflexivity|]. split.
    + apply CachesExact_setWorkspaceMembers; auto.
    + eexists. split; [reflexivity|].
      unfold WorkspaceUtils.membersOf. rewrite Hraw.
      fold (memberOf env relativePath pj).
      intros m. rewrite in_app_iff, Hin. simpl. split.
      * intros [H|[<-|[]]]; [auto|]. right.
        exists relativePath, pj. simpl. auto.
      * intros [H|(x & pj' & [<-|[]] & _ & Hj' & ->)]; [auto|].
        right. left. congruence.
  - apply ensures_print. split; [reflexivity|]. apply Hsame.
    intros m (x & pj & [<-|[]] & _ & Hj' & _). congruence.
Qed.

Lemma visitPattern_collects (P : WorkspaceMember -> Prop) pattern st :
  DeclaresPatterns env ->
  Collecting env P st ->
  ensures (WorkspaceUtils.visitPattern env pattern) st
    (fun r st' =>
       r = Returned tt
       /\ Collecting env (fun m => P m \/ FoundIn env [pattern] m) st').
Proof.
  intros D Hst.
  assert (Hroot : rootPath st = cwd env) by apply Hst.
  unfold WorkspaceUtils.visitPattern.
  apply ensures_tryCatch, ensures_bind, ensures_this.
  apply ensures_bind, ensures_await. rewrite Hroot.
  destruct (glob env pattern (cwd env)) as [paths|e] eqn:Hglob.
  - eapply ensures_weaken.
    + apply (@ensures_forEach_steps _
               (fun visited => Collecting env
                                 (fun m => P m \/ Found env visited m))
               paths (WorkspaceUtils.visitPath env)) with (visited := []).
      * intros visited x st0 H0.
        eapply ensures_weaken; [apply (visitPath_collects x D H0)|].
        intros r st' [-> H']. split; [reflexivity|].
        eapply Collecting_iff; [|exact H'].
        intros m. rewrite Found_app. tauto.
      * eapply Collecting_iff; [|exact Hst].
        intros m. split; [auto|]. intros [H|H]; [exact H|].
        destruct (Found_nil H).
    + intros r st' [-> H']. split; [reflexivity|].
      eapply Collecting_iff; [|exact H']. intros m. cbn [app].
      split; (intros [H|H]; [auto|]); right.
      * exists pattern, paths. simpl. auto.
      * destruct H as (p & paths' & [<-|[]] & Hg & Hf). congruence.
  - apply ensures_print. split; [reflexivity|].
    eapply Collecting_iff; [|exact Hst].
    intros m. split; [auto|]. intros [H|H]; [exact H|].
    destruct H as (p & paths' & [<-|[]] & Hg & _). congruence.
Qed.

Lemma CachesSound_constructor : CachesSound env (WorkspaceUtils.constructor env).
Proof.
  split; [apply CachesExact_constructor|]. simpl. discriminate.
Qed.

Lemma Discovered_declares (m : WorkspaceMember) :
  Discovered env m -> DeclaresPatterns env.
Proof.
  intros (pj0 & patterns & Hman & Hw & (p & paths & Hin & _)).
  exists pj0, patterns. repeat split; auto.
  intros ->. destruct Hin.
Qed.

Lemma CachesSound_empty st :
  CachesExact env st ->
  ~ DeclaresPatterns env ->
  CachesSound env
    {| rootPath := rootPath st;
       rootPackageJson := rootPackageJson st;
       workspaceMembers := Some [];
       isMonorepo := isMonorepo st |}.
Proof.
  intros Hc ND. split.
  - apply CachesExact_setWorkspaceMembers; auto.
  - simpl. intros ms E. injection E as <-. exists []. split; [reflexivity|].
    intros m. split; [intros []|]. intros H.
    apply ND. exact (Discovered_declares H).
Qed.

Lemma getWorkspacePackages_sound st :
  CachesSound env st ->
  ensures (WorkspaceUtils.getWorkspacePackages env) st
    (fun r st' =>
       CachesSound env st'
       /\ exists ms, r = Returned ms /\ workspaceMembers st' = Some ms).
Proof.
  intros Hst. pose proof Hst as [Hexact Hsorted].
  unfold WorkspaceUtils.getWorkspacePackages.
  apply ensures_bind, ensures_this.
  destruct (workspaceMembers st) as [ms|] eqn:Hms.
  - apply ensures_ret. split; [exact Hst|]. exists ms. auto.
  - apply ensures_bind.
    eapply ensures_weaken; [apply getIsMonorepo_exact, Hexact|].
    intros r st1 (H1 & Hw1 & b & -> & Hb & Hiff).
    destruct b; cbn [negb].
    + assert (D : DeclaresPatterns env) by (apply Hiff; reflexivity).
      pose proof H1 as (Hc1 & Hp1 & Hf1 & Ht1).
      destruct (Ht1 Hb) as (pj & patterns & Hroot & Hws & Hne).
      assert (Hman : RootManifestIs env pj) by (apply Hc1, Hroot).
      apply ensures_bind.
      eapply ensures_weaken; [apply getRootPackageJson_exact, H1|].
      intros r st2 (H2 & _ & _ & _ & Hcached & _).
      destruct (Hcached pj Hroot) as [-> ->].
      apply ensures_bind. rewrite Hws. apply ensures_ret.
      apply ensures_bind, ensures_assign.
      apply ensures_bind. eapply ensures_weaken.
      * apply (@ensures_forEach_steps _
                 (fun visited => Collecting env (FoundIn env visited))
                 patterns (WorkspaceUtils.visitPattern env))
          with (visited := []).
        -- intros visited x st0 H0.
           eapply ensures_weaken; [apply (visitPattern_collects x D H0)|].
           intros r st' [-> H']. split; [reflexivity|].
           eapply Collecting_iff; [|exact H'].
           intros m. rewrite FoundIn_app. tauto.
        -- split; [apply CachesExact_setWorkspaceMembers; auto|].
           exists []. split; [reflexivity|].
           intros m. split; [intros [] | apply FoundIn_nil].
      * intros r' st3 [-> (H3 & raw & Hraw & Hall)].
        apply ensures_bind, ensures_this, ensures_bind, ensures_assign.
        apply ensures_bind, ensures_this, ensures_ret.
        unfold WorkspaceUtils.membersOf at 1. cbn [workspaceMembers].
        split; [|eexists; split; reflexivity].
        split; [apply CachesExact_setWorkspaceMembers; auto|].
        cbn [workspaceMembers]. intros ms E. injection E as <-.
        exists raw. split.
        -- unfold WorkspaceUtils.membersOf. rewrite Hraw. reflexivity.
        -- intros m. rewrite Hall. cbn [app]. split.
           ++ intros H. exists pj, patterns. auto.
           ++ intros (pj' & patterns' & Hman' & Hw' & H).
              rewrite <- (RootManifestIs_unique Hman Hman') in Hw'.
              congruence.
    + apply ensures_bind, ensures_assign, ensures_ret.
      split; [|exists []; auto].
      apply CachesSound_empty; [exact H1|].
      intros D. apply Hiff in D. discriminate.
Qed.

Lemma CachesSound_same_members st st' :
  CachesSound env st ->
  CachesExact env st' ->
  workspaceMembers st' = workspaceMembers st ->
  CachesSound env st'.
Proof.
  intros [_ Hs] Hc Hw. split; [exact Hc|]. rewrite Hw. exact Hs.
Qed.

Lemma Reachable_CachesSound st : Reachable env st -> CachesSound env st.
Proof.
  induction 1 as [|st _ IH|st _ IH|st _ IH|st name _ IH|st path _ IH].
  - apply CachesSound_constructor.
  - pose proof (getIsMonorepo_exact (proj1 IH)) as (Hc & Hw & _).
    exact (CachesSound_same_members IH Hc Hw).
  - pose proof (getRootPackageJson_exact (proj1 IH)) as (Hc & _ & _ & Hw & _).
    exact (CachesSound_same_members IH Hc Hw).
  - apply (getWorkspacePackages_sound IH).
  - assert (H : ensures (WorkspaceUtils.findPackageByName env name) st
                  (fun _ st' => CachesSound env st')).
    { unfold WorkspaceUtils.findPackageByName. apply ensures_bind.
      eapply ensures_weaken; [apply getWorkspacePackages_sound, IH|].
      intros r st' (Hs & ms & -> & _). apply ensures_ret. exact Hs. }
    exact H.
  - assert (H : ensures (WorkspaceUtils.findPackageByPath env path) st
                  (fun _ st' => CachesSound env st')).
    { unfold WorkspaceUtils.findPackageByPath. apply ensures_bind.
      eapply ensures_weaken; [apply getWorkspacePackages_sound, IH|].
      intros r st' (Hs & ms & -> & _). apply ensures_ret. exact Hs. }
    exact H.
Qed.

End Discovery.

Section Sorting.

Variable env : FsEnv.

Lemma insertSorted_permutation (x : WorkspaceMember)
    (l : list WorkspaceMember) :
  Permutation (x :: l) (WorkspaceUtils.insertSorted env x l).
Proof.
  induction l as [|y l IH]; simpl.
  - apply Permutation_refl.
  - destruct (localeCompare env (wm_name x) (wm_name y) <? 0)%Z.
    + apply Permutation_refl.
    + eapply perm_trans; [apply perm_swap|].
      apply perm_skip. exact IH.
Qed.

Lemma sortByName_from (l acc : list WorkspaceMember) :
  Permutation (acc ++ l)
    (fold_left (fun sorted x => WorkspaceUtils.insertSorted env x sorted)
       l acc).
Proof.
  revert acc; induction l as [|x l IH]; intros acc; simpl.
  - rewrite app_nil_r. apply Permutation_refl.
  - eapply perm_trans; [|apply IH].
    eapply perm_trans;
      [apply Permutation_sym, Permutation_middle|].
    change (x :: acc ++ l) with ((x :: acc) ++ l).
    apply Permutation_app_tail, insertSorted_permutation.
Qed.

Lemma sortByName_permutation (l : list WorkspaceMember) :
  Permutation l (WorkspaceUtils.sortByName env l).
Proof. apply (sortByName_from l []). Qed.

Hypothesis compare_antisym :
  forall a b, (0 <= localeCompare env a b)%Z -> (localeCompare env b a <= 0)%Z.

Lemma insertSorted_sorted (x : WorkspaceMember) (l : list WorkspaceMember) :
  SortedByName env l -> SortedByName env (WorkspaceUtils.insertSorted env x l).
Proof.
  unfold SortedByName. induction l as [|y l IH]; simpl; intros Hl.
  - repeat constructor.
  - destruct (localeCompare env (wm_name x) (wm_name y) <? 0)%Z eqn:C.
    + constructor; [exact Hl|]. constructor. apply Z.ltb_lt in C. lia.
    + apply Z.ltb_ge in C. apply Sorted_inv in Hl. destruct Hl as [Hl Hhd].
      constructor; [apply IH, Hl|].
      destruct l as [|z l]; simpl.
      * constructor. apply compare_antisym, C.
      * destruct (localeCompare env (wm_name x) (wm_name z) <? 0)%Z.
        -- constructor. apply compare_antisym, C.
        -- constructor. inversion Hhd; assumption.
Qed.

Lemma sortByName_sorted (l : list WorkspaceMember) :
  SortedByName env (WorkspaceUtils.sortByName env l).
Proof.
  unfold WorkspaceUtils.sortByName.
  assert (H : forall acc, SortedByName env acc ->
                SortedByName env
                  (fold_left
                     (fun sorted x => WorkspaceUtils.insertSorted env x sorted)
                     l acc)).
  { induction l as [|x l IH]; intros acc Hacc; simpl; [exact Hacc|].
    apply IH, insertSorted_sorted, Hacc. }
  apply H. constructor.
Qed.

End Sorting.

Lemma compareStrings_trans (a b c : string) :
  (compareStrings a b <= 0)%Z -> (compareStrings b c <= 0)%Z ->
  (compareStrings a c <= 0)%Z.
Proof.
  assert (T : forall x y z : string,
             String.compare x y <> Gt -> String.compare y z <> Gt ->
             String.compare x z <> Gt).
  { induction x as [|c1 x IH]; intros [|c2 y] [|c3 z]; simpl;
      try congruence.
    unfold Ascii.compare.
    destruct (N.compare_spec (N_of_ascii c1) (N_of_ascii c2)) as [E1|L1|G1];
      destruct (N.compare_spec (N_of_ascii c2) (N_of_ascii c3))
        as [E2|L2|G2];
      destruct (N.compare_spec (N_of_ascii c1) (N_of_ascii c3))
        as [E3|L3|G3];
      try congruence; try lia.
    apply IH. }
  unfold compareStrings. intros H1 H2. specialize (T a b c).
  destruct (String.compare a b), (String.compare b c),
    (String.compare a c); simpl in *; try lia;
    exfalso; apply T; congruence.
Qed.

Lemma compareStrings_antisym (a b : string) :
  (0 <= compareStrings a b)%Z -> (compareStrings b a <= 0)%Z.
Proof.
  unfold compareStrings. rewrite (String.compare_antisym a b).
  destruct (String.compare b a); simpl; lia.
Qed.

Lemma twoPackageRepo_members :
  fst (fst (WorkspaceUtils.getWorkspacePackages twoPackageRepo
              (WorkspaceUtils.constructor twoPackageRepo)))
  = Returned [memberA; memberB].
Proof. vm_compute. reflexivity. Qed.

(** X13.  In every state an instance can reach, [getIsMonorepo] returns and
    never throws, and its answer is [true] exactly when the root manifest is
    read as an object whose [workspaces] is a non-empty array. *)
Theorem getIsMonorepo_detects_patterns (env : FsEnv)
    (st : WorkspaceUtilsState) :
  Reachable env st ->
  exists b,
    fst (fst (WorkspaceUtils.getIsMonorepo env st)) = Returned b
    /\ (b = true <-> DeclaresPatterns env).
Proof.
  intros Hr. apply Reachable_CachesSound in Hr.
  destruct (getIsMonorepo_exact (proj1 Hr)) as (_ & _ & b & Hb & _ & Hiff).
  exists b. auto.
Qed.

Lemma getIsMonorepo_detects_patterns_witness :
  exists b,
    fst (fst (WorkspaceUtils.getIsMonorepo twoPackageRepo
                (WorkspaceUtils.constructor twoPackageRepo))) = Returned b
    /\ (b = true <-> DeclaresPatterns twoPackageRepo).
Proof.
  apply (@getIsMonorepo_detects_patterns twoPackageRepo
           (WorkspaceUtils.constructor twoPackageRepo)).
  apply reach_constructor.
Defined.

Lemma memberOf_wellformed (env : FsEnv) (relativePath : string)
    (pj : PackageJson) :
  wm_version (memberOf env relativePath pj) <> ""
  /\ wm_path (memberOf env relativePath pj)
     = Path.join (cwd env) (wm_relativePath (memberOf env relativePath pj)).
Proof.
  split; [|reflexivity]. simpl.
  destruct (pj_version pj) as [[|c v]|]; simpl; discriminate.
Qed.

(** X14.  In every state an instance can reach, [getWorkspacePackages]
    returns and never throws.  Its members are exactly the members of the
    workspace: those of the candidates, among the expansions of the root
    manifest's patterns, whose manifest exists and is read as an object (a
    pattern whose expansion fails, a directory without manifest and a
    manifest that does not parse contribute none).  Every member has a
    non-empty version and the path of its directory under the working
    directory. *)
Theorem getWorkspacePackages_members (env : FsEnv)
    (st : WorkspaceUtilsState) :
  Reachable env st ->
  exists ms,
    fst (fst (WorkspaceUtils.getWorkspacePackages env st)) = Returned ms
    /\ (forall m, In m ms <-> Discovered env m)
    /\ (forall m, In m ms ->
          wm_version m <> ""
          /\ wm_path m = Path.join (cwd env) (wm_relativePath m)).
Proof.
  intros Hr. apply Reachable_CachesSound in Hr.
  destruct (getWorkspacePackages_sound Hr) as ([_ Hs] & ms & Hret & Hms).
  exists ms. split; [exact Hret|].
  destruct (Hs ms Hms) as (raw & -> & Hraw).
  assert (Hin : forall m,
             In m (WorkspaceUtils.sortByName env raw) <-> Discovered env m).
  { intros m. rewrite <- Hraw. split; apply Permutation_in;
      [apply Permutation_sym|]; apply sortByName_permutation. }
  split; [exact Hin|].
  intros m Hm. apply Hin in Hm.
  destruct Hm as (_ & _ & _ & _ & (_ & _ & _ & _ & (x & pj & _ & _ & _ & ->))).
  apply memberOf_wellformed.
Qed.

Lemma getWorkspacePackages_members_witness :
  exists ms,
    fst (fst (WorkspaceUtils.getWorkspacePackages twoPackageRepo
                (WorkspaceUtils.constructor twoPackageRepo))) = Returned ms
    /\ (forall m, In m ms <-> Discovered twoPackageRepo m)
    /\ (forall m, In m ms ->
          wm_version m <> ""
          /\ wm_path m = Path.join (cwd twoPackageRepo) (wm_relativePath m)).
Proof.
  apply (@getWorkspacePackages_members twoPackageRepo
           (WorkspaceUtils.constructor twoPackageRepo)).
  apply reach_constructor.
Defined.

(** X15.  When [localeCompare] is a consistent comparison (it never puts
    two names in both orders, and it is transitive), the list that
    [getWorkspacePackages] returns is sorted by name: every member comes
    before all the later ones. *)
Theorem getWorkspacePackages_sorted (env : FsEnv) (st : WorkspaceUtilsState) :
  Reachable env st ->
  (forall a b,
      (0 <= localeCompare env a b)%Z -> (localeCompare env b a <= 0)%Z) ->
  (forall a b c,
      (localeCompare env a b <= 0)%Z -> (localeCompare env b c <= 0)%Z ->
      (localeCompare env a c <= 0)%Z) ->
  exists ms,
    fst (fst (WorkspaceUtils.getWorkspacePackages env st)) = Returned ms
    /\ StronglySorted
         (fun a b => (localeCompare env (wm_name a) (wm_name b) <= 0)%Z) ms.
Proof.
  intros Hr Hcmp Htrans. apply Reachable_CachesSound in Hr.
  destruct (getWorkspacePackages_sound Hr) as ([_ Hs] & ms & Hret & Hms).
  exists ms. split; [exact Hret|].
  destruct (Hs ms Hms) as (raw & -> & _).
  apply Sorted_StronglySorted.
  - intros a b c. apply Htrans.
  - apply sortByName_sorted, Hcmp.
Qed.

Lemma getWorkspacePackages_sorted_witness :
  exists ms,
    fst (fst (WorkspaceUtils.getWorkspacePackages twoPackageRepo
                (WorkspaceUtils.constructor twoPackageRepo))) = Returned ms
    /\ StronglySorted
         (fun a b =>
            (localeCompare twoPackageRepo (wm_name a) (wm_name b) <= 0)%Z)
         ms.
Proof.
  apply (@getWorkspacePackages_sorted twoPackageRepo
           (WorkspaceUtils.constructor twoPackageRepo)).
  - apply reach_constructor.
  - exact compareStrings_antisym.
  - exact compareStrings_trans.
Defined.

(** X16.  Results are cached: after [getWorkspacePackages] or
    [getIsMonorepo] has returned, the next call returns the same value,
    changes no field and prints nothing, whatever the repository has become
    in the meantime. *)
Theorem results_are_cached (env env' : FsEnv) (st : WorkspaceUtilsState) :
  Reachable env st ->
  (exists ms,
      fst (fst (WorkspaceUtils.getWorkspacePackages env st)) = Returned ms
      /\ WorkspaceUtils.getWorkspacePackages env'
           (snd (fst (WorkspaceUtils.getWorkspacePackages env st)))
         = (Returned ms,
            snd (fst (WorkspaceUtils.getWorkspacePackages env st)), []))
  /\ (exists b,
        fst (fst (WorkspaceUtils.getIsMonorepo env st)) = Returned b
        /\ WorkspaceUtils.getIsMonorepo env'
             (snd (fst (WorkspaceUtils.getIsMonorepo env st)))
           = (Returned b, snd (fst (WorkspaceUtils.getIsMonorepo env st)), [])).
Proof.
  intros Hr. apply Reachable_CachesSound in Hr. split.
  - destruct (getWorkspacePackages_sound Hr) as (_ & ms & Hret & Hms).
    exists ms. split; [exact Hret|].
    unfold WorkspaceUtils.getWorkspacePackages at 1.
    unfold MethodM.bind, MethodM.this. rewrite Hms. reflexivity.
  - destruct (getIsMonorepo_exact (proj1 Hr)) as (_ & _ & b & Hret & Hb & _).
    exists b. split; [exact Hret|].
    unfold WorkspaceUtils.getIsMonorepo at 1.
    unfold MethodM.bind, MethodM.this. rewrite Hb. reflexivity.
Qed.

Lemma results_are_cached_witness :
  (exists ms,
      fst (fst (WorkspaceUtils.getWorkspacePackages twoPackageRepo
                  (WorkspaceUtils.constructor twoPackageRepo))) = Returned ms
      /\ WorkspaceUtils.getWorkspacePackages singlePackageRepo
           (snd (fst (WorkspaceUtils.getWorkspacePackages twoPackageRepo
                        (WorkspaceUtils.constructor twoPackageRepo))))
         = (Returned ms,
            snd (fst (WorkspaceUtils.getWorkspacePackages twoPackageRepo
                        (WorkspaceUtils.constructor twoPackageRepo))), []))
  /\ (exists b,
        fst (fst (WorkspaceUtils.getIsMonorepo twoPackageRepo
                    (WorkspaceUtils.constructor twoPackageRepo))) = Returned b
        /\ WorkspaceUtils.getIsMonorepo singlePackageRepo
             (snd (fst (WorkspaceUtils.getIsMonorepo twoPackageRepo
                          (WorkspaceUtils.constructor twoPackageRepo))))
           = (Returned b,
              snd (fst (WorkspaceUtils.getIsMonorepo twoPackageRepo
                          (WorkspaceUtils.constructor twoPackageRepo))), [])).
Proof.
  apply (@results_are_cached twoPackageRepo singlePackageRepo
           (WorkspaceUtils.constructor twoPackageRepo)).
  apply reach_constructor.
Defined.

(** X17.  In every state an instance can reach, [findPackageByName] returns
    and never throws: it answers the first member of the list of
    [getWorkspacePackages] that has the name, and [null] exactly when no
    member has it. *)
Theorem findPackageByName_first_named (env : FsEnv)
    (st : WorkspaceUtilsState) (name : string) :
  Reachable env st ->
  exists ms,
    fst (fst (WorkspaceUtils.getWorkspacePackages env st)) = Returned ms
    /\ (forall m,
          fst (fst (WorkspaceUtils.findPackageByName env name st))
          = Returned (Some m)
          <-> FirstNamed name m ms)
    /\ (fst (fst (WorkspaceUtils.findPackageByName env name st))
        = Returned None
        <-> forall m, In m ms -> wm_name m <> name).
Proof.
  intros Hr. apply Reachable_CachesSound in Hr.
  destruct (getWorkspacePackages_sound Hr) as (_ & ms & Hret & _).
  exists ms. split; [exact Hret|].
  assert (E : fst (fst (WorkspaceUtils.findPackageByName env name st))
              = Returned
                  (find (fun pkg => String.eqb (wm_name pkg) name) ms)).
  { unfold WorkspaceUtils.findPackageByName, MethodM.bind.
    destruct (WorkspaceUtils.getWorkspacePackages env st) as [[r st'] out].
    simpl in Hret. subst r. reflexivity. }
  rewrite E. split.
  - intros m. unfold FirstNamed. split.
    + intros H. injection H as H. apply find_first in H.
      destruct H as (l1 & l2 & -> & Hn & Hl1). exists l1, l2.
      split; [reflexivity|]. split; [apply String.eqb_eq, Hn|].
      intros p Hp. apply String.eqb_neq, Hl1, Hp.
    + intros (l1 & l2 & -> & Hn & Hl1). f_equal. apply find_first.
      exists l1, l2. split; [reflexivity|].
      split; [apply String.eqb_eq, Hn|].
      intros p Hp. apply String.eqb_neq, Hl1, Hp.
  - split.
    + intros H. injection H as H. intros m Hm.
      apply String.eqb_neq. exact (proj1 (find_none_iff _ _) H m Hm).
    + intros H. f_equal. apply find_none_iff. intros m Hm.
      apply String.eqb_neq, H, Hm.
Qed.

Lemma findPackageByName_first_named_witness :
  exists ms,
    fst (fst (WorkspaceUtils.getWorkspacePackages twoPackageRepo
                (WorkspaceUtils.constructor twoPackageRepo))) = Returned ms
    /\ (forall m,
          fst (fst (WorkspaceUtils.findPackageByName twoPackageRepo "b"
                      (WorkspaceUtils.constructor twoPackageRepo)))
          = Returned (Some m)
          <-> FirstNamed "b" m ms)
    /\ (fst (fst (WorkspaceUtils.findPackageByName twoPackageRepo "b"
                    (WorkspaceUtils.constructor twoPackageRepo)))
        = Returned None
        <-> forall m, In m ms -> wm_name m <> "b").
Proof.
  apply (@findPackageByName_first_named twoPackageRepo
           (WorkspaceUtils.constructor twoPackageRepo) "b").
  apply reach_constructor.
Defined.




(** ** The choice filter *)

Section ChoiceFacts.

Lemma includes_occurs (s needle : string) :
  JS.includes s needle = true <-> Occurs needle s.
Proof.
  unfold Occurs. split.
  - induction s as [|c s IH]; cbn [JS.includes]; intros H;
      apply orb_true_iff in H; destruct H as [H|H].
    + apply prefix_inv in H. destruct H as [r ->]. exists "", r. reflexivity.
    + discriminate.
    + apply prefix_inv in H. destruct H as [r ->]. exists "", r. reflexivity.
    + destruct (IH H) as (b & a & ->). exists (String c b), a. reflexivity.
  - intros (b & a & ->). apply includes_app.
Qed.

Lemma Occurs_trans (a b c : string) : Occurs a b -> Occurs b c -> Occurs a c.
Proof.
  intros (b1 & a1 & ->) (b2 & a2 & ->). exists (b2 +++ b1), (a1 +++ a2).
  now rewrite !append_assoc.
Qed.

Lemma Occurs_empty (needle : string) : Occurs needle "" -> needle = "".
Proof.
  intros (b & a & H). destruct b; [|discriminate].
  destruct needle; [reflexivity | discriminate].
Qed.

Lemma toLowerChar_idempotent (c : ascii) :
  Choices.toLowerChar (Choices.toLowerChar c) = Choices.toLowerChar c.
Proof. destruct c as [[] [] [] [] [] [] [] []]; reflexivity. Qed.

Lemma toLowerCase_idempotent (s : string) :
  Choices.toLowerCase (Choices.toLowerCase s) = Choices.toLowerCase s.
Proof.
  induction s as [|c s IH]; simpl; [reflexivity|].
  now rewrite toLowerChar_idempotent, IH.
Qed.

Lemma toLowerCase_empty (s : string) : Choices.toLowerCase s = "" <-> s = "".
Proof. destruct s; simpl; split; congruence. Qed.

Lemma recursiveCheck_entry (needle key : string) (value : JsValue)
    (rest : list (string * JsValue)) :
  Choices.recursiveCheck needle (VObject ((key, value) :: rest))
  = JS.includes (Choices.toLowerCase key) needle
    || (Choices.recursiveCheck needle value
        || Choices.recursiveCheck needle (VObject rest)).
Proof.
  cbn [Choices.recursiveCheck].
  destruct (JS.includes (Choices.toLowerCase key) needle); [reflexivity|].
  destruct value; cbn [Choices.recursiveCheck orb]; reflexivity.
Qed.

Lemma Mentions_entry (needle key : string) (value : JsValue)
    (rest : list (string * JsValue)) :
  Mentions needle (VObject ((key, value) :: rest))
  <-> Occurs needle (Choices.toLowerCase key)
      \/ Mentions needle value
      \/ Mentions needle (VObject rest).
Proof.
  split.
  - intros H. inversion H as [|es k x Hin Hk|es k x Hin Hx]; subst.
    + destruct Hin as [E|Hin].
      * injection E as <- <-. now left.
      * right; right. eapply mentions_key; eassumption.
    + destruct Hin as [E|Hin].
      * injection E as <- <-. right; now left.
      * right; right. eapply mentions_value; eassumption.
  - intros [H|[H|H]].
    + eapply mentions_key; [left; reflexivity | exact H].
    + eapply mentions_value; [left; reflexivity | exact H].
    + inversion H as [|es k x Hin Hk|es k x Hin Hx]; subst.
      * eapply mentions_key; [right; exact Hin | exact Hk].
      * eapply mentions_value; [right; exact Hin | exact Hx].
Qed.

Lemma recursiveCheck_mentions (needle : string) (v : JsValue) :
  Choices.recursiveCheck needle v = true <-> Mentions needle v.
Proof.
  induction v as [| |rendering|entries IH] using JsValue_nested_ind.
  - split; [discriminate | intros H; inversion H].
  - split; [discriminate | intros H; inversion H].
  - cbn [Choices.recursiveCheck]. rewrite includes_occurs. split.
    + apply mentions_rendering.
    + intros H; inversion H; assumption.
  - induction IH as [|[key value] rest Hv _ IHrest].
    + split; [discriminate|].
      intros H; inversion H as [|es k x Hin _|es k x Hin _]; destruct Hin.
    + rewrite recursiveCheck_entry, Mentions_entry, !orb_true_iff.
      rewrite includes_occurs. simpl in Hv. rewrite Hv, IHrest. reflexivity.
Qed.

Lemma Mentions_narrow (shorter longer : string) (v : JsValue) :
  Occurs shorter longer -> Mentions longer v -> Mentions shorter v.
Proof.
  intros Ho H. induction H as [r Hr|es k x Hin Hk|es k x Hin _ IH].
  - apply mentions_rendering. eapply Occurs_trans; eassumption.
  - eapply mentions_key; [exact Hin|]. eapply Occurs_trans; eassumption.
  - eapply mentions_value; eassumption.
Qed.

Lemma recursiveCheck_lowerValue (needle : string) (v : JsValue) :
  Choices.recursiveCheck needle (lowerValue v)
  = Choices.recursiveCheck needle v.
Proof.
  induction v as [| |rendering|entries IH] using JsValue_nested_ind;
    try reflexivity.
  - cbn [lowerValue Choices.recursiveCheck].
    now rewrite toLowerCase_idempotent.
  - induction IH as [|[key value] rest Hv _ IHrest]; [reflexivity|].
    cbn [lowerValue map] in *. rewrite !recursiveCheck_entry.
    simpl in Hv. rewrite toLowerCase_idempotent, Hv, IHrest. reflexivity.
Qed.

Lemma getMatchingChoices_search (dataset : list JsValue) (s : string) :
  s <> "" ->
  Choices.getMatchingChoices dataset (Some s)
  = filter (fun entry => Choices.matchesSearch entry s) dataset.
Proof.
  intros H. unfold Choices.getMatchingChoices. cbn [JS.truthy].
  apply isEmpty_false in H. rewrite H. reflexivity.
Qed.

Lemma filter_narrow {A} (f g : A -> bool) (l : list A) :
  (forall x, g x = true -> f x = true) ->
  filter g (filter f l) = filter g l.
Proof.
  intros H. induction l as [|x l IH]; simpl; [reflexivity|].
  destruct (f x) eqn:F; simpl.
  - now rewrite IH.
  - destruct (g x) eqn:G; [|exact IH].
    rewrite (H x G) in F. discriminate.
Qed.

Lemma filter_lowerValue (search : string) (dataset : list JsValue) :
  filter (fun entry => Choices.matchesSearch entry search)
    (map lowerValue dataset)
  = map lowerValue
      (filter (fun entry => Choices.matchesSearch entry search) dataset).
Proof.
  induction dataset as [|entry dataset IH]; [reflexivity|].
  assert (M : Choices.matchesSearch (lowerValue entry) search
              = Choices.matchesSearch entry search)
    by apply recursiveCheck_lowerValue.
  cbn [map filter]. rewrite M.
  destruct (Choices.matchesSearch entry search);
    cbn [map]; [f_equal|]; exact IH.
Qed.

End ChoiceFacts.

(** X19.  With a search string that is not empty, [getMatchingChoices]
    keeps, in their order, exactly the entries of the dataset that mention
    the string in lower case: at some depth, a key or the rendering of a
    value contains it once lowered.  [null] and [undefined] values are never
    read, so an object without keys is never kept. *)
Theorem getMatchingChoices_keeps_mentions (dataset : list JsValue)
    (search : string) :
  search <> "" ->
  exists keep : JsValue -> bool,
    (forall entry,
        keep entry = true <-> Mentions (Choices.toLowerCase search) entry)
    /\ Choices.getMatchingChoices dataset (Some search) = filter keep dataset.
Proof.
  intros H. exists (fun entry => Choices.matchesSearch entry search). split.
  - intros entry. apply recursiveCheck_mentions.
  - apply getMatchingChoices_search, H.
Qed.

Lemma getMatchingChoices_keeps_mentions_witness :
  exists keep : JsValue -> bool,
    (forall entry,
        keep entry = true <-> Mentions (Choices.toLowerCase "ALPHA") entry)
    /\ Choices.getMatchingChoices [emptyChoice; nestedChoice; alphaChoice]
         (Some "ALPHA")
       = filter keep [emptyChoice; nestedChoice; alphaChoice].
Proof.
  apply (@getMatchingChoices_keeps_mentions
           [emptyChoice; nestedChoice; alphaChoice] "ALPHA").
  discriminate.
Defined.

(** X20.  A search can be refined on its own results: when the lowered
    search string [wider] occurs in the lowered [narrower], searching
    [narrower] among the results for [wider] gives what searching it in the
    whole dataset gives. *)
Theorem getMatchingChoices_refines (dataset : list JsValue)
    (wider narrower : string) :
  JS.includes (Choices.toLowerCase narrower) (Choices.toLowerCase wider)
  = true ->
  Choices.getMatchingChoices
    (Choices.getMatchingChoices dataset (Some wider)) (Some narrower)
  = Choices.getMatchingChoices dataset (Some narrower).
Proof.
  intros H. apply includes_occurs in H.
  destruct wider as [|c wider'] eqn:W; [reflexivity|]. rewrite <- W in *.
  assert (Hw : wider <> "") by (rewrite W; discriminate).
  assert (Hn : narrower <> "").
  { intros ->. apply Occurs_empty in H.
    apply Hw. exact (proj1 (toLowerCase_empty wider) H). }
  rewrite (getMatchingChoices_search dataset Hw).
  rewrite !(getMatchingChoices_search _ Hn).
  apply filter_narrow. intros entry. unfold Choices.matchesSearch.
  rewrite !recursiveCheck_mentions. apply Mentions_narrow, H.
Qed.

Lemma getMatchingChoices_refines_witness :
  Choices.getMatchingChoices
    (Choices.getMatchingChoices [emptyChoice; nestedChoice; alphaChoice]
       (Some "Alpha"))
    (Some "ALPHABET")
  = Choices.getMatchingChoices [emptyChoice; nestedChoice; alphaChoice]
      (Some "ALPHABET").
Proof.
  apply (@getMatchingChoices_refines
           [emptyChoice; nestedChoice; alphaChoice] "Alpha" "ALPHABET").
  reflexivity.
Defined.

(** X21.  The search ignores case on both sides: two search strings that
    agree once lowered select the same entries, and lowering every key and
    rendering of the dataset selects the lowered entries. *)
Theorem getMatchingChoices_ignores_case (dataset : list JsValue)
    (search search' : string) :
  Choices.toLowerCase search = Choices.toLowerCase search' ->
  Choices.getMatchingChoices dataset (Some search)
  = Choices.getMatchingChoices dataset (Some search')
  /\ Choices.getMatchingChoices (map lowerValue dataset) (Some search')
     = map lowerValue (Choices.getMatchingChoices dataset (Some search)).
Proof.
  intros H.
  assert (E : Choices.getMatchingChoices dataset (Some search)
              = Choices.getMatchingChoices dataset (Some search')).
  { unfold Choices.getMatchingChoices, Choices.matchesSearch. rewrite H.
    destruct search, search'; try discriminate; reflexivity. }
  split; [exact E|]. rewrite E.
  unfold Choices.getMatchingChoices.
  destruct (negb (JS.truthy (Some search'))); [reflexivity|].
  apply filter_lowerValue.
Qed.

Lemma getMatchingChoices_ignores_case_witness :
  Choices.getMatchingChoices [emptyChoice; nestedChoice; alphaChoice]
    (Some "ALPHA")
  = Choices.getMatchingChoices [emptyChoice; nestedChoice; alphaChoice]
      (Some "alpha")
  /\ Choices.getMatchingChoices
       (map lowerValue [emptyChoice; nestedChoice; alphaChoice])
       (Some "alpha")
     = map lowerValue
         (Choices.getMatchingChoices
            [emptyChoice; nestedChoice; alphaChoice] (Some "ALPHA")).
Proof.
  apply (@getMatchingChoices_ignores_case
           [emptyChoice; nestedChoice; alphaChoice] "ALPHA" "alpha").
  reflexivity.
Defined.
